(** * EScript 0.6.7: function objects, static data, the standard library's
      priority queue, configuration store and object serialization

    A shallow embedding of the parts of the EScript sources that the
    specification talks about, followed by the theorems that settle each
    numbered claim of the specification against that embedding.

    Layout: the embedding comes first, one module per source unit
    ([EScript] for [UserFunction.h], [Engine] and [Resolver] for the parts
    of the runtime that are only specified, [PriorityQueue], [Utf8],
    [ConfigManager], [ObjectSerialization]); the theorems follow. *)

From Stdlib Require Import ZArith Lia List Bool Ascii String DecimalString
  DecimalNat.
From stdpp Require Import base option list strings gmap sorting.

Local Open Scope Z_scope.
#[local] Set Warnings "-register-all".

(* ===================================================================== *)
(** * Part I: the embedding                                               *)
(* ===================================================================== *)

(** ** [EScript/Objects/Callables/UserFunction.h] *)

Module EScript.

(** Objects live on a heap; a reference is an address.  [ObjRef] is the
    counted reference of the runtime, [None] being [nullptr]. *)
Abbreviation addr := nat (only parsing).
Abbreviation ObjRef := (option nat) (only parsing).

(** [StringId] identifies an interned name; the embedding keeps the name. *)
Abbreviation StringId := string (only parsing).

(** [class StaticData]: two parallel vectors. *)
Record StaticData := mkStaticData {
  staticVariableNames : list StringId;
  staticVariableValues : list ObjRef
}.

Definition uint32_max : Z := 2 ^ 32.

(** [static_cast<uint32_t>]. *)
Definition to_uint32 (z : Z) : Z := z mod uint32_max.

(** [uint32_t declareStaticVariable(const StringId & name)]:
    both vectors grow by one element, the new value is [nullptr], and the
    result is [size() - 1] of the grown name vector, cast to 32 bits. *)
Definition declareStaticVariable (name : StringId) (sd : StaticData)
  : Z * StaticData :=
  let names := staticVariableNames sd ++ [name] in
  let values := staticVariableValues sd ++ [None] in
  (to_uint32 (Z.of_nat (length names) - 1), mkStaticData names values).

(** One instruction of an [InstructionBlock].

    Modelled from the spec: [InstructionBlock.h] is not part of the
    sources at hand; the specification describes a block as an ordered
    sequence of [(opcode, operand[])] with small integer operands. *)
Record Instruction := mkInstruction {
  opcode : Z;
  operands : list Z
}.
Abbreviation InstructionBlock := (list Instruction) (only parsing).

(** [CodeFragment]: the source text a function was compiled from. *)
Abbreviation CodeFragment := string (only parsing).

(** An attribute of an [ExtObject]: a value and its property flags. *)
Record Attribute := mkAttribute {
  attrValue : ObjRef;
  attrFlags : Z
}.

(** [class UserFunction : public ExtObject].  The members are those of
    the header, in its order; [attributes] is the attribute map of the
    [ExtObject] base.  [instructions] is a member held by value
    ([InstructionBlock instructions;]) whereas [staticData] is a counted
    reference ([_CountedRef<StaticData> staticData;]). *)
Record UserFunction := mkUserFunction {
  attributes : gmap StringId Attribute;
  codeFragment : CodeFragment;
  line : Z;
  paramCount : nat;
  minParamValueCount : Z;
  maxParamValueCount : Z;
  multiParam : Z;
  instructions : InstructionBlock;
  staticData : ObjRef
}.

Definition getCode (f : UserFunction) : CodeFragment := codeFragment f.
Definition getMaxParamCount (f : UserFunction) : Z := maxParamValueCount f.
Definition getMinParamCount (f : UserFunction) : Z := minParamValueCount f.
Definition getParamCount (f : UserFunction) : nat := paramCount f.
Definition getInstructionBlock (f : UserFunction) : InstructionBlock :=
  instructions f.
Definition getLine (f : UserFunction) : Z := line f.
Definition getMultiParam (f : UserFunction) : Z := multiParam f.
Definition getStaticData (f : UserFunction) : ObjRef := staticData f.

Definition setCode (c : CodeFragment) (f : UserFunction) : UserFunction :=
  mkUserFunction (attributes f) c (line f) (paramCount f)
    (minParamValueCount f) (maxParamValueCount f) (multiParam f)
    (instructions f) (staticData f).

Definition setParameterCounts (paramsCount : nat) (minValues maxValues : Z)
    (f : UserFunction) : UserFunction :=
  mkUserFunction (attributes f) (codeFragment f) (line f) paramsCount
    minValues maxValues (multiParam f) (instructions f) (staticData f).

Definition setLine (l : Z) (f : UserFunction) : UserFunction :=
  mkUserFunction (attributes f) (codeFragment f) l (paramCount f)
    (minParamValueCount f) (maxParamValueCount f) (multiParam f)
    (instructions f) (staticData f).

Definition setMultiParam (i : Z) (f : UserFunction) : UserFunction :=
  mkUserFunction (attributes f) (codeFragment f) (line f) (paramCount f)
    (minParamValueCount f) (maxParamValueCount f) i
    (instructions f) (staticData f).

(** The non-const [InstructionBlock & getInstructionBlock()] hands out a
    reference into the function object itself, through which the block
    of that object can be changed. *)
Definition modifyInstructionBlock (g : InstructionBlock -> InstructionBlock)
    (f : UserFunction) : UserFunction :=
  mkUserFunction (attributes f) (codeFragment f) (line f) (paramCount f)
    (minParamValueCount f) (maxParamValueCount f) (multiParam f)
    (g (instructions f)) (staticData f).

(** The constructor taking a [StaticData] pointer.

    Modelled from the spec: the constructor is only declared in the
    header (its body is in [UserFunction.cpp]).  By section 4.3 a function
    instantiated from a fragment holds a reference to the fragment's
    Static Data Block; the remaining members start out empty, with no
    variadic marker ([multiParam = -1]). *)
Definition newUserFunction (sd : addr) : UserFunction :=
  mkUserFunction ∅ EmptyString (-1) 0 0 0 (-1) [] (Some sd).

(** The copy constructor [UserFunction(const UserFunction & other)].

    Modelled from the spec: the copy constructor is only declared in the
    header.  By section 4.3 cloning copies the parameter metadata and the
    attribute map and keeps the Static Data Block shared.  Every member
    is initialised from the corresponding member of [other]: the
    members held by value are copied, the counted reference is copied
    as a reference. *)
Definition copyUserFunction (other : UserFunction) : UserFunction :=
  mkUserFunction (attributes other) (codeFragment other) (line other)
    (paramCount other) (minParamValueCount other)
    (maxParamValueCount other) (multiParam other)
    (instructions other) (staticData other).

(** The object store: function objects and static data blocks, each
    object at its own address.  Allocation appends. *)
Record Heap := mkHeap {
  functions : list UserFunction;
  statics : list StaticData
}.

(** [new StaticData]. *)
Definition newStaticData (h : Heap) : addr * Heap :=
  (length (statics h),
   mkHeap (functions h) (statics h ++ [mkStaticData [] []])).

(** [new UserFunction(sd)]. *)
Definition instantiate (sd : addr) (h : Heap) : addr * Heap :=
  (length (functions h),
   mkHeap (functions h ++ [newUserFunction sd]) (statics h)).

(** [clone()]: a new [UserFunction] copy-constructed from [this]. *)
Definition clone (this : addr) (h : Heap) : option (addr * Heap) :=
  f ← functions h !! this;
  Some (length (functions h),
        mkHeap (functions h ++ [copyUserFunction f]) (statics h)).

(** Changing the instruction block of the function object at [this]
    through the reference returned by [getInstructionBlock()]. *)
Definition updateInstructionBlock (this : addr)
    (g : InstructionBlock -> InstructionBlock) (h : Heap) : option Heap :=
  f ← functions h !! this;
  Some (mkHeap (<[this := modifyInstructionBlock g f]> (functions h))
               (statics h)).

(** Reading and writing a static slot through a function object:
    [fun->getStaticData()->staticVariableValues[slot]].  An access
    outside the vector, or through a null reference, has no defined
    result: [None]. *)
Definition readStatic (f : UserFunction) (slot : nat) (h : Heap)
  : option ObjRef :=
  a ← getStaticData f;
  sd ← statics h !! a;
  staticVariableValues sd !! slot.

Definition writeStatic (f : UserFunction) (slot : nat) (v : ObjRef)
    (h : Heap) : option Heap :=
  a ← getStaticData f;
  sd ← statics h !! a;
  if decide (slot < length (staticVariableValues sd))%nat then
    Some (mkHeap (functions h)
            (<[a := mkStaticData (staticVariableNames sd)
                      (<[slot := v]> (staticVariableValues sd))]>
               (statics h)))
  else None.

(** The function objects of one compiled fragment whose Static Data
    Block is at [sd]: those constructed from it, their clones, and
    whatever the setters of the header make of them. *)
Inductive fromFragment (sd : addr) : UserFunction -> Prop :=
| ff_new : fromFragment sd (newUserFunction sd)
| ff_clone f : fromFragment sd f -> fromFragment sd (copyUserFunction f)
| ff_setCode c f : fromFragment sd f -> fromFragment sd (setCode c f)
| ff_setParameterCounts n lo hi f :
    fromFragment sd f -> fromFragment sd (setParameterCounts n lo hi f)
| ff_setLine l f : fromFragment sd f -> fromFragment sd (setLine l f)
| ff_setMultiParam i f :
    fromFragment sd f -> fromFragment sd (setMultiParam i f)
| ff_modifyInstructionBlock g f :
    fromFragment sd f -> fromFragment sd (modifyInstructionBlock g f).

(** Shared identity of the instruction blocks of the function objects at
    [a] and [b]: they are one block, so whatever is done to it through
    [b] is what is then seen through [a]. *)
Definition sharesInstructionBlock (h : Heap) (a b : addr) : Prop :=
  forall (g : InstructionBlock -> InstructionBlock) (h' : Heap)
         (fa fb : UserFunction),
    functions h !! b = Some fb ->
    updateInstructionBlock b g h = Some h' ->
    functions h' !! a = Some fa ->
    getInstructionBlock fa = g (getInstructionBlock fb).

(** Shared identity of the static data blocks of the function objects at
    [a] and [b]: a write to a slot through [b] is read back through [a]. *)
Definition sharesStaticData (h : Heap) (a b : addr) : Prop :=
  forall (slot : nat) (v : ObjRef) (h' : Heap) (fa fb : UserFunction),
    functions h !! a = Some fa ->
    functions h !! b = Some fb ->
    writeStatic fb slot v h = Some h' ->
    readStatic fa slot h' = Some v.

(** What the specification says of [clone]: the clone has the parameter
    metadata and the attribute map of the original and shares both its
    instruction block and its static data block. *)
Definition cloneSharesBoth (h : Heap) (a : addr) : Prop :=
  forall (f : UserFunction), functions h !! a = Some f ->
    exists (b : addr) (h' : Heap) (f' : UserFunction),
      clone a h = Some (b, h')
      /\ functions h' !! b = Some f'
      /\ getParamCount f' = getParamCount f
      /\ getMinParamCount f' = getMinParamCount f
      /\ getMaxParamCount f' = getMaxParamCount f
      /\ attributes f' = attributes f
      /\ sharesInstructionBlock h' a b
      /\ sharesStaticData h' a b.

(** Declaring the names of a list one after the other; the result is the
    indices returned, in order, and the block after the last call. *)
Fixpoint declareStaticVariables (names : list StringId) (sd : StaticData)
  : list Z * StaticData :=
  match names with
  | [] => ([], sd)
  | name :: rest =>
      let '(i, sd) := declareStaticVariable name sd in
      let '(ids, sd) := declareStaticVariables rest sd in
      (i :: ids, sd)
  end.

End EScript.

(** ** The execution engine's parameter binding (specification, section 4.1) *)

Module Engine.
Import EScript.

(** The error kinds of section 7. *)
Inductive ErrorKind :=
| ArityError
| AttributeNotFound
| AccessError
| TypeMismatchError
| UserRaisedException
| UnhandledException.

(** A local-variable slot of a call frame: not yet filled, bound to one
    argument, or bound to the array that collects a variadic tail. *)
Inductive Slot :=
| Unset
| Bound (v : addr)
| Collected (vs : list addr).

(** A variadic marker is declared when [multiParam] is not negative; the
    header documents that a marker at or beyond [paramCount] (as in
    [fn(a,...)]) has no slot to collect into. *)
Definition hasVariadicMarker (f : UserFunction) : bool :=
  0 <=? getMultiParam f.

(** Positional arguments fill the first [n] slots, the rest stay unset
    until the default-value instructions run. *)
Definition bindPositional (n : nat) (args : list addr) : list Slot :=
  take n ((Bound <$> args) ++ replicate n Unset).

(** Modelled from the spec: the engine is not part of the sources at
    hand.  Section 4.1: arguments are bound to the first [paramCount]
    slots; fewer than the minimum is an [ArityError]; with a variadic
    marker the arguments beyond the maximum are collected into an array
    in the designated slot; without one they are discarded. *)
Definition bindParameters (f : UserFunction) (args : list addr)
  : ErrorKind + list Slot :=
  if Z.of_nat (length args) <? getMinParamCount f then inl ArityError
  else
    let maxValues := Z.to_nat (getMaxParamCount f) in
    let kept := take maxValues args in
    let excess := drop maxValues args in
    let slots := bindPositional (getParamCount f) kept in
    if hasVariadicMarker f
    then inr (<[Z.to_nat (getMultiParam f) := Collected excess]> slots)
    else inr slots.

(** The outcome of a call, as the embedder sees it. *)
Inductive Outcome :=
| Result (v : ObjRef)
| Failure (e : ErrorKind).

Section Call.
(** Running an instruction block on a frame of bound slots; the
    instruction set itself is outside the sources at hand. *)
Variable exec : InstructionBlock -> list Slot -> Outcome.

(** The call operation of section 6:
    [(Function, ordered argument list) -> Result | Failure]. *)
Definition call (f : UserFunction) (args : list addr) : Outcome :=
  match bindParameters f args with
  | inl e => Failure e
  | inr slots => exec (getInstructionBlock f) slots
  end.
End Call.

End Engine.

(** ** The attribute resolver (specification, sections 3 and 4.2) *)

Module Resolver.
Import EScript.

Abbreviation AttrMap := (gmap string Attribute) (only parsing).

(** A type: name, optional base type, the trait bundles composed into
    it in composition order, and its own attribute map.  The base chain
    is finite by construction. *)
Inductive Type_ :=
| mkType (name : string) (base : option Type_)
         (traits : list (gmap StringId Attribute))
         (own : gmap StringId Attribute).

Definition typeName (t : Type_) : string :=
  match t with mkType n _ _ _ => n end.
Definition getBaseType (t : Type_) : option Type_ :=
  match t with mkType _ b _ _ => b end.
Definition typeTraits (t : Type_) : list AttrMap :=
  match t with mkType _ _ ts _ => ts end.
Definition typeAttributes (t : Type_) : AttrMap :=
  match t with mkType _ _ _ o => o end.

(** An object: its type and, for an extensible object, its own
    attribute map. *)
Record Object := mkObject {
  objType : Type_;
  objAttributes : option (gmap StringId Attribute)
}.

(** The first bundle of [bundles] that defines [name]. *)
Fixpoint findInBundles (name : StringId) (bundles : list AttrMap)
  : option Attribute :=
  match bundles with
  | [] => None
  | b :: rest =>
      match b !! name with
      | Some a => Some a
      | None => findInBundles name rest
      end
  end.

(** Resolution on a type: own map, then the traits most recently
    composed first, then the base type. *)
Fixpoint resolveInType (t : Type_) (name : StringId) : option Attribute :=
  match t with
  | mkType _ b traits own =>
      match own !! name with
      | Some a => Some a
      | None =>
          match findInBundles name (rev traits) with
          | Some a => Some a
          | None =>
              match b with
              | Some bt => resolveInType bt name
              | None => None
              end
          end
      end
  end.

(** Modelled from the spec: the resolver is not part of the sources at
    hand.  Section 3: the order is the object's own attribute map, the
    type's own map, each composed trait in reverse composition order,
    the base type's resolution, failure. *)
Definition resolve (o : Object) (name : StringId) : option Attribute :=
  match objAttributes o ≫= (λ m, m !! name) with
  | Some a => Some a
  | None => resolveInType (objType o) name
  end.

(** [this.name @(...) := value] on an extensible object: the attribute
    is created in, or replaced in, the object's own map.  An object that
    is not extensible has no own map to set it in. *)
Definition setAttribute (name : StringId) (a : Attribute) (o : Object)
  : option Object :=
  m ← objAttributes o;
  Some (mkObject (objType o) (Some (<[name := a]> m))).

(** Composing a trait bundle into a type (a copy, appended last). *)
Definition addTrait (bundle : AttrMap) (t : Type_) : Type_ :=
  match t with
  | mkType n b traits own => mkType n b (traits ++ [bundle]) own
  end.

End Resolver.

(** ** [Std/PriorityQueue.escript] *)

Module PriorityQueue.

Section Queue.
Context {A : Type}.

(** An instance of the type [T]: the private members [compare] and
    [arr].  [void] results are [None]. *)
Record T := mkT {
  compare : A -> A -> bool;
  arr : list A
}.

(** [T._constructor ::= fn(compareFunction = ...)]; [arr] is
    initialised to a fresh empty [Array]. *)
Definition _constructor (compareFunction : A -> A -> bool) : T :=
  mkT compareFunction [].

Definition count (q : T) : nat * T := (length (arr q), q).

Definition empty (q : T) : bool * T :=
  (match arr q with [] => true | _ => false end, q).

Definition clear (q : T) : T := mkT (compare q) [].

(** [T.get ::= fn(){ return arr.empty() ? void : arr[0]; }] *)
Definition get (q : T) : option A * T :=
  (if fst (empty q) then None else arr q !! 0%nat, q).

(** The loop of [add].  [e] is the element being inserted, [i] the
    index it currently sits at.  Each round moves to the parent index
    [p = floor((i+1)/2) - 1], which is smaller than [i]; [fuel] bounds
    the number of rounds.  [None] is an exhausted bound or an index
    outside the array. *)
Fixpoint add_loop (fuel : nat) (cmp : A -> A -> bool) (e : A)
    (a : list A) (i : nat) : option (list A) :=
  if (0 <? i)%nat then
    match fuel with
    | O => None
    | S fuel' =>
        let p := ((i + 1) / 2 - 1)%nat in
        t ← a !! p;
        if cmp e t
        then add_loop fuel' cmp e (<[i := t]> (<[p := e]> a)) p
        else Some a
    end
  else Some a.

(** [T.add ::= fn(e){ arr.pushBack(e); var i = count()-1; while(i>0){...} }] *)
Definition add (e : A) (q : T) : option T :=
  let a := arr q ++ [e] in
  let i := (length a - 1)%nat in
  a' ← add_loop i (compare q) e a i;
  Some (mkT (compare q) a').

(** [T.heapify ::= fn(i){...}]: the recursive call is on a child index,
    which is larger than [i]; [fuel] bounds the recursion depth. *)
Fixpoint heapify (fuel : nat) (cmp : A -> A -> bool) (a : list A)
    (i : nat) : option (list A) :=
  match fuel with
  | O => None
  | S fuel' =>
      let left := ((i + 1) * 2 - 1)%nat in
      let size := length a in
      if (left <? size)%nat then
        let minI := i in
        let right := (left + 1)%nat in
        al ← a !! left;
        am ← a !! minI;
        let minI := if cmp al am then left else minI in
        minI ← (if (right <? size)%nat then
                  ar ← a !! right;
                  am ← a !! minI;
                  Some (if cmp ar am then right else minI)
                else Some minI);
        if decide (minI ≠ i) then
          tmp ← a !! i;
          am ← a !! minI;
          heapify fuel' cmp (<[minI := tmp]> (<[i := am]> a)) minI
        else Some a
      else Some a
  end.

(** [arr.popBack()]: removes and returns the last element. *)
Definition popBack (a : list A) : option A * list A :=
  (last a, removelast a).

(** [T.extract ::= fn(){...}] *)
Definition extract (q : T) : option (option A * T) :=
  let size := length (arr q) in
  if (1 <? size)%nat then
    min ← arr q !! 0%nat;
    let '(back, a) := popBack (arr q) in
    back ← back;
    let a := <[0%nat := back]> a in
    a ← heapify (length a) (compare q) a 0;
    Some (Some min, mkT (compare q) a)
  else if (size =? 1)%nat then
    min ← arr q !! 0%nat;
    let '(_, a) := popBack (arr q) in
    Some (Some min, mkT (compare q) a)
  else Some (None, q).

(** Inserting the values of a list one after the other ([q += v]). *)
Fixpoint addAll (vs : list A) (q : T) : option T :=
  match vs with
  | [] => Some q
  | v :: rest => q' ← add v q; addAll rest q'
  end.

(** [while(!q.empty()) out += q.extract();]: at most [fuel] rounds. *)
Fixpoint extractAll (fuel : nat) (q : T) : option (list A * T) :=
  if fst (empty q) then Some ([], q)
  else
    match fuel with
    | O => None
    | S fuel' =>
        '(v, q') ← extract q;
        v ← v;
        '(vs, q'') ← extractAll fuel' q';
        Some (v :: vs, q'')
    end.

End Queue.

Arguments T : clear implicits.

(** The default comparison of the constructor: [fn(a,b){ return a<b; }],
    on integer values. *)
Definition defaultCompare (a b : Z) : bool := a <? b.

(** *** Heap order, for the statements about the queue *)

Local Open Scope nat_scope.

Definition parent (i : nat) : nat := (i + 1) / 2 - 1.

#[global] Arguments parent : simpl never.

(** Reading a cell, with 0 for an index outside the array. *)
Definition rd (a : list Z) (i : nat) : Z := default 0%Z (a !! i).

Definition heapOrdered (a : list Z) : Prop :=
  forall j, 0 < j < length a -> (rd a (parent j) <= rd a j)%Z.

(** The array is ordered except, possibly, between [i] and its parent. *)
Definition upInv (a : list Z) (i : nat) : Prop :=
  (forall j, 0 < j < length a -> j <> i -> (rd a (parent j) <= rd a j)%Z)
  /\ (forall j, 0 < j < length a -> parent j = i -> 0 < i ->
        (rd a (parent i) <= rd a j)%Z).

(** The array is ordered except, possibly, between [i] and its children. *)
Definition downInv (a : list Z) (i : nat) : Prop :=
  (forall j, 0 < j < length a -> parent j <> i ->
     (rd a (parent j) <= rd a j)%Z)
  /\ (forall j, 0 < j < length a -> parent j = i -> 0 < i ->
        (rd a (parent i) <= rd a j)%Z).

(** The index [heapify] settles on: the smallest of [i] and its children,
    the left child winning a tie against the right, [i] winning every tie. *)
Definition chooseMin (a : list Z) (i : nat) : nat :=
  let left := (i + 1) * 2 - 1 in
  let minI := if (rd a left <? rd a i)%Z then left else i in
  if left + 1 <? length a
  then if (rd a (left + 1) <? rd a minI)%Z then left + 1 else minI
  else minI.

End PriorityQueue.

(** ** [tests/test.cpp]: [readCodePoint_utf8] *)

Module Utf8.

(** [static const uint32_t INVALID_CODE_POINT = ~0;] *)
Definition INVALID_CODE_POINT : Z := 2 ^ 32 - 1.

Definition to_uint8 (z : Z) : Z := z mod 256.
Definition to_uint32 (z : Z) : Z := z mod 2 ^ 32.

(** The result of a call: the returned code point, the cursor after the
    call (the cursor is passed by reference), and the addresses the call
    has read from, in order. *)
Record Outcome := mkOutcome {
  result : Z;
  cursorAfter : Z;
  reads : list Z
}.

(** [mem] gives the [char] stored at each address; pointers are
    addresses. *)
Definition readCodePoint_utf8 (mem : Z -> Z) (cursor utf8End : Z)
  : Outcome :=
  if cursor >=? utf8End then mkOutcome INVALID_CODE_POINT cursor []
  else
    let byte0 := to_uint8 (mem cursor) in
    if byte0 <? 0x80 then
      mkOutcome (to_uint32 byte0) (cursor + 1) [cursor]
    else if byte0 <? 0xE0 then
      if (byte0 <? 0xC2) || (cursor + 1 >=? utf8End)
      then mkOutcome INVALID_CODE_POINT cursor [cursor]
      else
        let byte1 := to_uint8 (mem (cursor + 1)) in
        if negb (Z.land byte1 0xC0 =? 0x80)
        then mkOutcome INVALID_CODE_POINT cursor [cursor; cursor + 1]
        else
          mkOutcome
            (to_uint32 (to_uint32 (Z.shiftl (to_uint32 (Z.land byte0 0x1F)) 6)
                        + Z.land byte1 0x3F))
            (cursor + 2) [cursor; cursor + 1]
    else if byte0 <? 0xF0 then
      if cursor + 2 >=? utf8End
      then mkOutcome INVALID_CODE_POINT cursor [cursor]
      else
        let byte1 := to_uint8 (mem (cursor + 1)) in
        let byte2 := to_uint8 (mem (cursor + 2)) in
        if negb (Z.land byte1 0xC0 =? 0x80)
           || negb (Z.land byte2 0xC0 =? 0x80)
        then mkOutcome INVALID_CODE_POINT cursor
               [cursor; cursor + 1; cursor + 2]
        else
          mkOutcome
            (to_uint32 (to_uint32 (Z.shiftl (to_uint32 (Z.land byte0 0x0F)) 12)
                        + to_uint32 (Z.shiftl (to_uint32 (Z.land byte1 0x3F)) 6)
                        + Z.land byte2 0x3F))
            (cursor + 3) [cursor; cursor + 1; cursor + 2]
    else if byte0 <? 0xF5 then
      if cursor + 3 >=? utf8End
      then mkOutcome INVALID_CODE_POINT cursor [cursor]
      else
        let byte1 := to_uint8 (mem (cursor + 1)) in
        let byte2 := to_uint8 (mem (cursor + 2)) in
        let byte3 := to_uint8 (mem (cursor + 3)) in
        if negb (Z.land byte1 0xC0 =? 0x80)
           || negb (Z.land byte2 0xC0 =? 0x80)
           || negb (Z.land byte3 0xC0 =? 0x80)
        then mkOutcome INVALID_CODE_POINT cursor
               [cursor; cursor + 1; cursor + 2; cursor + 3]
        else
          mkOutcome
            (to_uint32 (to_uint32 (Z.shiftl (to_uint32 (Z.land byte0 0x07)) 18)
                        + to_uint32 (Z.shiftl (to_uint32 (Z.land byte1 0x3F)) 12)
                        + to_uint32 (Z.shiftl (to_uint32 (Z.land byte2 0x3F)) 6)
                        + Z.land byte3 0x3F))
            (cursor + 4) [cursor; cursor + 1; cursor + 2; cursor + 3]
    else mkOutcome INVALID_CODE_POINT cursor [cursor].

(** A buffer of bytes laid out from address [base] on; addresses outside
    it hold [other]. *)
Definition bufferAt (base : Z) (bytes : list Z) (other : Z) (a : Z) : Z :=
  if (base <=? a) && (a <? base + Z.of_nat (length bytes))
  then nth (Z.to_nat (a - base)) bytes other
  else other.

(** Well-formed UTF-8, following the specification's wording ("a
    complete, well-formed UTF-8 sequence that fits before utf8End") with
    the byte ranges of the Unicode Standard (table 3-7) and RFC 3629:
    no overlong forms, no surrogates, nothing above U+10FFFF.  The
    result is the length of the sequence and its scalar value. *)
Definition isContinuation (b : Z) : bool := (0x80 <=? b) && (b <=? 0xBF).

Definition inRange (lo hi b : Z) : bool := (lo <=? b) && (b <=? hi).

Definition wellFormedUtf8 (mem : Z -> Z) (cursor utf8End : Z)
  : option (Z * Z) :=
  let avail := utf8End - cursor in
  let b0 := to_uint8 (mem cursor) in
  let b1 := to_uint8 (mem (cursor + 1)) in
  let b2 := to_uint8 (mem (cursor + 2)) in
  let b3 := to_uint8 (mem (cursor + 3)) in
  if avail <=? 0 then None
  else if inRange 0x00 0x7F b0 then Some (1, b0)
  else if inRange 0xC2 0xDF b0 then
    if (2 <=? avail) && isContinuation b1
    then Some (2, (b0 - 0xC0) * 64 + (b1 - 0x80)) else None
  else if inRange 0xE0 0xEF b0 then
    if (3 <=? avail)
       && inRange (if b0 =? 0xE0 then 0xA0 else 0x80)
                  (if b0 =? 0xED then 0x9F else 0xBF) b1
       && isContinuation b2
    then Some (3, (b0 - 0xE0) * 4096 + (b1 - 0x80) * 64 + (b2 - 0x80))
    else None
  else if inRange 0xF0 0xF4 b0 then
    if (4 <=? avail)
       && inRange (if b0 =? 0xF0 then 0x90 else 0x80)
                  (if b0 =? 0xF4 then 0x8F else 0xBF) b1
       && isContinuation b2 && isContinuation b3
    then Some (4, (b0 - 0xF0) * 262144 + (b1 - 0x80) * 4096
                  + (b2 - 0x80) * 64 + (b3 - 0x80))
    else None
  else None.

End Utf8.

(** ** Maps of the scripting language *)

(** A [Map] with string keys, as the list of its entries in the order in
    which [foreach] visits them; the keys are distinct.  [alist_get] is
    [m[k]], [alist_set] is [m[k] = v], [alist_unset] is [m.unset(k)]. *)
Module AList.

Fixpoint alist_get {V : Type} (k : string) (l : list (string * V)) : option V :=
  match l with
  | [] => None
  | (k', v) :: rest => if String.eqb k k' then Some v else alist_get k rest
  end.

Fixpoint alist_set {V : Type} (k : string) (v : V) (l : list (string * V))
  : list (string * V) :=
  match l with
  | [] => [(k, v)]
  | (k', v') :: rest =>
      if String.eqb k k' then (k, v) :: rest
      else (k', v') :: alist_set k v rest
  end.

Fixpoint alist_unset {V : Type} (k : string) (l : list (string * V))
  : list (string * V) :=
  match l with
  | [] => []
  | (k', v') :: rest =>
      if String.eqb k k' then rest else (k', v') :: alist_unset k rest
  end.

End AList.

(** ** [Std/ConfigManager.escript] *)

Module ConfigManager.
Export AList.

(** Values of the scripting language, as far as a configuration can hold
    them ("JSON-expressable data").  [void], booleans, numbers and
    strings are immutable; an [Array] and a [Map] are objects with an
    identity, under which they may be reached from several places and
    changed in place.  The entries of a map are kept in the order in
    which the map is iterated; their keys are distinct. *)
Inductive Value :=
| VVoid
| VBool (b : bool)
| VNumber (n : Z)
| VString (s : string)
| VArray (id : nat) (elems : list Value)
| VMap (id : nat) (entries : list (string * Value)).

(** A JSON document, by its structure. *)
Inductive JSON :=
| JNull
| JBool (b : bool)
| JNumber (n : Z)
| JString (s : string)
| JArray (elems : list JSON)
| JObject (members : list (string * JSON)).

(** [toJSON(value)]. *)
Fixpoint toJSON (v : Value) : JSON :=
  match v with
  | VVoid => JNull
  | VBool b => JBool b
  | VNumber n => JNumber n
  | VString s => JString s
  | VArray _ elems => JArray (map toJSON elems)
  | VMap _ entries => JObject (map (fun kv => (fst kv, toJSON (snd kv))) entries)
  end.

(** [parseJSON(text)]: every array and map of the result is a new
    object; [next] is the first unused identity. *)
Fixpoint parseJSON (j : JSON) (next : nat) : Value * nat :=
  match j with
  | JNull => (VVoid, next)
  | JBool b => (VBool b, next)
  | JNumber n => (VNumber n, next)
  | JString s => (VString s, next)
  | JArray elems =>
      let '(vs, next') :=
        (fix parseElems (l : list JSON) (n : nat) : list Value * nat :=
           match l with
           | [] => ([], n)
           | x :: rest =>
               let '(v, n1) := parseJSON x n in
               let '(vs, n2) := parseElems rest n1 in
               (v :: vs, n2)
           end) elems (S next) in
      (VArray next vs, next')
  | JObject members =>
      let '(es, next') :=
        (fix parseMembers (l : list (string * JSON)) (n : nat)
           : list (string * Value) * nat :=
           match l with
           | [] => ([], n)
           | (k, x) :: rest =>
               let '(v, n1) := parseJSON x n in
               let '(es, n2) := parseMembers rest n1 in
               ((k, v) :: es, n2)
           end) members (S next) in
      (VMap next es, next')
  end.

(** Comparison of two JSON texts ([toJSON(a) != toJSON(b)]). *)
Fixpoint JSON_eqb (a b : JSON) : bool :=
  match a, b with
  | JNull, JNull => true
  | JBool x, JBool y => Bool.eqb x y
  | JNumber x, JNumber y => x =? y
  | JString x, JString y => String.eqb x y
  | JArray xs, JArray ys =>
      (fix eqElems (xs ys : list JSON) : bool :=
         match xs, ys with
         | [], [] => true
         | x :: xs', y :: ys' => JSON_eqb x y && eqElems xs' ys'
         | _, _ => false
         end) xs ys
  | JObject xs, JObject ys =>
      (fix eqMembers (xs ys : list (string * JSON)) : bool :=
         match xs, ys with
         | [], [] => true
         | (k, x) :: xs', (k', y) :: ys' =>
             String.eqb k k' && JSON_eqb x y && eqMembers xs' ys'
         | _, _ => false
         end) xs ys
  | _, _ => false
  end.

(** The identities of the objects a value consists of. *)
Fixpoint ids (v : Value) : list nat :=
  match v with
  | VArray id elems => id :: flat_map ids elems
  | VMap id entries => id :: flat_map (fun kv => ids (snd kv)) entries
  | _ => []
  end.

(** A change made to the object with identity [id], wherever it is
    reached from: [f] replaces the object's contents. *)
Fixpoint mutateObject (id : nat) (f : Value -> Value) (v : Value) : Value :=
  match v with
  | VArray i elems =>
      if decide (i = id) then f v
      else VArray i (map (mutateObject id f) elems)
  | VMap i entries =>
      if decide (i = id) then f v
      else VMap i (map (fun kv => (fst kv, mutateObject id f (snd kv))) entries)
  | _ => v
  end.

(** *** Maps *)

(** [value ---|> Map] *)
Definition isMap (v : Value) : bool :=
  match v with VMap _ _ => true | _ => false end.

(** [group[key]]: [void] when the key is absent. *)
Definition mapGet (group : Value) (k : string) : Value :=
  match group with
  | VMap _ entries => default VVoid (alist_get k entries)
  | _ => VVoid
  end.

(** [group[key] = v] *)
Definition mapSet (group : Value) (k : string) (v : Value) : Value :=
  match group with
  | VMap id entries => VMap id (alist_set k v entries)
  | _ => group
  end.

(** [group.unset(key)] *)
Definition mapUnset (group : Value) (k : string) : Value :=
  match group with
  | VMap id entries => VMap id (alist_unset k entries)
  | _ => group
  end.

(** *** Strings *)

(** [key.contains(".")] *)
Fixpoint containsChar (c : ascii) (s : string) : bool :=
  match s with
  | EmptyString => false
  | String c' rest => if Ascii.eqb c c' then true else containsChar c rest
  end.

(** [key.split(".")]: the pieces between the separators. *)
Fixpoint splitChar (c : ascii) (s : string) : list string :=
  match s with
  | EmptyString => [EmptyString]
  | String c' rest =>
      if Ascii.eqb c c' then EmptyString :: splitChar c rest
      else
        match splitChar c rest with
        | piece :: pieces => String c' piece :: pieces
        | [] => [String c' EmptyString]
        end
  end.

(** [groupNames.popBack()] on the pieces of a key: the last piece and the
    pieces before it. *)
Definition popBack (pieces : list string) : string * list string :=
  (List.last pieces EmptyString, removelast pieces).

(** *** The configuration manager *)

(** The private members [data], [filename] and [autoSave]. *)
Record T := mkT {
  data : Value;
  filename : string;
  autoSave : bool
}.

(** What lies outside the manager: the first unused object identity and
    the files written so far (newest first). *)
Record World := mkWorld {
  nextId : nat;
  files : list (string * JSON)
}.

(** [new Map] *)
Definition newMap (w : World) : Value * World :=
  (VMap (nextId w) [], mkWorld (S (nextId w)) (files w)).

(** [T._constructor ::= fn(Bool autoSave = false)]; [data] is initialised
    to a new [Map], [filename] to the empty string. *)
Definition _constructor (autoSave : bool) (w : World) : T * World :=
  let '(m, w') := newMap w in (mkT m EmptyString autoSave, w').

(** [T.save ::= fn(filename = void)], called without argument. *)
Definition save (this : T) (w : World) : World :=
  mkWorld (nextId w) ((filename this, toJSON (data this)) :: files w).

(** The walk of [unsetValue] from [group] along [groupNames], ending with
    [group.unset(key)]; a piece that is not a map ends the call without a
    change ([None]). *)
Fixpoint unsetIn (group : Value) (groupNames : list string) (key : string)
  : option Value :=
  match groupNames with
  | [] => Some (mapUnset group key)
  | groupName :: rest =>
      let sub := mapGet group groupName in
      if isMap sub then
        sub' ← unsetIn sub rest key;
        Some (mapSet group groupName sub')
      else None
  end.

(** [T.unsetValue ::= fn(key)] *)
Definition unsetValue (key : string) (this : T) (w : World) : T * World :=
  let '(key, groupNames) := popBack (splitChar "."%char key) in
  match unsetIn (data this) groupNames key with
  | None => (this, w)
  | Some data' =>
      let this' := mkT data' (filename this) (autoSave this) in
      (this', if autoSave this then save this' w else w)
  end.

(** The walk of [setValue] from [group] along [groupNames]: a piece that
    is not a map is replaced by a new map; at the end the copy of the
    value is stored under [key] unless the entry already prints as
    [newJSON].  The result is the group after the call, the next unused
    identity, and whether the data changed. *)
Fixpoint setIn (group : Value) (groupNames : list string) (key : string)
    (newJSON : JSON) (next : nat) : Value * nat * bool :=
  match groupNames with
  | [] =>
      if negb (JSON_eqb (toJSON (mapGet group key)) newJSON) then
        let '(copy, next') := parseJSON newJSON next in
        (mapSet group key copy, next', true)
      else (group, next, false)
  | groupName :: rest =>
      let newGroup := mapGet group groupName in
      if isMap newGroup then
        let '(newGroup', next', changed) :=
          setIn newGroup rest key newJSON next in
        (mapSet group groupName newGroup', next', changed)
      else
        let newGroup := VMap next [] in
        let '(newGroup', next', changed) :=
          setIn newGroup rest key newJSON (S next) in
        (mapSet group groupName newGroup', next', changed)
  end.

(** [T.setValue ::= fn(key, value)] *)
Definition setValue (key : string) (value : Value) (this : T) (w : World)
  : T * World :=
  match value with
  | VVoid => unsetValue key this w
  | _ =>
      let '(key, groupNames) :=
        if containsChar "."%char key then popBack (splitChar "."%char key)
        else (key, []) in
      let newJSON := toJSON value in
      let '(data', next', changed) :=
        setIn (data this) groupNames key newJSON (nextId w) in
      let this' := mkT data' (filename this) (autoSave this) in
      let w' := mkWorld next' (files w) in
      (this', if changed && autoSave this then save this' w' else w')
  end.

(** The walk of [getValue] from [group] along [groupNames]: the group
    reached, or [None] when a piece is not a map. *)
Fixpoint findGroup (group : Value) (groupNames : list string) : option Value :=
  match groupNames with
  | [] => Some group
  | groupName :: rest =>
      let newGroup := mapGet group groupName in
      if isMap newGroup then findGroup newGroup rest else None
  end.

(** [T.getValue ::= fn(key, defaultValue = void)] *)
Definition getValue (key : string) (defaultValue : Value) (this : T)
    (w : World) : Value * T * World :=
  let fullKey := key in
  let '(key, groupNames) :=
    if containsChar "."%char key then popBack (splitChar "."%char key)
    else (key, []) in
  match findGroup (data this) groupNames with
  | None =>
      match defaultValue with
      | VVoid => (defaultValue, this, w)
      | _ =>
          let '(this', w') := setValue fullKey defaultValue this w in
          (defaultValue, this', w')
      end
  | Some group =>
      let '(value, next') := parseJSON (toJSON (mapGet group key)) (nextId w) in
      let w1 := mkWorld next' (files w) in
      match value with
      | VVoid =>
          match defaultValue with
          | VVoid => (defaultValue, this, w1)
          | _ =>
              let '(this', w') := setValue fullKey defaultValue this w1 in
              (defaultValue, this', w')
          end
      | _ => (value, this, w1)
      end
  end.

(** The value stored under [key], [void] if there is none: a key is set
    when this is not [void]. *)
Definition storedValue (key : string) (this : T) : Value :=
  let '(key, groupNames) :=
    if containsChar "."%char key then popBack (splitChar "."%char key)
    else (key, []) in
  match findGroup (data this) groupNames with
  | None => VVoid
  | Some group => mapGet group key
  end.

(** The objects of the store are older than [nextId]. *)
Definition storeBelow (this : T) (w : World) : Prop :=
  isMap (data this) = true /\ Forall (fun i => (i < nextId w)%nat) (ids (data this)).


(** *** Notions for the statements about the manager *)

(** The pieces of a key, as [getValue] and [setValue] take it apart. *)
Definition keyPath (key : string) : string * list string :=
  if containsChar "."%char key then popBack (splitChar "."%char key)
  else (key, []).

(** What the claim says of one call of [getValue] that ends in the state
    [(r, this', w')]. *)
Definition getValuePost (key : string) (defaultValue : Value) (this : T)
    (w : World) (res : Value * T * World) : Prop :=
  let r := fst (fst res) in
  let this' := snd (fst res) in
  let w' := snd res in
  (storedValue key this = VVoid -> defaultValue <> VVoid ->
     r = defaultValue
     /\ toJSON (storedValue key this') = toJSON defaultValue
     /\ (forall (later : Value) (w2 : World),
           toJSON (fst (fst (getValue key later this' w2)))
           = toJSON defaultValue
           /\ snd (fst (getValue key later this' w2)) = this'))
  /\ (storedValue key this = VVoid -> defaultValue = VVoid ->
      r = VVoid /\ this' = this /\ w' = w)
  /\ toJSON r = toJSON (storedValue key this')
  /\ (forall i, (i ∈ ids r) ->
        (i ∉ ids (data this'))
        /\ (forall f, mutateObject i f (data this') = data this'))
  /\ storeBelow this' w'.

(** The two list loops of [parseJSON], by name. *)
Fixpoint parseElems (l : list JSON) (n : nat) : list Value * nat :=
  match l with
  | [] => ([], n)
  | x :: rest =>
      let '(v, n1) := parseJSON x n in
      let '(vs, n2) := parseElems rest n1 in
      (v :: vs, n2)
  end.

Fixpoint parseMembers (l : list (string * JSON)) (n : nat)
  : list (string * Value) * nat :=
  match l with
  | [] => ([], n)
  | (k, x) :: rest =>
      let '(v, n1) := parseJSON x n in
      let '(es, n2) := parseMembers rest n1 in
      ((k, v) :: es, n2)
  end.

(** Induction over values and documents, through their lists. *)
Section ValueInduction.
Variable P : Value -> Prop.
Hypothesis Hvoid : P VVoid.
Hypothesis Hbool : forall b, P (VBool b).
Hypothesis Hnumber : forall n, P (VNumber n).
Hypothesis Hstring : forall s, P (VString s).
Hypothesis Harray : forall id elems, Forall P elems -> P (VArray id elems).
Hypothesis Hmap : forall id entries,
  Forall (fun kv => P (snd kv)) entries -> P (VMap id entries).

Fixpoint Value_nested_ind (v : Value) : P v :=
  match v with
  | VVoid => Hvoid
  | VBool b => Hbool b
  | VNumber n => Hnumber n
  | VString s => Hstring s
  | VArray id elems =>
      Harray id elems
        ((fix go (l : list Value) : Forall P l :=
            match l with
            | [] => Forall_nil_2 _
            | x :: rest => Forall_cons_2 _ _ _ (Value_nested_ind x) (go rest)
            end) elems)
  | VMap id entries =>
      Hmap id entries
        ((fix go (l : list (string * Value))
            : Forall (fun kv => P (snd kv)) l :=
            match l with
            | [] => Forall_nil_2 _
            | kv :: rest =>
                Forall_cons_2 _ _ _ (Value_nested_ind (snd kv)) (go rest)
            end) entries)
  end.
End ValueInduction.

Section JSONInduction.
Variable P : JSON -> Prop.
Hypothesis Hnull : P JNull.
Hypothesis Hbool : forall b, P (JBool b).
Hypothesis Hnumber : forall n, P (JNumber n).
Hypothesis Hstring : forall s, P (JString s).
Hypothesis Harray : forall elems, Forall P elems -> P (JArray elems).
Hypothesis Hobject : forall members,
  Forall (fun kv => P (snd kv)) members -> P (JObject members).

Fixpoint JSON_nested_ind (j : JSON) : P j :=
  match j with
  | JNull => Hnull
  | JBool b => Hbool b
  | JNumber n => Hnumber n
  | JString s => Hstring s
  | JArray elems =>
      Harray elems
        ((fix go (l : list JSON) : Forall P l :=
            match l with
            | [] => Forall_nil_2 _
            | x :: rest => Forall_cons_2 _ _ _ (JSON_nested_ind x) (go rest)
            end) elems)
  | JObject members =>
      Hobject members
        ((fix go (l : list (string * JSON))
            : Forall (fun kv => P (snd kv)) l :=
            match l with
            | [] => Forall_nil_2 _
            | kv :: rest =>
                Forall_cons_2 _ _ _ (JSON_nested_ind (snd kv)) (go rest)
            end) members)
  end.
End JSONInduction.

(** *** The remaining methods *)

(** [T.getFilename ::= fn()] *)
Definition getFilename (this : T) : string := filename this.

(** [IO.loadTextFile(filename)] followed by [parseJSON]: the document
    last saved under the name.  A name under which nothing was saved
    raises an exception ([None]).  Files hold JSON documents only. *)
Definition loadTextFile (filename : string) (w : World) : option JSON :=
  alist_get filename (files w).

(** [T.init ::= fn(filename, warnOnFailure = true)].  The result is the
    returned [Bool], the manager and the world after the call, and the
    warning issued, up to the text of the exception. *)
Definition init (filename : string) (warnOnFailure : bool) (this : T)
    (w : World) : bool * T * World * option string :=
  let this := mkT (data this) filename (autoSave this) in
  match loadTextFile filename w with
  | Some s =>
      let '(c, next') := parseJSON s (nextId w) in
      let w := mkWorld next' (files w) in
      if isMap c then (true, mkT c filename (autoSave this), w, None)
      else
        let '(m, w) := newMap w in
        (true, mkT m filename (autoSave this), w, None)
  | None =>
      (false, this, w,
       if warnOnFailure
       then Some ("Could not load config-file(" +:+ filename +:+ "): ")%string
       else None)
  end.

(** [T.setInfo ::= fn(key, value)] *)
Definition setInfo (key : string) (value : Value) (this : T) (w : World)
  : T * World :=
  setValue (key +:+ " (INFO)") value this w.

(** *** Notions for the statements about single operations *)

(** The value reached from [group] along the pieces of [path]; [void]
    where the path leaves the maps. *)
Fixpoint valueAt (group : Value) (path : list string) : Value :=
  match path with
  | [] => group
  | k :: rest => valueAt (mapGet group k) rest
  end.

(** The pieces of a key, groups first. *)
Definition fullPath (key : string) : list string :=
  snd (keyPath key) ++ [fst (keyPath key)].

(** Every map of the value has distinct keys. *)
Fixpoint keysDistinct (v : Value) : bool :=
  match v with
  | VArray _ elems => forallb keysDistinct elems
  | VMap _ entries =>
      bool_decide (NoDup (fst <$> entries))
      && forallb (fun kv => keysDistinct (snd kv)) entries
  | _ => true
  end.

End ConfigManager.

(** ** [unnamed/part_002]: the library [ObjectSerialization] *)

Module ObjectSerialization.
Export AList.

(** Values: [void], the immutable kinds, and references to objects on
    the heap. *)
Inductive Value :=
| VVoid
| VBool (b : bool)
| VNumber (n : Z)
| VString (s : string)
| VRef (a : nat).

(** Objects with an identity: arrays, maps and plain [ExtObject]s with
    their own attributes.  Entries and attributes are kept in iteration
    order, with distinct keys. *)
Inductive Object :=
| OArray (elems : list Value)
| OMap (entries : list (string * Value))
| OExt (attrs : list (string * Value)).

(** A description: the JSON-expressable structure that [serialize] prints
    and [createFromString] parses. *)
Inductive Description :=
| DVoid
| DBool (b : bool)
| DNumber (n : Z)
| DString (s : string)
| DArray (elems : list Description)
| DMap (entries : list (string * Description)).

(** The state outside a context: the heap, the static
    [Context.globalObjCounter], and the warnings issued so far. *)
Record World := mkWorld {
  heap : list Object;
  globalObjCounter : Z;
  warnings : list string
}.

(** [ObjectSerialization.Context]: the two private registries, the
    context's [id] and its [counter]. *)
Record Context := mkContext {
  objRegistry_NrToObjId : gmap Z string;
  objRegistry_ObjIdToObj : gmap string nat;
  id : string;
  counter : nat
}.

(** [new ObjectSerialization.Context(defaultRegistry)], the [id] being
    drawn from the clock. *)
Definition newContext (id : string) : Context := mkContext ∅ ∅ id 0.

(** A [GenericTypeHandler] of the default registry. *)
Record GenericTypeHandler := mkHandler {
  typeName : string;
  trackIdentity : bool
}.

(** [defaultRegistry.registerType(ExtObject,"ExtObject").enableIdentityTracking()] *)
Definition extObjectHandler : GenericTypeHandler := mkHandler "ExtObject" true.

Definition objNrAttr : string := "__ObjectSerialization_objNr".

(** [s.beginsWith(p)] and [s.endsWith(p)] *)
Definition beginsWith (s p : string) : bool := String.prefix p s.
Definition endsWith (s p : string) : bool :=
  String.prefix (String.rev p) (String.rev s).

(** [(n).format(0,false)]: the decimal digits of [n]. *)
Definition formatNumber (n : nat) : string :=
  NilEmpty.string_of_uint (Nat.to_uint n).

Definition warn (msg : string) (w : World) : World :=
  mkWorld (heap w) (globalObjCounter w) (msg :: warnings w).

(** [new T]: the object is placed at the end of the heap. *)
Definition alloc (o : Object) (w : World) : nat * World :=
  (length (heap w),
   mkWorld (heap w ++ [o]) (globalObjCounter w) (warnings w)).

Definition setObject (a : nat) (o : Object) (w : World) : World :=
  mkWorld (<[a := o]> (heap w)) (globalObjCounter w) (warnings w).

(** [obj.setAttribute(key, value, EScript.ATTR_NORMAL_ATTRIBUTE)] on an
    [ExtObject]. *)
Definition setAttribute (a : nat) (key : string) (v : Value) (w : World)
  : option World :=
  match heap w !! a with
  | Some (OExt attrs) => Some (setObject a (OExt (alist_set key v attrs)) w)
  | _ => None
  end.

(** [arr += v] *)
Definition pushBack (a : nat) (v : Value) (w : World) : option World :=
  match heap w !! a with
  | Some (OArray elems) => Some (setObject a (OArray (elems ++ [v])) w)
  | _ => None
  end.

(** [m[key] = v] *)
Definition setEntry (a : nat) (key : string) (v : Value) (w : World)
  : option World :=
  match heap w !! a with
  | Some (OMap entries) => Some (setObject a (OMap (alist_set key v entries)) w)
  | _ => None
  end.

(** The number under which an object is known to all contexts, if it has
    one; [None] inside is an attribute that is not a number. *)
Definition objNr (attrs : list (string * Value)) : option (option Z) :=
  match alist_get objNrAttr attrs with
  | None => Some None
  | Some (VNumber n) => Some (Some n)
  | Some _ => None
  end.

(** [T.findObjectId ::= fn(obj)]: the id, or [None] for [false] and for
    [void]. *)
Definition findObjectId (attrs : list (string * Value)) (c : Context)
  : option (option string) :=
  nr ← objNr attrs;
  match nr with
  | None => Some None
  | Some n => Some (objRegistry_NrToObjId c !! n)
  end.

(** [T.findObject ::= fn(String objId)] *)
Definition findObject (objId : string) (c : Context) : option nat :=
  objRegistry_ObjIdToObj c !! objId.

(** [T.registerObject ::= fn(obj,_id = false)] *)
Definition registerObject (a : nat) (_id : option string) (w : World)
    (c : Context) : option (string * World * Context) :=
  match heap w !! a with
  | Some (OExt attrs) =>
      let '(attrs, global) :=
        match alist_get objNrAttr attrs with
        | None =>
            (alist_set objNrAttr (VNumber (globalObjCounter w + 1)) attrs,
             globalObjCounter w + 1)
        | Some _ => (attrs, globalObjCounter w)
        end in
      nr ← objNr attrs;
      nr ← nr;
      let '(objId, counter') :=
        match _id with
        | Some i => (i, counter c)
        | None =>
            (id c +:+ "." +:+ formatNumber (S (counter c)), S (counter c))
        end in
      Some (objId,
            mkWorld (<[a := OExt attrs]> (heap w)) global (warnings w),
            mkContext (<[nr := objId]> (objRegistry_NrToObjId c))
                      (<[objId := a]> (objRegistry_ObjIdToObj c))
                      (id c) counter')
  | _ => None
  end.

(** [T.registerObjectIfNecessary ::= fn(obj,Map description)], with the
    entry [description['##ID##']] already looked up. *)
Definition registerObjectIfNecessary (a : nat) (objId : option string)
    (w : World) (c : Context) : option (World * Context) :=
  match objId with
  | Some i =>
      match findObject i c with
      | None => '(_, w', c') ← registerObject a (Some i) w c; Some (w', c')
      | Some _ => Some (w, c)
      end
  | None => Some (w, c)
  end.

(** *** Serialization *)

Section Describe.
(** [ctxt.createDescription], as the handlers call it back. *)
Variable createDescription :
  Value -> World -> Context -> option (Description * World * Context).

(** The describer of [Array]:
    [foreach(obj as var value) description += ctxt.createDescription(value);] *)
Fixpoint describeElems (elems : list Value) (description : list Description)
    (w : World) (c : Context)
  : option (list Description * World * Context) :=
  match elems with
  | [] => Some (description, w, c)
  | value :: rest =>
      '(d, w, c) ← createDescription value w c;
      describeElems rest (description ++ [d]) w c
  end.

(** The describer of [Map]:
    [foreach(obj as var key,var value) description[key] = ctxt.createDescription(value);] *)
Fixpoint describeEntries (entries : list (string * Value))
    (description : list (string * Description)) (w : World) (c : Context)
  : option (list (string * Description) * World * Context) :=
  match entries with
  | [] => Some (description, w, c)
  | (key, value) :: rest =>
      '(d, w, c) ← createDescription value w c;
      describeEntries rest (alist_set key d description) w c
  end.

(** [T.getAttributeDescription ::= fn(obj)], on the attributes that
    [obj._getAttributes()] has returned. *)
Fixpoint getAttributeDescription (attrs : list (string * Value))
    (m : list (string * Description)) (w : World) (c : Context)
  : option (list (string * Description) * World * Context) :=
  match attrs with
  | [] => Some (m, w, c)
  | (key, value) :: rest =>
      if negb (beginsWith key "__") then
        '(d, w, c) ← createDescription value w c;
        getAttributeDescription rest (alist_set key d m) w c
      else getAttributeDescription rest m w c
  end.

(** [GenericTypeHandler.createDescription ::= fn(ctxt,obj)] for an
    [ExtObject], followed by the describer registered for [ExtObject]. *)
Definition handlerCreateDescription (handler : GenericTypeHandler)
    (a : nat) (w : World) (c : Context)
  : option (Description * World * Context) :=
  match heap w !! a with
  | Some (OExt attrs) =>
      found ← findObjectId attrs c;
      match found with
      | Some objId => Some (DMap [("##REF##"%string, DString objId)], w, c)
      | None =>
          '(description, w, c) ←
            (if trackIdentity handler then
               '(objId, w, c) ← registerObject a None w c;
               Some ([("##ID##"%string, DString objId)], w, c)
             else Some ([], w, c));
          let description :=
            alist_set "##TYPE##" (DString (typeName handler)) description in
          match heap w !! a with
          | Some (OExt attrs) =>
              '(attr, w, c) ← getAttributeDescription attrs [] w c;
              let description :=
                match attr with
                | [] => description
                | _ => alist_set "attr" (DMap attr) description
                end in
              Some (DMap description, w, c)
          | _ => None
          end
      end
  | _ => None
  end.
End Describe.

(** [T.createDescription ::= fn(obj)] with the handlers of the default
    registry; [fuel] bounds the depth of the calls. *)
Fixpoint createDescription (fuel : nat) (obj : Value) (w : World)
    (c : Context) : option (Description * World * Context) :=
  match fuel with
  | O => None
  | S fuel' =>
      match obj with
      | VVoid => Some (DVoid, w, c)
      | VBool b => Some (DBool b, w, c)
      | VNumber n => Some (DNumber n, w, c)
      | VString s => Some (DString s, w, c)
      | VRef a =>
          match heap w !! a with
          | Some (OArray elems) =>
              '(ds, w, c) ← describeElems (createDescription fuel') elems [] w c;
              Some (DArray ds, w, c)
          | Some (OMap entries) =>
              '(ds, w, c) ←
                describeEntries (createDescription fuel') entries [] w c;
              Some (DMap ds, w, c)
          | Some (OExt _) =>
              handlerCreateDescription (createDescription fuel')
                extObjectHandler a w c
          | None => None
          end
      end
  end.

(** [T.serialize ::= fn(obj)]: the printed description. *)
Definition serialize (fuel : nat) (obj : Value) (w : World) (c : Context)
  : option (Description * World * Context) :=
  createDescription fuel obj w c.

(** *** Reconstruction *)

(** Truth of a description in a condition: [void] and [false] are not. *)
Definition truthy (d : Description) : bool :=
  match d with
  | DVoid => false
  | DBool b => b
  | _ => true
  end.

(** [description[key]], [void] when the key is absent. *)
Definition entry (key : string) (description : list (string * Description))
  : Description :=
  default DVoid (alist_get key description).

Section Create.
(** [ctxt.createObject], as the handlers call it back. *)
Variable createObject :
  Description -> World -> Context -> option (Value * World * Context).

(** [foreach(description as var subDescription) arr+=this.createObject(subDescription);] *)
Fixpoint createElems (arr : nat) (description : list Description)
    (w : World) (c : Context) : option (World * Context) :=
  match description with
  | [] => Some (w, c)
  | subDescription :: rest =>
      '(v, w, c) ← createObject subDescription w c;
      w ← pushBack arr v w;
      createElems arr rest w c
  end.

(** [foreach(description as var key,var subDescription) m[key] = this.createObject(subDescription);] *)
Fixpoint createEntries (m : nat) (description : list (string * Description))
    (w : World) (c : Context) : option (World * Context) :=
  match description with
  | [] => Some (w, c)
  | (key, subDescription) :: rest =>
      '(v, w, c) ← createObject subDescription w c;
      w ← setEntry m key v w;
      createEntries m rest w c
  end.

(** [T.applyAttributesFromDescription ::= fn(obj,Map d)] *)
Fixpoint applyAttributesFromDescription (obj : nat)
    (d : list (string * Description)) (w : World) (c : Context)
  : option (World * Context) :=
  match d with
  | [] => Some (w, c)
  | (key, subDescription) :: rest =>
      if beginsWith key "__"
         || (beginsWith key "##" && endsWith key "##")
      then applyAttributesFromDescription obj rest w c
      else
        '(v, w, c) ← createObject subDescription w c;
        w ← setAttribute obj key v w;
        applyAttributesFromDescription obj rest w c
  end.

(** [GenericTypeHandler.createObject ::= fn(ctxt,Map description)] for
    [ExtObject]: the default factory, then the initializer registered for
    [ExtObject].  [None] is a failed parameter check. *)
Definition handlerCreateObject (description : list (string * Description))
    (w : World) (c : Context) : option (nat * World * Context) :=
  let '(obj, w) := alloc (OExt []) w in
  objId ← (let objId := entry "##ID##" description in
           if truthy objId then
             match objId with DString i => Some (Some i) | _ => None end
           else Some None);
  '(w, c) ← registerObjectIfNecessary obj objId w c;
  let attr := entry "attr" description in
  '(w, c) ← (if truthy attr then
               match attr with
               | DMap d => applyAttributesFromDescription obj d w c
               | _ => None
               end
             else Some (w, c));
  Some (obj, w, c).
End Create.

(** [typeRegistry.getTypeHandler(typeName)] on the default registry, as
    far as its handlers can create objects: [Some None] is no handler,
    [None] a handler whose [createObject] is not implemented or whose
    type lies outside the objects at hand. *)
Definition getTypeHandler (name : string)
  : option (option GenericTypeHandler) :=
  if String.eqb name "ExtObject" then Some (Some extObjectHandler)
  else if String.eqb name "String" || String.eqb name "Number"
          || String.eqb name "Bool" || String.eqb name "Array"
          || String.eqb name "Map" || String.eqb name "Identifier"
          || String.eqb name "Delegate" || String.eqb name "UserFunction"
  then None
  else Some None.

(** [T.createObject ::= fn(description)]; [fuel] bounds the depth of the
    calls, [None] is an exhausted bound or a failed parameter check. *)
Fixpoint createObject (fuel : nat) (description : Description) (w : World)
    (c : Context) : option (Value * World * Context) :=
  match fuel with
  | O => None
  | S fuel' =>
      match description with
      | DVoid => Some (VVoid, w, c)
      | DString s => Some (VString s, w, c)
      | DNumber n => Some (VNumber n, w, c)
      | DBool b => Some (VBool b, w, c)
      | DArray subs =>
          let '(arr, w) := alloc (OArray []) w in
          '(w, c) ← createElems (createObject fuel') arr subs w c;
          Some (VRef arr, w, c)
      | DMap entries =>
          let refId := entry "##REF##" entries in
          if truthy refId then
            match refId with
            | DString r =>
                match findObject r c with
                | Some obj => Some (VRef obj, w, c)
                | None =>
                    Some (VVoid,
                          warn ("Unknown reference '" +:+ r +:+ "'.") w, c)
                end
            | _ => None
            end
          else
            let objId := entry "##ID##" entries in
            objId ← (if truthy objId then
                       match objId with
                       | DString i => Some (Some i)
                       | _ => None
                       end
                     else Some None);
            match objId ≫= (fun i => findObject i c) with
            | Some obj => Some (VRef obj, w, c)
            | None =>
                let typeName := entry "##TYPE##" entries in
                if negb (truthy typeName) then
                  let '(m, w) := alloc (OMap []) w in
                  '(w, c) ← createEntries (createObject fuel') m entries w c;
                  Some (VRef m, w, c)
                else
                  match typeName with
                  | DString name =>
                      handler ← getTypeHandler name;
                      match handler with
                      | None =>
                          Some (VVoid,
                                warn ("No factory for type '" +:+ name +:+ "'")
                                     w, c)
                      | Some _ =>
                          '(obj, w, c) ←
                            handlerCreateObject (createObject fuel')
                              entries w c;
                          '(w, c) ←
                            match objId with
                            | Some i =>
                                '(_, w, c) ← registerObject obj (Some i) w c;
                                Some (w, c)
                            | None => Some (w, c)
                            end;
                          Some (VRef obj, w, c)
                      end
                  | _ => None
                  end
            end
      end
  end.

(** [T.createFromString ::= fn(String s)], on the parsed text. *)
Definition createFromString (fuel : nat) (s : Description) (w : World)
    (c : Context) : option (Value * World * Context) :=
  createObject fuel s w c.

(** *** Notions for the statements about serialization *)

Local Open Scope nat_scope.

Definition isExt (h : list Object) (a : nat) : Prop :=
  exists attrs, h !! a = Some (OExt attrs).

(** The two shapes under which an [ExtObject] appears in a description. *)
Definition refNode (i : string) : Description :=
  DMap [("##REF##"%string, DString i)].

Definition idNode (i : string) (attr : list (string * Description))
  : Description :=
  DMap (match attr with
        | [] => [("##ID##"%string, DString i);
                 ("##TYPE##"%string, DString "ExtObject")]
        | _ => [("##ID##"%string, DString i);
                ("##TYPE##"%string, DString "ExtObject");
                ("attr"%string, DMap attr)]
        end).

Definition denotes (d : Description) (i : string) : Prop :=
  d = refNode i \/ exists attr, d = idNode i attr.

(** The ids a context hands out. *)
Definition mkId (cid : string) (k : nat) : string :=
  cid +:+ "." +:+ formatNumber k.

Definition issued (c : Context) : gset string :=
  list_to_set (mkId (id c) <$> seq 1 (counter c)).

(** Keys that [applyAttributesFromDescription] passes over. *)
Definition skipped (key : string) : bool :=
  beginsWith key "__" || (beginsWith key "##" && endsWith key "##").

(** Keys of a description that [createObject] gives a meaning to. *)
Definition reserved (key : string) : bool :=
  String.eqb key "##REF##" || String.eqb key "##ID##"
  || String.eqb key "##TYPE##".

(** Arrays and maps nest at most [d] deep below [v]; an [ExtObject] ends
    the nesting. *)
Fixpoint depthOk (d : nat) (h : list Object) (v : Value) : bool :=
  match d with
  | O =>
      match v with
      | VRef a => match h !! a with Some (OExt _) => true | _ => false end
      | _ => true
      end
  | S d' =>
      match v with
      | VRef a =>
          match h !! a with
          | None => false
          | Some (OExt _) => true
          | Some (OArray elems) => forallb (depthOk d' h) elems
          | Some (OMap entries) =>
              forallb (fun kv => depthOk d' h (snd kv)) entries
          end
      | _ => true
      end
  end.

Definition keysDistinct {V : Type} (l : list (string * V)) : bool :=
  bool_decide (NoDup (fst <$> l)).

(** What an object must satisfy to be serialized and reconstructed:
    distinct keys; for an [ExtObject] a numeric [objNr] not above the
    global counter and no serialized attribute name that reconstruction
    passes over; for a map no key with a meaning in descriptions; values
    nested at most [D] deep. *)
Definition objectOk (D : nat) (w : World) (o : Object) : bool :=
  match o with
  | OArray elems => true
  | OMap entries =>
      keysDistinct entries
      && forallb (fun kv => negb (reserved (fst kv))) entries
  | OExt attrs =>
      keysDistinct attrs
      && match alist_get objNrAttr attrs with
         | None => true
         | Some (VNumber n) => (n <=? globalObjCounter w)%Z
         | Some _ => false
         end
      && forallb (fun kv => beginsWith (fst kv) "__"
                            || negb (skipped (fst kv))) attrs
      && forallb (fun kv => depthOk D (heap w) (snd kv)) attrs
  end.

Definition graphOk (D : nat) (w : World) : bool :=
  forallb (objectOk D w) (heap w).

(** The id under which the object at [a] is registered in [c]. *)
Definition regId (w : World) (c : Context) (a : nat) : option string :=
  match heap w !! a with
  | Some (OExt attrs) =>
      match objNr attrs with
      | Some (Some n) => objRegistry_NrToObjId c !! n
      | _ => None
      end
  | _ => None
  end.

Definition unregisteredB (w : World) (c : Context) (a : nat) : bool :=
  match heap w !! a with
  | Some (OExt _) =>
      match regId w c a with Some _ => false | None => true end
  | _ => false
  end.

Definition unregistered (w : World) (c : Context) : nat :=
  length (filter (fun a => unregisteredB w c a = true)
            (seq 0 (length (heap w)))).

(** Reading descriptions in order: [K] are the ids met before, [K'] the
    ids met after. *)
Fixpoint ScanList (R : gset string -> Description -> gset string -> Prop)
    (K : gset string) (ds : list Description) (K' : gset string) : Prop :=
  match ds with
  | [] => K' = K
  | d :: rest => exists K1, R K d K1 /\ ScanList R K1 rest K'
  end.

Fixpoint ScanEntries (R : gset string -> Description -> gset string -> Prop)
    (K : gset string) (es : list (string * Description)) (K' : gset string)
  : Prop :=
  match es with
  | [] => K' = K
  | kd :: rest => exists K1, R K (snd kd) K1 /\ ScanEntries R K1 rest K'
  end.

Fixpoint Scan (n : nat) (K : gset string) (d : Description)
    (K' : gset string) : Prop :=
  match n with
  | O => False
  | S n' =>
      match d with
      | DVoid | DBool _ | DNumber _ | DString _ => K' = K
      | DArray ds => ScanList (Scan n') K ds K'
      | DMap es =>
          (exists i, d = refNode i /\ (i ∈ K) /\ K' = K)
          \/ (exists i attr,
                d = idNode i attr /\ (i ∉ K)
                /\ Forall (fun kd => skipped (fst kd) = false) attr
                /\ NoDup (fst <$> attr)
                /\ ScanEntries (Scan n') ({[i]} ∪ K) attr K')
          \/ (Forall (fun kd => reserved (fst kd) = false) es
              /\ ScanEntries (Scan n') K es K')
      end
  end.

(** Serialization in a new context named [cid], then reconstruction from
    the text in a new context named [cid2] of the world [w2]. *)
Definition roundTrip (fuel : nat) (obj : Value) (w : World) (cid : string)
    (w2 : World) (cid2 : string) : option (Value * World * Context) :=
  '(s, _, _) ← serialize fuel obj w (newContext cid);
  createFromString fuel s w2 (newContext cid2).

(** The attribute [a] of the [ExtObject] that a result refers to. *)
Definition attributeOf (res : Value * World * Context) (a : string)
  : option Value :=
  match fst (fst res) with
  | VRef o =>
      match heap (snd (fst res)) !! o with
      | Some (OExt attrs) => alist_get a attrs
      | _ => None
      end
  | _ => None
  end.

(** An [ExtObject] whose attributes [data1] and [data2] hold one other
    [ExtObject]. *)
Definition sharedExtObjectExample : World :=
  mkWorld [OExt [("data1"%string, VRef 1%nat); ("data2"%string, VRef 1%nat)];
           OExt [("data"%string, VNumber 1)]] 0 [].

(** An [ExtObject] whose attributes [a] and [b] hold one [Array]. *)
Definition sharedArrayExample : World :=
  mkWorld [OExt [("a"%string, VRef 1%nat); ("b"%string, VRef 1%nat)];
           OArray [VNumber 1]] 0 [].

Definition emptyWorld : World := mkWorld [] 0 [].

(** The objects registered in a context are [ExtObject]s of the heap. *)
Definition dstOk (w : World) (c : Context) : Prop :=
  forall i a, objRegistry_ObjIdToObj c !! i = Some a -> isExt (heap w) a.

(** The world has grown; the objects that were there are as they were. *)
Definition extends (w w' : World) : Prop :=
  length (heap w) <= length (heap w')
  /\ forall a, a < length (heap w) -> heap w' !! a = heap w !! a.

(** As [extends], but for the object at [obj], which is being filled. *)
Definition extendsExcept (obj : nat) (w w' : World) : Prop :=
  length (heap w) <= length (heap w')
  /\ forall a, a < length (heap w) -> a <> obj -> heap w' !! a = heap w !! a.

(** What a call of [createObject] on [d] achieves, [K'] being the ids
    met when [d] has been read. *)
Definition createPost (K' : gset string) (d : Description) (w : World)
    (c : Context) (res : Value * World * Context) : Prop :=
  dom (objRegistry_ObjIdToObj (snd res)) = K'
  /\ objRegistry_ObjIdToObj c ⊆ objRegistry_ObjIdToObj (snd res)
  /\ dstOk (snd (fst res)) (snd res)
  /\ extends w (snd (fst res))
  /\ forall i, denotes d i ->
       exists a, fst (fst res) = VRef a
                 /\ objRegistry_ObjIdToObj (snd res) !! i = Some a.

Definition createSpec (n : nat) : Prop :=
  forall d K K' w c,
    Scan n K d K' -> dom (objRegistry_ObjIdToObj c) = K -> dstOk w c ->
    exists res, createObject n d w c = Some res /\ createPost K' d w c res.

Definition heapOk (D : nat) (w : World) : Prop :=
  forall a o, heap w !! a = Some o -> objectOk D w o = true.

Definition objNrBelow (g : Z) (attrs : list (string * Value)) : Prop :=
  match alist_get objNrAttr attrs with
  | None => True
  | Some (VNumber n) => (n <= g)%Z
  | Some _ => False
  end.

(** The heap keeps its shape: what was an [ExtObject] is one, arrays and
    maps are as they were. *)
Definition sameShape (h h' : list Object) : Prop :=
  length h' = length h
  /\ forall a o, h !! a = Some o ->
       match o with
       | OExt _ => isExt h' a
       | _ => h' !! a = Some o
       end.

Definition evolves (w : World) (c : Context) (w' : World) (c' : Context)
  : Prop :=
  sameShape (heap w) (heap w')
  /\ (globalObjCounter w <= globalObjCounter w')%Z
  /\ id c' = id c
  /\ counter c <= counter c'
  /\ forall a i, regId w c a = Some i -> regId w' c' a = Some i.

(** What serialization relies on: a well-formed heap, and a registry
    whose numbers are not above the global counter and whose ids are ids
    of this context. *)
Definition srcOk (D : nat) (w : World) (c : Context) : Prop :=
  heapOk D w
  /\ forall nr i, objRegistry_NrToObjId c !! nr = Some i ->
       (nr <= globalObjCounter w)%Z /\ i ∈ issued c.

(** What a call of [createDescription] on [v] achieves. *)
Definition describePost (D n : nat) (v : Value) (w : World) (c : Context)
    (res : Description * World * Context) : Prop :=
  srcOk D (snd (fst res)) (snd res)
  /\ evolves w c (snd (fst res)) (snd res)
  /\ Scan n (issued c) (fst (fst res)) (issued (snd res))
  /\ forall a, v = VRef a -> isExt (heap w) a ->
       exists i, regId (snd (fst res)) (snd res) a = Some i
                 /\ denotes (fst (fst res)) i.

(** The call returns when the bound exceeds what the unregistered
    objects and the nesting of containers below [v] require. *)
Definition describeSpec (D n : nat) : Prop :=
  forall v w c dv,
    srcOk D w c -> depthOk dv (heap w) v = true -> dv <= D ->
    unregistered w c * S D + dv < n ->
    exists res, createDescription n v w c = Some res
                /\ describePost D n v w c res.

(** *** Notions for the statements about single operations *)

(** The world after serialization differs from the world before by
    object numbers only: every array and map is as it was, every
    [ExtObject] has its attributes other than the object number, the
    warnings are the same. *)
Definition sameButObjNr (w w' : World) : Prop :=
  length (heap w') = length (heap w)
  /\ warnings w' = warnings w
  /\ forall a o, heap w !! a = Some o ->
       match o with
       | OExt attrs =>
           exists attrs', heap w' !! a = Some (OExt attrs')
                          /\ forall k, k <> objNrAttr ->
                               alist_get k attrs' = alist_get k attrs
       | _ => heap w' !! a = Some o
       end.

Section Tree.
Variable treeOf : Value -> option Description.

Fixpoint treeOfElems (elems : list Value) : option (list Description) :=
  match elems with
  | [] => Some []
  | v :: rest =>
      d ← treeOf v; ds ← treeOfElems rest; Some (d :: ds)
  end.

Fixpoint treeOfEntries (entries : list (string * Value))
  : option (list (string * Description)) :=
  match entries with
  | [] => Some []
  | (k, v) :: rest =>
      d ← treeOf v; ds ← treeOfEntries rest; Some ((k, d) :: ds)
  end.
End Tree.

(** A value read as a tree: what it consists of when its arrays and maps
    are followed, at most [fuel] deep, through objects at the addresses
    from [base] on.  A value that holds an [ExtObject], an object below
    [base], or that is nested deeper has no tree. *)
Fixpoint treeOf (base fuel : nat) (h : list Object) (v : Value)
  : option Description :=
  match fuel with
  | O => None
  | S fuel' =>
      match v with
      | VVoid => Some DVoid
      | VBool b => Some (DBool b)
      | VNumber n => Some (DNumber n)
      | VString s => Some (DString s)
      | VRef a =>
          if (a <? base)%nat then None
          else
            match h !! a with
            | Some (OArray elems) =>
                DArray <$> treeOfElems (treeOf base fuel' h) elems
            | Some (OMap entries) =>
                DMap <$> treeOfEntries (treeOf base fuel' h) entries
            | _ => None
            end
      end
  end.

(** A description of plain data, at most [fuel] deep: its maps have
    distinct keys, none of them with a meaning of its own. *)
Fixpoint plainWithin (fuel : nat) (d : Description) : bool :=
  match fuel with
  | O => false
  | S fuel' =>
      match d with
      | DArray ds => forallb (plainWithin fuel') ds
      | DMap es =>
          keysDistinct es
          && forallb (fun kd => negb (reserved (fst kd))) es
          && forallb (fun kd => plainWithin fuel' (snd kd)) es
      | _ => true
      end
  end.

(** The array or map at [a] holds a reference to itself. *)
Definition holdsItself (h : list Object) (a : nat) : Prop :=
  match h !! a with
  | Some (OArray elems) => VRef a ∈ elems
  | Some (OMap entries) => VRef a ∈ snd <$> entries
  | _ => False
  end.

(** A description at most [fuel] deep whose maps have distinct keys. *)
Fixpoint distinctWithin (fuel : nat) (d : Description) : bool :=
  match fuel with
  | O => false
  | S fuel' =>
      match d with
      | DArray ds => forallb (distinctWithin fuel') ds
      | DMap es =>
          keysDistinct es
          && forallb (fun kd => distinctWithin fuel' (snd kd)) es
      | _ => true
      end
  end.

(** What reconstruction from a plain description achieves: a value made
    of new objects whose tree is the description; the objects that were
    there, the context, the warnings and the global counter are as
    before. *)
Definition plainPost (n : nat) (t : Description) (w : World) (c : Context)
    (res : Value * World * Context) : Prop :=
  snd res = c
  /\ extends w (snd (fst res))
  /\ warnings (snd (fst res)) = warnings w
  /\ globalObjCounter (snd (fst res)) = globalObjCounter w
  /\ treeOf (length (heap w)) n (heap (snd (fst res))) (fst (fst res))
     = Some t.

Definition plainSpec (n : nat) : Prop :=
  forall t w c, plainWithin n t = true ->
    exists res, createObject n t w c = Some res /\ plainPost n t w c res.

End ObjectSerialization.

(** ** [unnamed/part_002]: [MultiProcedure.escript] *)

Module MultiProcedure.

Section Procedure.
(** [St] is the state the registered functions act on, [P] the
    parameters of a call. *)
Context {St P : Type}.

(** A registered function: called with the parameters it changes the
    state and returns; the [bool] tells whether it returned [REMOVE].
    The functions do not change the procedure they are registered in. *)
Definition Callable : Type := P -> St -> bool * St.

(** An instance of the type [T]: the private member [functions]. *)
Record T := mkT {
  functions : list Callable
}.

(** The loop of [_call]: [for(var i = 0; i<functions.count();)], which
    removes the function at [i] or moves on to [i+1]; [fuel] bounds the
    number of rounds. *)
Fixpoint _call_loop (fuel : nat) (params : P) (functions : list Callable)
    (i : nat) (s : St) : option (list Callable * St) :=
  if (i <? length functions)%nat then
    match fuel with
    | O => None
    | S fuel' =>
        match functions !! i with
        | Some f =>
            let '(removed, s) := (f : Callable) params s in
            if removed
            then _call_loop fuel' params (delete i functions) i s
            else _call_loop fuel' params functions (S i) s
        | None => None
        end
    end
  else Some (functions, s).

(** [T._call ::= fn(obj,params...)] *)
Definition _call (params : P) (this : T) (s : St) : option (T * St) :=
  '(fs, s) ← _call_loop (length (functions this)) params (functions this)
               0%nat s;
  Some (mkT fs, s).

(** [T."+=" ::= fn(f){ this.functions += f; }] *)
Definition add (f : Callable) (this : T) : T := mkT (functions this ++ [f]).

Definition accessFunctions (this : T) : list Callable := functions this.

Definition clear (this : T) : T := mkT [].

(** [T.clone]: a new instance with a copy of the array. *)
Definition clone (this : T) : T := mkT (functions this).

Definition count (this : T) : nat := length (functions this).

Definition empty (this : T) : bool :=
  match functions this with [] => true | _ => false end.

(** [T.filter ::= fn(fun){ functions.filter(fun); return this; }]: the
    functions for which [fun] answers [true] stay. *)
Definition filter (keep : Callable -> bool) (this : T) : T :=
  mkT (List.filter keep (functions this)).

(** *** Notions for the statements about a call *)


End Procedure.

Arguments Callable : clear implicits.
Arguments T : clear implicits.

End MultiProcedure.

(** ** [unnamed/part_003]: [DataWrapper.escript] *)

Module DataWrapper.

Section Wrapper.
(** [V] are the values, [equal] is their [==]; [St] is the state outside
    the wrapper: the objects, collections and stores that wrappers are
    connected to, and whatever the listeners act on.  Listeners and data
    sources do not reach back into the wrapper that calls them. *)
Context {V St : Type}.
Variable equal : V -> V -> bool.

(** The data source of a wrapper: [doGet] and [doSet], which the types
    derived from [DataWrapper] override.  Besides the state outside they
    see the member [currentValue]: [doGet] reads it, [doSet] returns what
    it leaves there. *)
Record Source := mkSource {
  doGet : V -> St -> V * St;
  doSet : V -> V -> St -> V * St
}.

(** An instance: [currentValue], [refreshOnGet], the overridden methods,
    and the listeners [onDataChanged], a [MultiProcedure] of its own. *)
Record T := mkT {
  currentValue : V;
  refreshOnGet : bool;
  source : Source;
  onDataChanged : MultiProcedure.T St V
}.

(** [DataWrapper.initCurrentValue ::= fn(value,_refreshOnGet)] *)
Definition initCurrentValue (value : V) (_refreshOnGet : bool) (this : T)
  : T :=
  mkT value _refreshOnGet (source this) (onDataChanged this).

(** [onDataChanged(value)]: the call of the listeners. *)
Definition notify (value : V) (this : T) (s : St) : option (T * St) :=
  '(listeners, s) ← MultiProcedure._call value (onDataChanged this) s;
  Some (mkT (currentValue this) (refreshOnGet this) (source this) listeners,
        s).

(** [DataWrapper.refresh ::= fn()] *)
Definition refresh (this : T) (s : St) : option (T * St) :=
  let '(newValue, s) := doGet (source this) (currentValue this) s in
  if negb (equal (currentValue this) newValue) then
    notify newValue
      (mkT newValue (refreshOnGet this) (source this) (onDataChanged this)) s
  else Some (this, s).

(** [DataWrapper.get ::= fn()] *)
Definition get (this : T) (s : St) : option (V * T * St) :=
  '(this, s) ← (if refreshOnGet this then refresh this s else Some (this, s));
  Some (currentValue this, this, s).

(** [DataWrapper.forceRefresh ::= fn()] *)
Definition forceRefresh (this : T) (s : St) : option (T * St) :=
  let '(value, s) := doGet (source this) (currentValue this) s in
  notify value
    (mkT value (refreshOnGet this) (source this) (onDataChanged this)) s.

(** [DataWrapper.set ::= fn(newValue)] *)
Definition set (newValue : V) (this : T) (s : St) : option (T * St) :=
  if negb (equal (currentValue this) newValue) then
    let '(value, s) := doSet (source this) newValue (currentValue this) s in
    let '(value, s) := doGet (source this) value s in
    notify newValue
      (mkT value (refreshOnGet this) (source this) (onDataChanged this)) s
  else Some (this, s).








(** *** Notions for the statements about wrappers *)



End Wrapper.

Arguments Source : clear implicits.
Arguments T : clear implicits.

End DataWrapper.

(* ===================================================================== *)
(** * Part II: the claims                                                 *)
(* ===================================================================== *)

(** ** Static data blocks and function objects *)

Section StaticDataClaims.
Import EScript.

Lemma to_uint32_small z : 0 <= z < uint32_max -> to_uint32 z = z.
Proof. intros Hz. unfold to_uint32. by apply Z.mod_small. Qed.

(** C7: static variable slots are append-only and created unset.  A call
    of [declareStaticVariable name] on a block whose two vectors have the
    same length (and fewer than [2^32] slots, so that the index fits the
    32-bit result) appends exactly [name] and one null value, returns the
    previous slot count as the index of the new slot, leaves every
    earlier slot (name and value) as it was, and keeps the two vectors
    the same length. *)
Theorem declareStaticVariable_append_only (name : StringId) (sd : StaticData) :
  length (staticVariableNames sd) = length (staticVariableValues sd) ->
  Z.of_nat (length (staticVariableNames sd)) < uint32_max ->
  let idx := fst (declareStaticVariable name sd) in
  let sd' := snd (declareStaticVariable name sd) in
  staticVariableNames sd' = staticVariableNames sd ++ [name]
  /\ staticVariableValues sd' = staticVariableValues sd ++ [None]
  /\ idx = Z.of_nat (length (staticVariableNames sd))
  /\ staticVariableNames sd' !! Z.to_nat idx = Some name
  /\ staticVariableValues sd' !! Z.to_nat idx = Some None
  /\ (forall i : nat, (i < length (staticVariableNames sd))%nat ->
        staticVariableNames sd' !! i = staticVariableNames sd !! i
        /\ staticVariableValues sd' !! i = staticVariableValues sd !! i)
  /\ length (staticVariableNames sd') = length (staticVariableValues sd').
Proof.
  intros Hlen Hfit. cbn zeta.
  assert (Hidx : fst (declareStaticVariable name sd)
                 = Z.of_nat (length (staticVariableNames sd))).
  { unfold declareStaticVariable; cbn [fst].
    rewrite length_app; cbn [length].
    rewrite to_uint32_small; lia. }
  rewrite Hidx, Nat2Z.id. cbn [declareStaticVariable snd
    staticVariableNames staticVariableValues].
  repeat split.
  - by rewrite lookup_app_r, Nat.sub_diag.
  - rewrite Hlen. by rewrite lookup_app_r, Nat.sub_diag.
  - by apply lookup_app_l.
  - apply lookup_app_l. lia.
  - rewrite !length_app. cbn. lia.
Qed.

Lemma declareStaticVariable_append_only_witness :
  let sd := mkStaticData ["counter"%string] [Some 7%nat] in
  length (staticVariableNames sd) = length (staticVariableValues sd)
  /\ fst (declareStaticVariable "cache" sd) = 1
  /\ staticVariableValues (snd (declareStaticVariable "cache" sd))
     = [Some 7%nat; None].
Proof.
  cbn zeta.
  pose proof (declareStaticVariable_append_only "cache"
                (mkStaticData ["counter"%string] [Some 7%nat])
                eq_refl eq_refl) as H.
  cbn zeta in H. destruct H as (_ & Hv & Hi & _).
  split; [reflexivity|]. split; [exact Hi | exact Hv].
Defined.

Lemma fromFragment_staticData sd f :
  fromFragment sd f -> getStaticData f = Some sd.
Proof. induction 1; auto. Qed.

Lemma write_then_read (f g : UserFunction) (a : addr) (h : Heap)
    (block : StaticData) (slot : nat) (v : ObjRef) :
  getStaticData f = Some a -> getStaticData g = Some a ->
  statics h !! a = Some block ->
  (slot < length (staticVariableValues block))%nat ->
  exists h', writeStatic f slot v h = Some h'
             /\ functions h' = functions h
             /\ readStatic g slot h' = Some v.
Proof.
  intros Hf Hg Hblock Hslot.
  unfold writeStatic, readStatic. rewrite Hf, Hg. cbn.
  rewrite Hblock. cbn. rewrite decide_True by done.
  eexists. split; [reflexivity|]. split; [reflexivity|]. cbn.
  rewrite list_lookup_insert_eq by (by eapply lookup_lt_Some). cbn.
  by rewrite list_lookup_insert_eq.
Qed.

(** C2: two function objects instantiated from, or cloned within, the
    same compiled fragment hold a reference to one and the same Static
    Data Block; a value written to a declared static slot through one of
    them is the value read from that slot through the other. *)
Theorem static_data_block_shared (sd : addr) (f g : UserFunction) :
  fromFragment sd f -> fromFragment sd g ->
  getStaticData f = Some sd /\ getStaticData g = Some sd
  /\ forall (h : Heap) (block : StaticData) (slot : nat) (v : ObjRef),
       statics h !! sd = Some block ->
       (slot < length (staticVariableValues block))%nat ->
       exists h', writeStatic f slot v h = Some h'
                  /\ readStatic g slot h' = Some v.
Proof.
  intros Hf Hg.
  apply fromFragment_staticData in Hf, Hg.
  repeat split; [done | done |].
  intros h block slot v Hblock Hslot.
  destruct (write_then_read f g sd h block slot v Hf Hg Hblock Hslot)
    as (h' & Hw & _ & Hr).
  by exists h'.
Qed.

Lemma static_data_block_shared_witness :
  let f := setLine 3 (newUserFunction 0%nat) in
  let g := copyUserFunction (setParameterCounts 2 1 2 (newUserFunction 0%nat)) in
  let h := mkHeap [f; g] [mkStaticData ["n"%string] [None]] in
  exists h', writeStatic f 0%nat (Some 5%nat) h = Some h'
             /\ readStatic g 0%nat h' = Some (Some 5%nat).
Proof.
  cbn zeta.
  pose proof (static_data_block_shared 0%nat
                (setLine 3 (newUserFunction 0%nat))
                (copyUserFunction
                   (setParameterCounts 2 1 2 (newUserFunction 0%nat)))
                (ff_setLine _ _ _ (ff_new _))
                (ff_clone _ _ (ff_setParameterCounts _ _ _ _ _ (ff_new _))))
    as (_ & _ & H).
  apply (H (mkHeap _ [mkStaticData ["n"%string] [None]])
           (mkStaticData ["n"%string] [None]) 0%nat (Some 5%nat)).
  - reflexivity.
  - cbn. lia.
Defined.

End StaticDataClaims.


Section CloneClaims.
Import EScript.

Lemma copyUserFunction_id f : copyUserFunction f = f.
Proof. by destruct f. Qed.

Lemma sharesStaticData_same_ref h a b fa fb :
  functions h !! a = Some fa -> functions h !! b = Some fb ->
  getStaticData fa = getStaticData fb ->
  sharesStaticData h a b.
Proof.
  intros Ha Hb Heq slot v h' fa' fb' Ha' Hb' Hw.
  rewrite Ha in Ha'. rewrite Hb in Hb'. simplify_eq.
  unfold writeStatic in Hw. unfold readStatic. rewrite Heq.
  destruct (getStaticData fb') as [s|]; [|done]. cbn in *.
  destruct (statics h !! s) as [block|] eqn:Hs; [|done]. cbn in *.
  case_decide; [|done]. simplify_eq. cbn.
  rewrite list_lookup_insert_eq by (by eapply lookup_lt_Some). cbn.
  by rewrite list_lookup_insert_eq.
Qed.

(** The specification's statement fails on the instruction block: after
    cloning the function at address 0, an instruction appended through the
    clone's [getInstructionBlock()] does not appear in the original. *)
Lemma clone_instruction_block_not_shared :
  let f := setParameterCounts 2 1 2 (newUserFunction 0%nat) in
  let h := mkHeap [f] [mkStaticData [] []] in
  ~ cloneSharesBoth h 0%nat.
Proof.
  cbn zeta. intros Hclaim.
  destruct (Hclaim _ eq_refl) as (b & h' & f' & Hclone & _ & _ & _ & _ & _ & Hblock & _).
  cbv in Hclone. simplify_eq.
  specialize (Hblock (fun blk => blk ++ [mkInstruction 1 []]) _ _ _
                eq_refl eq_refl eq_refl).
  discriminate Hblock.
Qed.

(** C3 (amended): [clone] yields a new function object, at an address of
    its own, whose parameter metadata (parameter count, minimum and
    maximum argument counts) and attribute map equal those of the
    original; its instruction block is an equal copy held by value in the
    new object, so a later change made to the block of the clone leaves
    the block of the original as it was; the static data block is shared:
    both objects hold the same reference, and a write to a slot through
    the clone is read back through the original. *)
Theorem clone_copies_block_shares_static (h : Heap) (a : addr)
    (f : UserFunction) :
  functions h !! a = Some f ->
  exists (b : addr) (h' : Heap) (f' : UserFunction),
    clone a h = Some (b, h')
    /\ b <> a
    /\ functions h' !! a = Some f
    /\ functions h' !! b = Some f'
    /\ statics h' = statics h
    /\ getParamCount f' = getParamCount f
    /\ getMinParamCount f' = getMinParamCount f
    /\ getMaxParamCount f' = getMaxParamCount f
    /\ attributes f' = attributes f
    /\ getInstructionBlock f' = getInstructionBlock f
    /\ getStaticData f' = getStaticData f
    /\ (forall g h'', updateInstructionBlock b g h' = Some h'' ->
          functions h'' !! a = Some f
          /\ functions h'' !! b = Some (modifyInstructionBlock g f'))
    /\ sharesStaticData h' a b.
Proof.
  intros Ha.
  pose proof (lookup_lt_Some _ _ _ Ha) as Hlt.
  exists (length (functions h)),
    (mkHeap (functions h ++ [copyUserFunction f]) (statics h)),
    (copyUserFunction f).
  assert (Hb : (functions h ++ [copyUserFunction f])
                 !! length (functions h) = Some (copyUserFunction f)).
  { by rewrite lookup_app_r, Nat.sub_diag. }
  assert (Ha' : (functions h ++ [copyUserFunction f]) !! a = Some f).
  { by rewrite lookup_app_l. }
  split; [unfold clone; by rewrite Ha|].
  split; [lia|]. cbn [functions statics].
  repeat (split; [done|]).
  split.
  - intros g h'' Hupd. unfold updateInstructionBlock in Hupd.
    cbn [functions statics] in Hupd. rewrite Hb in Hupd. cbn in Hupd.
    simplify_eq. cbn [functions]. split.
    + rewrite list_lookup_insert_ne by lia. done.
    + apply list_lookup_insert_eq. rewrite length_app. cbn. lia.
  - eapply sharesStaticData_same_ref; cbn [functions]; eauto.
Qed.

Lemma clone_copies_block_shares_static_witness :
  let f := setParameterCounts 2 1 2 (newUserFunction 0%nat) in
  let h := mkHeap [f] [mkStaticData ["n"%string] [None]] in
  exists (b : addr) (h' : Heap) (f' : UserFunction),
    clone 0%nat h = Some (b, h')
    /\ functions h' !! b = Some f'
    /\ getMaxParamCount f' = 2
    /\ getStaticData f' = Some 0%nat.
Proof.
  cbn zeta.
  destruct (clone_copies_block_shares_static
              (mkHeap [setParameterCounts 2 1 2 (newUserFunction 0%nat)]
                      [mkStaticData ["n"%string] [None]])
              0%nat _ eq_refl)
    as (b & h' & f' & Hc & _ & _ & Hb & _ & _ & _ & Hmax & _ & _ & Hsd & _).
  exists b, h', f'. repeat split; assumption.
Defined.

End CloneClaims.

Section EngineClaims.
Import EScript Engine.

Lemma bindParameters_too_few f args :
  Z.of_nat (length args) < getMinParamCount f ->
  bindParameters f args = inl ArityError.
Proof.
  intros H. unfold bindParameters.
  by rewrite (proj2 (Z.ltb_lt _ _) H).
Qed.

Lemma bindParameters_no_marker f args :
  hasVariadicMarker f = false ->
  getMinParamCount f <= Z.of_nat (length args) ->
  bindParameters f args
  = inr (bindPositional (getParamCount f)
           (take (Z.to_nat (getMaxParamCount f)) args)).
Proof.
  intros Hm H. unfold bindParameters.
  rewrite (proj2 (Z.ltb_ge _ _) H). by rewrite Hm.
Qed.

(** C1: for a function without a variadic marker whose declared minimum
    does not exceed its declared maximum, a call with fewer than the
    minimum number of arguments fails with [ArityError]; a call with more
    than the maximum succeeds: binding yields the slots of the first
    [max] arguments alone, exactly as if the excess had not been passed,
    and the call runs the body on those slots. *)
Theorem arity_without_variadic_marker
    (exec : InstructionBlock -> list Slot -> Outcome)
    (f : UserFunction) (args : list addr) :
  hasVariadicMarker f = false ->
  getMinParamCount f <= getMaxParamCount f ->
  (Z.of_nat (length args) < getMinParamCount f ->
     bindParameters f args = inl ArityError
     /\ call exec f args = Failure ArityError)
  /\ (getMaxParamCount f < Z.of_nat (length args) ->
        let kept := take (Z.to_nat (getMaxParamCount f)) args in
        bindParameters f args
          = inr (bindPositional (getParamCount f) kept)
        /\ bindParameters f args = bindParameters f kept
        /\ call exec f args
           = exec (getInstructionBlock f)
               (bindPositional (getParamCount f) kept)
        /\ call exec f args = call exec f kept).
Proof.
  intros Hm Hle. split.
  - intros Hfew. unfold call.
    by rewrite (bindParameters_too_few _ _ Hfew).
  - intros Hmany. cbn zeta.
    assert (H1 : bindParameters f args
                 = inr (bindPositional (getParamCount f)
                          (take (Z.to_nat (getMaxParamCount f)) args))).
    { apply bindParameters_no_marker; [done | lia]. }
    assert (H2 : bindParameters f (take (Z.to_nat (getMaxParamCount f)) args)
                 = inr (bindPositional (getParamCount f)
                          (take (Z.to_nat (getMaxParamCount f)) args))).
    { rewrite bindParameters_no_marker; [|done|].
      - by rewrite take_take, Nat.min_id.
      - rewrite length_take. lia. }
    unfold call. rewrite H1, H2. done.
Qed.

Lemma arity_without_variadic_marker_witness :
  let f := setParameterCounts 2 1 2 (newUserFunction 0%nat) in
  let exec := fun (_ : InstructionBlock) (slots : list Slot) =>
                match slots with
                | Bound v :: _ => Result (Some v)
                | _ => Result None
                end in
  bindParameters f [] = inl ArityError
  /\ bindParameters f [10; 11; 12]%nat = inr [Bound 10%nat; Bound 11%nat]
  /\ call exec f [10; 11; 12]%nat = Result (Some 10%nat).
Proof.
  cbn zeta.
  pose (f := setParameterCounts 2 1 2 (newUserFunction 0%nat)).
  pose (exec := fun (_ : InstructionBlock) (slots : list Slot) =>
                match slots with
                | Bound v :: _ => Result (Some v)
                | _ => Result None
                end).
  split.
  - destruct (arity_without_variadic_marker exec f [] eq_refl)
      as [H _]; [cbn; lia|].
    destruct H as [H _]; [reflexivity | exact H].
  - destruct (arity_without_variadic_marker exec f [10; 11; 12]%nat eq_refl)
      as [_ H]; [cbn; lia|].
    destruct H as (H1 & _ & H3 & _); [reflexivity|].
    split; [exact H1 | exact H3].
Defined.

End EngineClaims.

Section ResolverClaims.
Import EScript Resolver.

Lemma resolve_own (o : Object) (m : gmap string Attribute)
    (name : string) (a : Attribute) :
  objAttributes o = Some m -> m !! name = Some a -> resolve o name = Some a.
Proof.
  intros Ho Hm. unfold resolve. rewrite Ho. cbn. by rewrite Hm.
Qed.

(** C6: for an extensible object and a name that is present both in the
    object's own attribute map and along its type (the type's own map, a
    composed trait or a base type), lookup of the name on the object
    yields the attribute of the object's own map; this stays so whatever
    is composed into the type afterwards, and an attribute set on the
    object is the one found by the next lookup. *)
Theorem own_attribute_shadows_type (o : Object)
    (m : gmap string Attribute) (name : string)
    (own inherited : Attribute) :
  objAttributes o = Some m ->
  m !! name = Some own ->
  resolveInType (objType o) name = Some inherited ->
  resolve o name = Some own
  /\ (forall bundle : gmap string Attribute,
        resolve (mkObject (addTrait bundle (objType o)) (objAttributes o))
                name = Some own)
  /\ (forall a : Attribute,
        exists o', setAttribute name a o = Some o'
                   /\ resolve o' name = Some a).
Proof.
  intros Ho Hm _. split; [|split].
  - by eapply resolve_own.
  - intros bundle. by eapply resolve_own.
  - intros a. unfold setAttribute. rewrite Ho. cbn.
    eexists. split; [reflexivity|].
    eapply resolve_own; [reflexivity|]. apply lookup_insert_eq.
Qed.

(** The constructor of [FnDataWrapper] in [DataWrapper.escript]:
    [this.doGet @(override,private) := _getter;] puts the getter (here
    the object at address 7) into the instance, where it shadows the
    abstract [doGet] (address 1) that the base type [DataWrapper]
    declares; the following [doGet()] finds the getter. *)
Lemma own_attribute_shadows_type_witness :
  let abstractMethod := mkAttribute (Some 1%nat) 0 in
  let getter := mkAttribute (Some 7%nat) 0 in
  let DataWrapper :=
    mkType "DataWrapper" None []
      (<["doGet"%string := abstractMethod]>
         (<["doSet"%string := abstractMethod]> ∅)) in
  let FnDataWrapper := mkType "FnDataWrapper" (Some DataWrapper) [] ∅ in
  let this := mkObject FnDataWrapper (Some (<["doGet"%string := getter]> ∅)) in
  resolveInType FnDataWrapper "doGet" = Some abstractMethod
  /\ resolve this "doGet" = Some getter.
Proof.
  cbn zeta. split; [reflexivity|].
  eapply (own_attribute_shadows_type
            (mkObject
               (mkType "FnDataWrapper"
                  (Some (mkType "DataWrapper" None []
                           (<["doGet"%string := mkAttribute (Some 1%nat) 0]>
                              (<["doSet"%string := mkAttribute (Some 1%nat) 0]> ∅))))
                  [] ∅)
               (Some (<["doGet"%string := mkAttribute (Some 7%nat) 0]> ∅)))
            _ "doGet" (mkAttribute (Some 7%nat) 0)
            (mkAttribute (Some 1%nat) 0)).
  - reflexivity.
  - reflexivity.
  - reflexivity.
Defined.

End ResolverClaims.

Section SmallQueueClaims.
Import PriorityQueue.
Context {A : Type}.

(** C10: on a queue without elements [extract()] returns void and leaves
    the queue as it is, so that [count()] is still 0; on a queue with
    exactly one element [extract()] returns that element and leaves the
    queue empty; [get()] on a queue without elements returns void and
    does not change the queue. *)
Theorem extract_and_get_small_queues (cmp : A -> A -> bool) (x : A) :
  extract (mkT cmp []) = Some (None, mkT cmp [])
  /\ count (mkT cmp []) = (0%nat, mkT cmp [])
  /\ extract (mkT cmp [x]) = Some (Some x, mkT cmp [])
  /\ empty (mkT cmp []) = (true, mkT cmp [])
  /\ get (mkT cmp []) = (None, mkT cmp []).
Proof. repeat split. Qed.

End SmallQueueClaims.

Section Utf8Claims.
Import Utf8.

Lemma to_uint8_range z : 0 <= to_uint8 z < 256.
Proof. unfold to_uint8. apply Z.mod_pos_bound. lia. Qed.

(** The continuation test of the code, [(b & 0xC0) == 0x80], on a byte. *)
Lemma continuation_mask b :
  0 <= b < 256 -> (Z.land b 0xC0 =? 0x80) = isContinuation b.
Proof.
  intros Hb.
  assert (Htable : forallb (fun n => Bool.eqb (Z.land (Z.of_nat n) 0xC0 =? 0x80)
                                       (isContinuation (Z.of_nat n)))
                     (seq 0 256) = true) by (vm_compute; reflexivity).
  rewrite forallb_forall in Htable.
  specialize (Htable (Z.to_nat b)).
  rewrite Z2Nat.id in Htable by lia.
  apply Bool.eqb_prop, Htable, in_seq. lia.
Qed.

Lemma low_bits b n : 0 <= n -> Z.land b (Z.ones n) = b mod 2 ^ n.
Proof. intros. by apply Z.land_ones. Qed.

Ltac utf8_bytes mem cursor :=
  pose proof (to_uint8_range (mem cursor));
  pose proof (to_uint8_range (mem (cursor + 1)));
  pose proof (to_uint8_range (mem (cursor + 2)));
  pose proof (to_uint8_range (mem (cursor + 3)));
  rewrite ?continuation_mask by assumption;
  unfold isContinuation, inRange.

Ltac bool_hyps :=
  repeat match goal with
         | H : (_ && _) = true |- _ => apply andb_true_iff in H; destruct H
         | H : (_ && _) = false |- _ => apply andb_false_iff in H; destruct H
         | H : (_ || _) = true |- _ => apply orb_true_iff in H; destruct H
         | H : (_ || _) = false |- _ => apply orb_false_iff in H; destruct H
         | H : negb _ = true |- _ => apply negb_true_iff in H
         | H : negb _ = false |- _ => apply negb_false_iff in H
         | H : (_ <? _) = true |- _ => apply Z.ltb_lt in H
         | H : (_ <? _) = false |- _ => apply Z.ltb_ge in H
         | H : (_ <=? _) = true |- _ => apply Z.leb_le in H
         | H : (_ <=? _) = false |- _ => apply Z.leb_gt in H
         | H : (_ >=? _) = true |- _ => apply Z.geb_le in H
         | H : (_ >=? _) = false |- _ =>
             rewrite Z.geb_leb in H; apply Z.leb_gt in H
         | H : (_ =? _) = true |- _ => apply Z.eqb_eq in H
         | H : (_ =? _) = false |- _ => apply Z.eqb_neq in H
         end.

Ltac pow_consts :=
  change (2 ^ 32) with 4294967296 in *;
  change (2 ^ 18) with 262144 in *;
  change (2 ^ 12) with 4096 in *;
  change (2 ^ 6) with 64 in *;
  change (2 ^ 5) with 32 in *;
  change (2 ^ 4) with 16 in *;
  change (2 ^ 3) with 8 in *.

Ltac utf8_cases :=
  repeat match goal with
         | |- context [if ?c then _ else _] => destruct c eqn:?
         end;
  bool_hyps;
  repeat match goal with
         | H : context [if ?c then _ else _] |- _ => destruct c eqn:?
         end;
  bool_hyps.

(** Every address the decoder reads lies in [[cursor, utf8End)]. *)
Lemma readCodePoint_utf8_reads_in_range mem cursor utf8End a :
  In a (reads (readCodePoint_utf8 mem cursor utf8End)) ->
  cursor <= a < utf8End.
Proof.
  unfold readCodePoint_utf8. utf8_cases; cbn [reads In]; intros Ha;
    repeat match goal with
           | H : _ \/ _ |- _ => destruct H
           | H : False |- _ => destruct H
           end; lia.
Qed.

(** A call that returns [INVALID_CODE_POINT] leaves the cursor where it
    was. *)
Lemma readCodePoint_utf8_invalid_keeps_cursor mem cursor utf8End :
  result (readCodePoint_utf8 mem cursor utf8End) = INVALID_CODE_POINT ->
  cursorAfter (readCodePoint_utf8 mem cursor utf8End) = cursor.
Proof.
  unfold readCodePoint_utf8, to_uint32.
  utf8_bytes mem cursor.
  change 0x1F with (Z.ones 5). change 0x3F with (Z.ones 6).
  change 0x0F with (Z.ones 4). change 0x07 with (Z.ones 3).
  rewrite !low_bits, !Z.shiftl_mul_pow2 by lia.
  unfold INVALID_CODE_POINT. pow_consts.
  utf8_cases; cbn [result cursorAfter]; try reflexivity; intros Hr; exfalso.
  all: Z.div_mod_to_equations; lia.
Qed.

(** A call that returns something else has advanced the cursor by one to
    four bytes, without passing [utf8End], and the value is below
    [2^21]. *)
Lemma readCodePoint_utf8_success_advances mem cursor utf8End :
  result (readCodePoint_utf8 mem cursor utf8End) <> INVALID_CODE_POINT ->
  1 <= cursorAfter (readCodePoint_utf8 mem cursor utf8End) - cursor <= 4
  /\ cursorAfter (readCodePoint_utf8 mem cursor utf8End) <= utf8End.
Proof.
  unfold readCodePoint_utf8.
  utf8_cases; cbn [result cursorAfter]; intros Hr; try congruence; lia.
Qed.

(** On a well-formed sequence the decoder returns its scalar value and
    advances by its length. *)
Lemma readCodePoint_utf8_decodes_well_formed mem cursor utf8End len cp :
  wellFormedUtf8 mem cursor utf8End = Some (len, cp) ->
  result (readCodePoint_utf8 mem cursor utf8End) = cp
  /\ cursorAfter (readCodePoint_utf8 mem cursor utf8End) = cursor + len.
Proof.
  unfold wellFormedUtf8, readCodePoint_utf8, to_uint32.
  utf8_bytes mem cursor.
  change 0x1F with (Z.ones 5). change 0x3F with (Z.ones 6).
  change 0x0F with (Z.ones 4). change 0x07 with (Z.ones 3).
  rewrite !low_bits, !Z.shiftl_mul_pow2 by lia.
  pow_consts.
  utf8_cases; cbn [result cursorAfter]; intros Hwf; try discriminate;
    injection Hwf as <- <-; try lia; split; Z.div_mod_to_equations; lia.
Qed.

(** C9, at the input on which it fails: the three bytes [E0 80 80] are an
    overlong form, not well-formed UTF-8, yet the decoder does not answer
    [INVALID_CODE_POINT]: it returns the code point 0 and moves the
    cursor three bytes on.  (The same happens for the surrogate form
    [ED A0 80], the overlong [F0 80 80 80] and [F4 90 80 80], which is
    above U+10FFFF.) *)
Theorem readCodePoint_utf8_accepts_overlong :
  let mem := bufferAt 0 [0xE0; 0x80; 0x80] 0 in
  wellFormedUtf8 mem 0 3 = None
  /\ readCodePoint_utf8 mem 0 3 = mkOutcome 0 3 [0; 1; 2]
  /\ result (readCodePoint_utf8 mem 0 3) <> INVALID_CODE_POINT
  /\ wellFormedUtf8 (bufferAt 0 [0xED; 0xA0; 0x80] 0) 0 3 = None
  /\ result (readCodePoint_utf8 (bufferAt 0 [0xED; 0xA0; 0x80] 0) 0 3)
     = 0xD800
  /\ wellFormedUtf8 (bufferAt 0 [0xF4; 0x90; 0x80; 0x80] 0) 0 4 = None
  /\ result (readCodePoint_utf8 (bufferAt 0 [0xF4; 0x90; 0x80; 0x80] 0) 0 4)
     = 0x110000.
Proof. cbn zeta. repeat split; try (vm_compute; congruence). Qed.

(** *** The decoder: what a caller can rely on *)


Lemma readCodePoint_utf8_reads_in_range_witness :
  In 2 (reads (readCodePoint_utf8 (bufferAt 0 [0xE2; 0x82; 0xAC] 0) 0 3))
  /\ 0 <= 2 < 3.
Proof.
  assert (Hin : In 2 (reads (readCodePoint_utf8
                               (bufferAt 0 [0xE2; 0x82; 0xAC] 0) 0 3))).
  { vm_compute. right. right. by left. }
  split; [exact Hin|].
  exact (readCodePoint_utf8_reads_in_range
           (bufferAt 0 [0xE2; 0x82; 0xAC] 0) 0 3 2 Hin).
Defined.

Lemma readCodePoint_utf8_decodes_well_formed_witness :
  wellFormedUtf8 (bufferAt 0 [0xE2; 0x82; 0xAC] 0) 0 3 = Some (3, 0x20AC)
  /\ result (readCodePoint_utf8 (bufferAt 0 [0xE2; 0x82; 0xAC] 0) 0 3)
     = 0x20AC
  /\ cursorAfter (readCodePoint_utf8 (bufferAt 0 [0xE2; 0x82; 0xAC] 0) 0 3)
     = 0 + 3.
Proof.
  split; [reflexivity|].
  apply (readCodePoint_utf8_decodes_well_formed
           (bufferAt 0 [0xE2; 0x82; 0xAC] 0) 0 3 3 0x20AC).
  reflexivity.
Defined.

(** The cursor tells the two outcomes apart: it stays exactly when the
    result is [INVALID_CODE_POINT]; otherwise it has moved over the one to
    four bytes that were read, which are consecutive from the old cursor
    and end before [utf8End]. *)
Theorem readCodePoint_utf8_cursor_moves_iff_valid mem cursor utf8End :
  let r := readCodePoint_utf8 mem cursor utf8End in
  (result r = INVALID_CODE_POINT <-> cursorAfter r = cursor)
  /\ (result r <> INVALID_CODE_POINT ->
      1 <= cursorAfter r - cursor <= 4
      /\ cursorAfter r <= utf8End
      /\ reads r = (fun k => cursor + Z.of_nat k)
                   <$> seq 0 (Z.to_nat (cursorAfter r - cursor))).
Proof.
  cbn zeta. split; [split|].
  - apply readCodePoint_utf8_invalid_keeps_cursor.
  - intros Hstay.
    destruct (Z.eq_dec (result (readCodePoint_utf8 mem cursor utf8End))
                INVALID_CODE_POINT) as [|Hne]; [done|].
    apply readCodePoint_utf8_success_advances in Hne. lia.
  - intros Hne.
    destruct (readCodePoint_utf8_success_advances _ _ _ Hne) as [Hadv Hend].
    split; [done|]. split; [done|].
    revert Hne Hadv. unfold readCodePoint_utf8.
    utf8_cases; cbn [result cursorAfter reads]; intros Hne Hadv;
      try congruence; try lia.
    all: match goal with
         | |- context [Z.to_nat ?e] =>
             let n := fresh in
             (replace e with 1 by lia) || (replace e with 2 by lia)
             || (replace e with 3 by lia) || (replace e with 4 by lia)
         end; simpl; by rewrite ?Z.add_0_r.
Qed.

(** The value of a result, by the number of bytes consumed: one byte
    gives less than [0x80]; two bytes give a value from [0x80] to [0x7FF]
    (the two-byte form is never overlong); three bytes give less than
    [0x10000] and four bytes less than [0x140000], with no lower bound. *)
Theorem readCodePoint_utf8_result_range mem cursor utf8End :
  let r := readCodePoint_utf8 mem cursor utf8End in
  result r <> INVALID_CODE_POINT ->
  (cursorAfter r = cursor + 1 /\ 0 <= result r < 0x80)
  \/ (cursorAfter r = cursor + 2 /\ 0x80 <= result r < 0x800)
  \/ (cursorAfter r = cursor + 3 /\ 0 <= result r < 0x10000)
  \/ (cursorAfter r = cursor + 4 /\ 0 <= result r < 0x140000).
Proof.
  cbn zeta. unfold readCodePoint_utf8, to_uint32.
  utf8_bytes mem cursor.
  change 0x1F with (Z.ones 5). change 0x3F with (Z.ones 6).
  change 0x0F with (Z.ones 4). change 0x07 with (Z.ones 3).
  rewrite !low_bits, !Z.shiftl_mul_pow2 by lia.
  pow_consts.
  utf8_cases; cbn [result cursorAfter]; intros Hr; try congruence.
  - left. split; [done|]. Z.div_mod_to_equations; lia.
  - right; left. split; [done|]. Z.div_mod_to_equations; lia.
  - right; right; left. split; [done|]. Z.div_mod_to_equations; lia.
  - right; right; right. split; [done|]. Z.div_mod_to_equations; lia.
Qed.

Lemma readCodePoint_utf8_result_range_witness :
  let r := readCodePoint_utf8 (bufferAt 0 [0xC3; 0xA4] 0) 0 2 in
  (cursorAfter r = 0 + 1 /\ 0 <= result r < 0x80)
  \/ (cursorAfter r = 0 + 2 /\ 0x80 <= result r < 0x800)
  \/ (cursorAfter r = 0 + 3 /\ 0 <= result r < 0x10000)
  \/ (cursorAfter r = 0 + 4 /\ 0 <= result r < 0x140000).
Proof.
  apply (readCodePoint_utf8_result_range (bufferAt 0 [0xC3; 0xA4] 0) 0 2).
  vm_compute. discriminate.
Defined.

(** The outcome depends on the bytes from [cursor] up to [utf8End] only:
    two memories that agree there give the same result, the same cursor
    and the same reads. *)
Theorem readCodePoint_utf8_local mem mem' cursor utf8End :
  (forall a, cursor <= a < utf8End -> mem a = mem' a) ->
  readCodePoint_utf8 mem cursor utf8End
  = readCodePoint_utf8 mem' cursor utf8End.
Proof.
  intros Hagree. unfold readCodePoint_utf8.
  destruct (cursor >=? utf8End) eqn:H0; [done|].
  rewrite Z.geb_leb in H0. apply Z.leb_gt in H0.
  rewrite <- (Hagree cursor) by lia. cbn zeta.
  destruct (to_uint8 (mem cursor) <? 128); [done|].
  destruct (to_uint8 (mem cursor) <? 224).
  { destruct (to_uint8 (mem cursor) <? 194); [done|]. cbn [orb].
    destruct (cursor + 1 >=? utf8End) eqn:H1; [done|].
    rewrite Z.geb_leb in H1. apply Z.leb_gt in H1.
    by rewrite <- (Hagree (cursor + 1)) by lia. }
  destruct (to_uint8 (mem cursor) <? 240).
  { destruct (cursor + 2 >=? utf8End) eqn:H2; [done|].
    rewrite Z.geb_leb in H2. apply Z.leb_gt in H2.
    by rewrite <- (Hagree (cursor + 1)), <- (Hagree (cursor + 2)) by lia. }
  destruct (to_uint8 (mem cursor) <? 245); [|done].
  destruct (cursor + 3 >=? utf8End) eqn:H3; [done|].
  rewrite Z.geb_leb in H3. apply Z.leb_gt in H3.
  by rewrite <- (Hagree (cursor + 1)), <- (Hagree (cursor + 2)),
       <- (Hagree (cursor + 3)) by lia.
Qed.

Lemma readCodePoint_utf8_local_witness :
  readCodePoint_utf8 (bufferAt 0 [0xC3; 0xA4] 0) 0 2
  = readCodePoint_utf8 (bufferAt 0 [0xC3; 0xA4; 0x80] 0xFF) 0 2.
Proof.
  apply (readCodePoint_utf8_local (bufferAt 0 [0xC3; 0xA4] 0)
           (bufferAt 0 [0xC3; 0xA4; 0x80] 0xFF) 0 2).
  intros a Ha. assert (a = 0 \/ a = 1) as [->| ->] by lia; reflexivity.
Defined.

End Utf8Claims.


(** ** The priority queue as a binary heap *)

Section PriorityQueueClaims.
Import PriorityQueue.
Local Open Scope nat_scope.

Lemma parent_spec i j :
  0 < j -> (parent j = i <-> j = 2 * i + 1 \/ j = 2 * i + 2).
Proof.
  intros Hj. unfold parent.
  pose proof (Nat.div_mod_eq (j + 1) 2).
  pose proof (Nat.mod_upper_bound (j + 1) 2). lia.
Qed.

Lemma parent_lt j : 0 < j -> parent j < j.
Proof.
  intros Hj. unfold parent.
  pose proof (Nat.div_mod_eq (j + 1) 2).
  pose proof (Nat.mod_upper_bound (j + 1) 2). lia.
Qed.

Lemma rd_lookup a i : i < length a -> a !! i = Some (rd a i).
Proof.
  intros Hi. unfold rd. destruct (lookup_lt_is_Some_2 a i Hi) as [x ->]. done.
Qed.

Lemma rd_insert a i j x :
  i < length a -> rd (<[i := x]> a) j = if decide (j = i) then x else rd a j.
Proof.
  intros Hi. unfold rd. case_decide as Hij.
  - subst. by rewrite list_lookup_insert_eq.
  - by rewrite list_lookup_insert_ne.
Qed.

Lemma upInv_heapOrdered a i :
  upInv a i -> (0 < i -> (rd a (parent i) <= rd a i)%Z) -> heapOrdered a.
Proof.
  intros [H1 _] Hi j Hj. destruct (decide (j = i)) as [->|Hne].
  - apply Hi. lia.
  - by apply H1.
Qed.

Lemma upInv_swap a i :
  0 < i < length a -> upInv a i -> (rd a i < rd a (parent i))%Z ->
  upInv (<[i := rd a (parent i)]> (<[parent i := rd a i]> a)) (parent i).
Proof.
  intros Hi [H1 H2] Hlt.
  pose proof (parent_lt i (proj1 Hi)) as Hp.
  assert (Hrd : forall k,
             rd (<[i := rd a (parent i)]> (<[parent i := rd a i]> a)) k
             = if decide (k = i) then rd a (parent i)
               else if decide (k = parent i) then rd a i else rd a k).
  { intros k. rewrite rd_insert by (rewrite length_insert; lia).
    case_decide; [done|]. rewrite rd_insert by lia. done. }
  split.
  - intros j Hj Hne. rewrite !length_insert in Hj. rewrite !Hrd.
    pose proof (parent_lt j (proj1 Hj)) as Hpj.
    destruct (decide (j = i)) as [->|Hji].
    + rewrite decide_False by lia. rewrite decide_True by done. lia.
    + rewrite (decide_False (P := j = parent i)) by done.
      specialize (H1 j Hj Hji).
      destruct (decide (parent j = i)) as [Hpi|Hpi].
      * rewrite Hpi in H1. specialize (H2 j Hj Hpi (proj1 Hi)). lia.
      * destruct (decide (parent j = parent i)) as [Hpp|Hpp].
        -- rewrite Hpp in H1. lia.
        -- lia.
  - intros j Hj Hpj Hpos. rewrite !length_insert in Hj. rewrite !Hrd.
    pose proof (parent_lt (parent i) Hpos) as Hpp.
    rewrite (decide_False (P := parent (parent i) = i)) by lia.
    rewrite (decide_False (P := parent (parent i) = parent i)) by lia.
    assert (Hg : (rd a (parent (parent i)) <= rd a (parent i))%Z).
    { apply H1; lia. }
    destruct (decide (j = i)) as [Hji|Hji]; [lia|].
    pose proof (parent_lt j (proj1 Hj)).
    rewrite decide_False by lia.
    specialize (H1 j Hj Hji). rewrite Hpj in H1. lia.
Qed.

Lemma add_loop_ok fuel : forall a i,
  i <= fuel -> i < length a -> upInv a i ->
  exists a', add_loop fuel defaultCompare (rd a i) a i = Some a'
             /\ heapOrdered a' /\ a' ≡ₚ a.
Proof.
  induction fuel as [|fuel IH]; intros a i Hfuel Hi Hinv.
  - assert (i = 0) as -> by lia. cbn. exists a. split; [done|]. split; [|done].
    eapply upInv_heapOrdered; [done | lia].
  - cbn [add_loop]. destruct (0 <? i) eqn:Hpos.
    2:{ apply Nat.ltb_ge in Hpos. exists a. split; [done|]. split; [|done].
        eapply upInv_heapOrdered; [done | lia]. }
    apply Nat.ltb_lt in Hpos.
    pose proof (parent_lt i Hpos) as Hp. fold (parent i). cbn zeta.
    rewrite (rd_lookup a (parent i)) by lia. cbn [mbind option_bind].
    unfold defaultCompare at 1.
    destruct (rd a i <? rd a (parent i))%Z eqn:Hcmp.
    + apply Z.ltb_lt in Hcmp.
      destruct (IH (<[i := rd a (parent i)]> (<[parent i := rd a i]> a))
                  (parent i)) as (a' & Hrun & Hheap & Hperm).
      * lia.
      * rewrite !length_insert. lia.
      * apply upInv_swap; [lia | done | done].
      * exists a'. split; [|split; [done|]].
        -- rewrite <- Hrun. f_equal.
           rewrite rd_insert by (rewrite length_insert; lia).
           rewrite decide_False by lia. rewrite rd_insert by lia.
           by rewrite decide_True.
        -- rewrite Hperm. apply Permutation_insert_swap; by apply rd_lookup; lia.
    + apply Z.ltb_ge in Hcmp. exists a. split; [done|]. split; [|done].
      eapply upInv_heapOrdered; [done | lia].
Qed.

Lemma rd_app_l a b i : i < length a -> rd (a ++ b) i = rd a i.
Proof. intros Hi. unfold rd. by rewrite lookup_app_l. Qed.

Lemma rd_snoc a e : rd (a ++ [e]) (length a) = e.
Proof. unfold rd. by rewrite lookup_app_r, Nat.sub_diag. Qed.

Lemma add_ok e q :
  compare q = defaultCompare -> heapOrdered (arr q) ->
  exists q', add e q = Some q' /\ compare q' = defaultCompare
             /\ heapOrdered (arr q') /\ arr q' ≡ₚ e :: arr q.
Proof.
  intros Hcmp Hheap. unfold add. cbn zeta. rewrite Hcmp.
  rewrite length_app. cbn [length].
  replace (length (arr q) + 1 - 1) with (length (arr q)) by lia.
  destruct (add_loop_ok (length (arr q)) (arr q ++ [e]) (length (arr q)))
    as (a' & Hrun & Hheap' & Hperm).
  - lia.
  - rewrite length_app. cbn. lia.
  - split.
    + intros j Hj Hne. rewrite length_app in Hj. cbn in Hj.
      pose proof (parent_lt j (proj1 Hj)).
      rewrite !rd_app_l by lia. apply Hheap. lia.
    + intros j Hj Hpj. rewrite length_app in Hj. cbn in Hj.
      pose proof (parent_lt j (proj1 Hj)). lia.
  - rewrite rd_snoc in Hrun. rewrite Hrun. cbn.
    eexists. split; [reflexivity|]. cbn. split; [done|]. split; [done|].
    rewrite Hperm. by rewrite Permutation_app_comm.
Qed.

Lemma downInv_heapOrdered a i :
  downInv a i ->
  (forall j, 0 < j < length a -> parent j = i -> (rd a i <= rd a j)%Z) ->
  heapOrdered a.
Proof.
  intros [H1 _] Hi j Hj. destruct (decide (parent j = i)) as [Hp|Hp].
  - rewrite Hp. by apply Hi.
  - by apply H1.
Qed.

Lemma downInv_swap a i m :
  m < length a -> 0 < m -> parent m = i -> downInv a i ->
  (forall j, 0 < j < length a -> parent j = i -> (rd a m <= rd a j)%Z) ->
  (rd a m <= rd a i)%Z ->
  downInv (<[m := rd a i]> (<[i := rd a m]> a)) m.
Proof.
  intros Hm Hpos Hpm [H1 H2] Hmin Hlt.
  pose proof (parent_lt m Hpos) as Hp. rewrite Hpm in Hp.
  assert (Hrd : forall k,
             rd (<[m := rd a i]> (<[i := rd a m]> a)) k
             = if decide (k = m) then rd a i
               else if decide (k = i) then rd a m else rd a k).
  { intros k. rewrite rd_insert by (rewrite length_insert; lia).
    case_decide; [done|]. rewrite rd_insert by lia. done. }
  split.
  - intros j Hj Hne. rewrite !length_insert in Hj. rewrite !Hrd.
    pose proof (parent_lt j (proj1 Hj)) as Hpj.
    rewrite (decide_False (P := parent j = m)) by done.
    destruct (decide (j = m)) as [->|Hjm].
    + rewrite Hpm. rewrite decide_True by done. done.
    + destruct (decide (parent j = i)) as [Hpi|Hpi].
      * rewrite decide_False by lia. by apply Hmin.
      * specialize (H1 j Hj Hpi).
        destruct (decide (j = i)) as [->|Hji]; [|done].
        assert (0 < i) as Hi by lia.
        specialize (H2 m (conj Hpos Hm) Hpm Hi). done.
  - intros j Hj Hpj _. rewrite !length_insert in Hj. rewrite !Hrd.
    pose proof (parent_lt j (proj1 Hj)) as Hpj'.
    rewrite Hpm. rewrite (decide_False (P := i = m)) by lia.
    rewrite decide_True by done.
    rewrite (decide_False (P := j = m)) by lia.
    rewrite (decide_False (P := j = i)) by lia.
    assert (parent j <> i) as Hne by lia.
    specialize (H1 j Hj Hne). rewrite Hpj in H1. done.
Qed.

Lemma heapify_unfold fuel a i :
  (i + 1) * 2 - 1 < length a ->
  heapify (S fuel) defaultCompare a i
  = if decide (chooseMin a i <> i)
    then heapify fuel defaultCompare
           (<[chooseMin a i := rd a i]> (<[i := rd a (chooseMin a i)]> a))
           (chooseMin a i)
    else Some a.
Proof.
  intros Hleft. cbn [heapify]. cbn zeta.
  rewrite (proj2 (Nat.ltb_lt _ _) Hleft).
  pose proof (rd_lookup a ((i + 1) * 2 - 1) Hleft) as HL.
  assert (a !! i = Some (rd a i)) as HI by (apply rd_lookup; lia).
  unfold chooseMin, defaultCompare. cbn zeta.
  rewrite HL, HI. cbn [mbind option_bind].
  destruct ((i + 1) * 2 - 1 + 1 <? length a) eqn:Hright.
  - apply Nat.ltb_lt in Hright.
    pose proof (rd_lookup a ((i + 1) * 2 - 1 + 1) Hright) as HR.
    rewrite HR. cbn [mbind option_bind].
    destruct (rd a ((i + 1) * 2 - 1) <? rd a i)%Z;
      rewrite ?HL, ?HI; cbn [mbind option_bind];
      match goal with |- context [(?x <? ?y)%Z] => destruct (x <? y)%Z end;
      case_decide; try done; try lia;
      rewrite ?HL, ?HI, ?HR; done.
  - cbn [mbind option_bind].
    destruct (rd a ((i + 1) * 2 - 1) <? rd a i)%Z;
      case_decide; try done; try lia;
      rewrite ?HL, ?HI; done.
Qed.

Lemma chooseMin_spec a i :
  (i + 1) * 2 - 1 < length a ->
  let m := chooseMin a i in
  m < length a
  /\ (m = i \/ (0 < m /\ parent m = i /\ (rd a m < rd a i)%Z))
  /\ (rd a m <= rd a i)%Z
  /\ (forall j, 0 < j < length a -> parent j = i -> (rd a m <= rd a j)%Z).
Proof.
  intros Hleft. cbn zeta.
  assert (Hkids : forall j, 0 < j < length a -> parent j = i ->
            j = (i + 1) * 2 - 1
            \/ (j = (i + 1) * 2 - 1 + 1 /\ (i + 1) * 2 - 1 + 1 < length a)).
  { intros j Hj Hp. apply parent_spec in Hp; lia. }
  assert (HpL : parent ((i + 1) * 2 - 1) = i) by (apply parent_spec; lia).
  assert (HpR : parent ((i + 1) * 2 - 1 + 1) = i) by (apply parent_spec; lia).
  unfold chooseMin. cbn zeta.
  destruct ((i + 1) * 2 - 1 + 1 <? length a) eqn:Hright;
    [apply Nat.ltb_lt in Hright | apply Nat.ltb_ge in Hright];
    destruct (rd a ((i + 1) * 2 - 1) <? rd a i)%Z eqn:HL;
    [apply Z.ltb_lt in HL | apply Z.ltb_ge in HL
     | apply Z.ltb_lt in HL | apply Z.ltb_ge in HL].
  1,2: match goal with |- context [(?x <? ?y)%Z] =>
         destruct (x <? y)%Z eqn:HR;
         [apply Z.ltb_lt in HR | apply Z.ltb_ge in HR] end.
  all: (split; [lia|]); (split; [first [by left | right; split; [lia|]; split; [done | lia]]|]);
       (split; [lia|]);
       intros j Hj Hp; destruct (Hkids j Hj Hp) as [->|[-> ?]]; lia.
Qed.

Lemma heapify_ok fuel : forall a i,
  i < length a -> length a <= fuel + i -> downInv a i ->
  exists a', heapify fuel defaultCompare a i = Some a'
             /\ heapOrdered a' /\ a' ≡ₚ a.
Proof.
  induction fuel as [|fuel IH]; intros a i Hi Hfuel Hinv; [lia|].
  destruct (decide ((i + 1) * 2 - 1 < length a)) as [Hleft|Hleft].
  - rewrite heapify_unfold by done.
    destruct (chooseMin_spec a i Hleft) as (Hm & Hcase & Hle & Hmin).
    case_decide as Hne.
    + destruct Hcase as [?|(Hpos & Hpm & Hlt)]; [done|].
      pose proof (parent_lt _ Hpos) as Hp. rewrite Hpm in Hp.
      destruct (IH (<[chooseMin a i := rd a i]>
                      (<[i := rd a (chooseMin a i)]> a)) (chooseMin a i))
        as (a' & Hrun & Hheap & Hperm).
      * by rewrite !length_insert.
      * rewrite !length_insert. lia.
      * by apply downInv_swap.
      * exists a'. split; [done|]. split; [done|].
        rewrite Hperm. apply Permutation_insert_swap; by apply rd_lookup.
    + exists a. split; [done|]. split; [|done].
      rewrite Hne in Hmin.
      by eapply downInv_heapOrdered.
  - cbn [heapify]. cbn zeta.
    rewrite (proj2 (Nat.ltb_ge _ _)) by lia.
    exists a. split; [done|]. split; [|done].
    eapply downInv_heapOrdered; [done|].
    intros j Hj Hp. apply parent_spec in Hp; lia.
Qed.

Lemma heapOrdered_root_minimal a :
  heapOrdered a -> forall j, j < length a -> (rd a 0 <= rd a j)%Z.
Proof.
  intros Hheap j. induction (lt_wf j) as [j _ IH]. intros Hj.
  destruct (decide (j = 0)) as [->|Hne]; [lia|].
  pose proof (parent_lt j ltac:(lia)) as Hp.
  specialize (IH (parent j) Hp ltac:(lia)).
  specialize (Hheap j ltac:(lia)). lia.
Qed.

Lemma heapOrdered_root_le_all a :
  heapOrdered a -> Forall (fun x => (rd a 0 <= x)%Z) a.
Proof.
  intros Hheap. apply Forall_lookup. intros j x Hx.
  pose proof (lookup_lt_Some _ _ _ Hx) as Hj.
  pose proof (heapOrdered_root_minimal a Hheap j Hj) as Hle.
  unfold rd in Hle at 2. by rewrite Hx in Hle.
Qed.

Lemma heapOrdered_nil : heapOrdered [].
Proof. intros j Hj. cbn in Hj. lia. Qed.

Lemma extract_ok q :
  compare q = defaultCompare -> heapOrdered (arr q) -> arr q <> [] ->
  exists v q', extract q = Some (Some v, q')
               /\ compare q' = defaultCompare
               /\ heapOrdered (arr q')
               /\ arr q ≡ₚ v :: arr q'
               /\ Forall (fun x => (v <= x)%Z) (arr q').
Proof.
  intros Hcmp Hheap Hne. destruct q as [cmp a]. cbn in *. subst cmp.
  destruct a as [|x rest]; [done|]. clear Hne.
  pose proof (heapOrdered_root_le_all _ Hheap) as Hmin.
  change (rd (x :: rest) 0) with x in Hmin.
  unfold extract. cbn [arr compare].
  destruct rest as [|y rest'] using rev_ind.
  { exists x. eexists. cbn. split; [reflexivity|]. cbn.
    split; [done|]. split; [apply heapOrdered_nil|]. split; [done|].
    constructor. }
  clear IHrest'.
  assert (Hlen : length (x :: rest' ++ [y]) = S (S (length rest'))).
  { cbn. rewrite length_app. cbn. lia. }
  rewrite Hlen. cbn [Nat.ltb Nat.leb]. cbn [lookup list_lookup mbind option_bind].
  unfold popBack. rewrite app_comm_cons.
  rewrite last_snoc, removelast_last. cbn [mbind option_bind].
  cbn [insert list_insert]. cbn [length].
  destruct (heapify_ok (S (length rest')) (y :: rest') 0)
    as (a' & Hrun & Hheap' & Hperm).
  - cbn. lia.
  - cbn. lia.
  - split.
    + intros j Hj Hp. cbn [length] in Hj.
      pose proof (parent_lt j (proj1 Hj)).
      assert (Hold := Hheap j).
      rewrite Hlen in Hold. specialize (Hold ltac:(lia)).
      destruct j as [|j]; [lia|].
      destruct (parent (S j)) as [|p] eqn:Hpar; [done|].
      change (rd (rest' ++ [y]) p <= rd (rest' ++ [y]) j)%Z in Hold.
      rewrite !rd_app_l in Hold by lia. exact Hold.
    + intros j _ _ Hpos. lia.
  - rewrite Hrun. cbn [mbind option_bind].
    exists x. eexists. split; [reflexivity|]. cbn [arr compare].
    split; [done|]. split; [done|]. split.
    + rewrite Hperm. cbn [app]. constructor.
      apply (Permutation_app_comm rest' [y]).
    + rewrite Hperm. apply Forall_cons in Hmin as [_ Hmin].
      by rewrite (Permutation_app_comm rest' [y]) in Hmin.
Qed.

Lemma addAll_ok vs : forall q,
  compare q = defaultCompare -> heapOrdered (arr q) ->
  exists q', addAll vs q = Some q' /\ compare q' = defaultCompare
             /\ heapOrdered (arr q') /\ arr q' ≡ₚ vs ++ arr q.
Proof.
  induction vs as [|v rest IH]; intros q Hcmp Hheap.
  - exists q. by repeat split.
  - destruct (add_ok v q Hcmp Hheap) as (q1 & Hadd & Hcmp1 & Hheap1 & Hperm1).
    destruct (IH q1 Hcmp1 Hheap1) as (q2 & Hall & Hcmp2 & Hheap2 & Hperm2).
    exists q2. cbn [addAll]. rewrite Hadd. cbn [mbind option_bind].
    split; [done|]. split; [done|]. split; [done|].
    rewrite Hperm2, Hperm1. cbn. by rewrite Permutation_middle.
Qed.

Lemma extractAll_ok fuel : forall q,
  compare q = defaultCompare -> heapOrdered (arr q) ->
  length (arr q) <= fuel ->
  exists out q', extractAll fuel q = Some (out, q')
                 /\ out ≡ₚ arr q
                 /\ StronglySorted Z.le out
                 /\ arr q' = [].
Proof.
  induction fuel as [|fuel IH]; intros q Hcmp Hheap Hlen.
  - destruct q as [cmp [|x a]]; [|cbn in Hlen; lia].
    eexists _, _. cbn. split; [reflexivity|]. repeat split; constructor.
  - destruct (decide (arr q = [])) as [Hnil|Hne].
    + destruct q as [cmp a]. cbn in Hnil. subst a.
      eexists _, _. cbn. split; [reflexivity|]. repeat split; constructor.
    + destruct (extract_ok q Hcmp Hheap Hne)
        as (v & q1 & Hext & Hcmp1 & Hheap1 & Hperm1 & Hmin).
      destruct (IH q1 Hcmp1 Hheap1) as (out & q2 & Hrun & Hperm2 & Hsorted & Hnil).
      { apply Permutation_length in Hperm1. cbn in Hperm1. lia. }
      exists (v :: out), q2. cbn [extractAll].
      assert (fst (empty q) = false) as ->.
      { destruct q as [cmp [|x a]]; [done|]. done. }
      rewrite Hext. cbn [mbind option_bind]. rewrite Hrun.
      cbn [mbind option_bind].
      split; [done|]. split; [by rewrite Hperm1, Hperm2|]. split; [|done].
      constructor; [done|]. by rewrite Hperm2.
Qed.

(** C4: for every list [vs] of N integer values, inserting them one after
    the other into a fresh queue with the default comparison succeeds and
    leaves a queue of N elements; extracting until the queue is empty then
    takes N rounds and yields a list that is a permutation of [vs] (exactly
    those values, with their multiplicities) in non-decreasing order. *)
Theorem priority_queue_extracts_in_order (vs : list Z) :
  exists (q : T Z) (out : list Z) (q' : T Z),
    addAll vs (_constructor defaultCompare) = Some q
    /\ fst (count q) = length vs
    /\ extractAll (length vs) q = Some (out, q')
    /\ out ≡ₚ vs
    /\ Sorted Z.le out
    /\ fst (empty q') = true.
Proof.
  destruct (addAll_ok vs (_constructor defaultCompare) eq_refl heapOrdered_nil)
    as (q & Hadd & Hcmp & Hheap & Hperm).
  rewrite app_nil_r in Hperm.
  destruct (extractAll_ok (length vs) q Hcmp Hheap)
    as (out & q' & Hrun & Hperm' & Hsorted & Hnil).
  { by rewrite Hperm. }
  exists q, out, q'. split; [done|]. split; [by cbn; rewrite Hperm|].
  split; [done|]. split; [by rewrite Hperm', Hperm|].
  split; [by apply StronglySorted_Sorted|].
  unfold empty. by rewrite Hnil.
Qed.

End PriorityQueueClaims.

(** ** Association lists *)

Section AListFacts.
Import AList.

Lemma alist_get_set_eq {V} k (v : V) l :
  alist_get k (alist_set k v l) = Some v.
Proof.
  induction l as [|[k' v'] rest IH]; cbn.
  - by rewrite String.eqb_refl.
  - destruct (String.eqb k k') eqn:Hk; cbn.
    + by rewrite String.eqb_refl.
    + by rewrite Hk.
Qed.

Lemma alist_get_set_ne {V} k k' (v : V) l :
  k' <> k -> alist_get k' (alist_set k v l) = alist_get k' l.
Proof.
  intros Hne. induction l as [|[k0 v0] rest IH]; cbn.
  - by rewrite (proj2 (String.eqb_neq _ _) Hne).
  - destruct (String.eqb k k0) eqn:Hk; cbn.
    + apply String.eqb_eq in Hk as <-.
      by rewrite (proj2 (String.eqb_neq _ _) Hne).
    + by rewrite IH.
Qed.

Lemma alist_get_None {V} k (l : list (string * V)) :
  alist_get k l = None <-> k ∉ fst <$> l.
Proof.
  induction l as [|[k' v'] rest IH]; cbn.
  - split; [intros _; apply not_elem_of_nil | done].
  - rewrite not_elem_of_cons. destruct (String.eqb k k') eqn:Hk.
    + apply String.eqb_eq in Hk. split; [done | intros [? _]; done].
    + apply String.eqb_neq in Hk. rewrite IH. tauto.
Qed.

Lemma alist_get_Some_elem {V} k (v : V) l :
  alist_get k l = Some v -> (k, v) ∈ l.
Proof.
  induction l as [|[k' v'] rest IH]; cbn; [done|].
  destruct (String.eqb k k') eqn:Hk.
  - apply String.eqb_eq in Hk as ->. intros [= ->]. by left.
  - intros H. right. by apply IH.
Qed.

Lemma alist_get_elem {V} k (v : V) l :
  NoDup (fst <$> l) -> (k, v) ∈ l -> alist_get k l = Some v.
Proof.
  induction l as [|[k' v'] rest IH]; cbn; intros Hnd Hin.
  - by apply elem_of_nil in Hin.
  - apply NoDup_cons in Hnd as [Hk' Hnd].
    apply elem_of_cons in Hin as [[= Hk1 Hv1]|Hin]; [subst k v|].
    + by rewrite String.eqb_refl.
    + destruct (String.eqb k k') eqn:Hk.
      * apply String.eqb_eq in Hk as ->. destruct Hk'.
        apply list_elem_of_fmap. by exists (k', v).
      * by apply IH.
Qed.

Lemma alist_set_fresh {V} k (v : V) l :
  alist_get k l = None -> alist_set k v l = l ++ [(k, v)].
Proof.
  induction l as [|[k' v'] rest IH]; cbn; [done|].
  destruct (String.eqb k k'); [done|]. intros H. by rewrite IH.
Qed.

Lemma alist_set_keys {V} k (v : V) l k' :
  k' ∈ fst <$> alist_set k v l <-> k' = k \/ k' ∈ fst <$> l.
Proof.
  induction l as [|[k0 v0] rest IH]; cbn.
  - rewrite list_elem_of_singleton. split; [by left | intros [?|H]; [done|]].
    by apply elem_of_nil in H.
  - destruct (String.eqb k k0) eqn:Hk; cbn; rewrite !elem_of_cons.
    + apply String.eqb_eq in Hk as <-. tauto.
    + rewrite IH. tauto.
Qed.

End AListFacts.

(** ** The configuration manager *)

Section ConfigManagerClaims.
Import ConfigManager.
Local Open Scope nat_scope.


Lemma parseJSON_array elems n :
  parseJSON (JArray elems) n
  = (VArray n (fst (parseElems elems (S n))), snd (parseElems elems (S n))).
Proof.
  cbn [parseJSON]. fold parseElems.
  by destruct (parseElems elems (S n)).
Qed.

Lemma parseJSON_object members n :
  parseJSON (JObject members) n
  = (VMap n (fst (parseMembers members (S n))),
     snd (parseMembers members (S n))).
Proof.
  cbn [parseJSON]. fold parseMembers.
  by destruct (parseMembers members (S n)).
Qed.

(** Parsing what was printed gives back a value that prints the same. *)
Lemma toJSON_parseJSON j : forall n, toJSON (fst (parseJSON j n)) = j.
Proof.
  induction j as [|b|z|s|elems IH|members IH] using JSON_nested_ind;
    intros n; try reflexivity.
  - rewrite parseJSON_array. cbn [fst toJSON]. f_equal.
    generalize (S n). induction IH as [|x rest Hx _ IHrest]; intros m.
    + reflexivity.
    + cbn [parseElems]. specialize (Hx m).
      destruct (parseJSON x m) as [v n1]. specialize (IHrest n1).
      destruct (parseElems rest n1) as [vs n2]. cbn in *. congruence.
  - rewrite parseJSON_object. cbn [fst toJSON]. f_equal.
    generalize (S n). induction IH as [|[k x] rest Hx _ IHrest]; intros m.
    + reflexivity.
    + cbn [parseMembers]. specialize (Hx m). cbn [snd] in Hx.
      destruct (parseJSON x m) as [v n1]. specialize (IHrest n1).
      destruct (parseMembers rest n1) as [es n2]. cbn in *. congruence.
Qed.

(** The objects of a parsed value are new: their identities lie between
    the counter before and the counter after. *)
Lemma parseJSON_fresh j : forall n,
  n <= snd (parseJSON j n)
  /\ Forall (fun i => n <= i < snd (parseJSON j n)) (ids (fst (parseJSON j n))).
Proof.
  induction j as [|b|z|s|elems IH|members IH] using JSON_nested_ind;
    intros n; try (cbn; split; [lia | constructor]).
  - rewrite parseJSON_array. cbn [fst snd ids].
    assert (Hrec : forall m,
               m <= snd (parseElems elems m)
               /\ Forall (fun i => m <= i < snd (parseElems elems m))
                    (flat_map ids (fst (parseElems elems m)))).
    { induction IH as [|x rest Hx _ IHrest]; intros m.
      - cbn. split; [lia | constructor].
      - cbn [parseElems]. specialize (Hx m).
        destruct (parseJSON x m) as [v n1]. cbn [fst snd] in Hx.
        specialize (IHrest n1).
        destruct (parseElems rest n1) as [vs n2]. cbn [fst snd] in *.
        destruct Hx as [Hx1 Hx2], IHrest as [Hr1 Hr2].
        split; [lia|]. cbn [flat_map]. apply Forall_app. split.
        + eapply Forall_impl; [exact Hx2|]. cbn. intros; lia.
        + eapply Forall_impl; [exact Hr2|]. cbn. intros; lia. }
    destruct (Hrec (S n)) as [H1 H2]. split; [lia|].
    constructor; [lia|]. eapply Forall_impl; [exact H2|]. cbn. intros; lia.
  - rewrite parseJSON_object. cbn [fst snd ids].
    assert (Hrec : forall m,
               m <= snd (parseMembers members m)
               /\ Forall (fun i => m <= i < snd (parseMembers members m))
                    (flat_map (fun kv => ids (snd kv))
                       (fst (parseMembers members m)))).
    { induction IH as [|[k x] rest Hx _ IHrest]; intros m.
      - cbn. split; [lia | constructor].
      - cbn [parseMembers]. specialize (Hx m). cbn [snd] in Hx.
        destruct (parseJSON x m) as [v n1]. cbn [fst snd] in Hx.
        specialize (IHrest n1).
        destruct (parseMembers rest n1) as [es n2]. cbn [fst snd] in *.
        destruct Hx as [Hx1 Hx2], IHrest as [Hr1 Hr2].
        split; [lia|]. cbn [flat_map snd]. apply Forall_app. split.
        + eapply Forall_impl; [exact Hx2|]. cbn. intros; lia.
        + eapply Forall_impl; [exact Hr2|]. cbn. intros; lia. }
    destruct (Hrec (S n)) as [H1 H2]. split; [lia|].
    constructor; [lia|]. eapply Forall_impl; [exact H2|]. cbn. intros; lia.
Qed.


Lemma JSON_eqb_eq a : forall b, JSON_eqb a b = true -> a = b.
Proof.
  induction a as [|x|x|x|xs IH|xs IH] using JSON_nested_ind;
    intros [|y|y|y|ys|ys] Heq; cbn in Heq; try discriminate.
  - reflexivity.
  - by apply Bool.eqb_prop in Heq as ->.
  - by apply Z.eqb_eq in Heq as ->.
  - by apply String.eqb_eq in Heq as ->.
  - f_equal. revert ys Heq.
    induction IH as [|x xs' Hx _ IHxs]; intros [|y ys'] Heq;
      try discriminate; [done|].
    apply andb_true_iff in Heq as [H1 H2].
    f_equal; [by apply Hx | by apply IHxs].
  - f_equal. revert ys Heq.
    induction IH as [|[k x] xs' Hx _ IHxs]; intros [|[k' y] ys'] Heq;
      try discriminate; [done|].
    apply andb_true_iff in Heq as [H1 H2].
    apply andb_true_iff in H1 as [H0 H1].
    apply String.eqb_eq in H0 as ->. cbn [snd] in Hx.
    f_equal; [f_equal; by apply Hx | by apply IHxs].
Qed.

Lemma toJSON_null v : toJSON v = JNull -> v = VVoid.
Proof. by destruct v. Qed.

Lemma parseJSON_void j n : fst (parseJSON j n) = VVoid -> j = JNull.
Proof.
  intros H. rewrite <- (toJSON_parseJSON j n). by rewrite H.
Qed.

(** A change to an object that a value does not contain leaves the value
    as it is. *)
Lemma mutateObject_absent i f v : i ∉ ids v -> mutateObject i f v = v.
Proof.
  induction v as [|b|z|s|id elems IH|id entries IH] using Value_nested_ind;
    intros Hi; try reflexivity.
  - cbn [mutateObject ids] in *. apply not_elem_of_cons in Hi as [Hne Hi].
    rewrite decide_False by done. f_equal.
    induction IH as [|x rest Hx _ IHrest]; [done|].
    cbn [flat_map] in Hi. apply not_elem_of_app in Hi as [Hi1 Hi2].
    cbn [map]. f_equal; [by apply Hx | by apply IHrest].
  - cbn [mutateObject ids] in *. apply not_elem_of_cons in Hi as [Hne Hi].
    rewrite decide_False by done. f_equal.
    induction IH as [|[k x] rest Hx _ IHrest]; [done|].
    cbn [flat_map snd] in Hi. apply not_elem_of_app in Hi as [Hi1 Hi2].
    cbn [map fst snd]. f_equal; [f_equal; by apply Hx | by apply IHrest].
Qed.

Lemma Forall_ids_alist_get (P : nat -> Prop) k entries :
  Forall P (flat_map (fun kv => ids (snd kv)) entries) ->
  Forall P (ids (default VVoid (alist_get k entries))).
Proof.
  induction entries as [|[k' v'] rest IH]; cbn; [constructor|].
  intros H. apply Forall_app in H as [H1 H2].
  destruct (String.eqb k k'); [done | by apply IH].
Qed.

Lemma Forall_ids_alist_set (P : nat -> Prop) k v entries :
  Forall P (flat_map (fun kv => ids (snd kv)) entries) ->
  Forall P (ids v) ->
  Forall P (flat_map (fun kv => ids (snd kv)) (alist_set k v entries)).
Proof.
  intros H Hv. induction entries as [|[k' v'] rest IH]; cbn.
  - by rewrite app_nil_r.
  - cbn in H. apply Forall_app in H as [H1 H2].
    destruct (String.eqb k k'); cbn; apply Forall_app; auto.
Qed.

Lemma mapGet_mapSet group k v :
  isMap group = true -> mapGet (mapSet group k v) k = v.
Proof.
  destruct group; try discriminate. intros _. cbn.
  by rewrite alist_get_set_eq.
Qed.

Lemma isMap_mapSet group k v : isMap (mapSet group k v) = isMap group.
Proof. by destruct group. Qed.

Lemma Forall_ids_mapGet (P : nat -> Prop) group k :
  Forall P (ids group) -> Forall P (ids (mapGet group k)).
Proof.
  destruct group; cbn; try constructor.
  intros H. apply Forall_cons in H as [_ H]. by apply Forall_ids_alist_get.
Qed.

Lemma Forall_ids_mapSet (P : nat -> Prop) group k v :
  Forall P (ids group) -> Forall P (ids v) ->
  Forall P (ids (mapSet group k v)).
Proof.
  destruct group; cbn; try done.
  intros H Hv. apply Forall_cons in H as [H0 H].
  constructor; [done|]. by apply Forall_ids_alist_set.
Qed.

(** What [setIn] leaves behind: a map in which the walk along the same
    pieces arrives at a group whose entry under [key] prints as
    [newJSON], made of the objects that were there and of new ones. *)
Lemma setIn_spec key newJSON groupNames : forall group n,
  isMap group = true ->
  let '(group', n', _) := setIn group groupNames key newJSON n in
  isMap group' = true
  /\ n <= n'
  /\ (forall P : nat -> Prop,
        Forall P (ids group) -> (forall i, n <= i < n' -> P i) ->
        Forall P (ids group'))
  /\ exists leaf, findGroup group' groupNames = Some leaf
                  /\ toJSON (mapGet leaf key) = newJSON.
Proof.
  induction groupNames as [|groupName rest IH]; intros group n Hmap.
  - cbn [setIn findGroup].
    destruct (JSON_eqb (toJSON (mapGet group key)) newJSON) eqn:Heq;
      cbn [negb].
    + apply JSON_eqb_eq in Heq. split; [done|]. split; [lia|].
      split; [auto|]. by exists group.
    + pose proof (toJSON_parseJSON newJSON n) as Hcopy.
      pose proof (parseJSON_fresh newJSON n) as [Hle Hfresh].
      destruct (parseJSON newJSON n) as [copy n']. cbn [fst snd] in *.
      split; [by rewrite isMap_mapSet|]. split; [done|]. split.
      * intros P HP Hnew. apply Forall_ids_mapSet; [done|].
        eapply Forall_impl; [exact Hfresh|]. cbn. auto.
      * eexists. split; [done|]. by rewrite mapGet_mapSet.
  - cbn [setIn findGroup].
    destruct (isMap (mapGet group groupName)) eqn:Hsub.
    + specialize (IH (mapGet group groupName) n Hsub).
      destruct (setIn (mapGet group groupName) rest key newJSON n)
        as [[sub' n'] changed].
      destruct IH as (Hmap' & Hle & Hids & leaf & Hleaf & Hval).
      split; [by rewrite isMap_mapSet|]. split; [done|]. split.
      * intros P HP Hnew. apply Forall_ids_mapSet; [done|].
        apply Hids; [|done]. by apply Forall_ids_mapGet.
      * exists leaf. rewrite mapGet_mapSet by done. by rewrite Hmap'.
    + specialize (IH (VMap n []) (S n) eq_refl).
      destruct (setIn (VMap n []) rest key newJSON (S n))
        as [[sub' n'] changed].
      destruct IH as (Hmap' & Hle & Hids & leaf & Hleaf & Hval).
      split; [by rewrite isMap_mapSet|]. split; [lia|]. split.
      * intros P HP Hnew. apply Forall_ids_mapSet; [done|].
        apply Hids; [|intros; apply Hnew; lia].
        cbn. constructor; [apply Hnew; lia | constructor].
      * exists leaf. rewrite mapGet_mapSet by done. by rewrite Hmap'.
Qed.

Lemma setValue_nonvoid key value this w :
  value <> VVoid ->
  setValue key value this w
  = let '(data', next', changed) :=
      setIn (data this) (snd (keyPath key)) (fst (keyPath key))
        (toJSON value) (nextId w) in
    let this' := mkT data' (filename this) (autoSave this) in
    let w' := mkWorld next' (files w) in
    (this', if changed && autoSave this then save this' w' else w').
Proof.
  intros Hv. unfold keyPath.
  destruct value; try done; unfold setValue;
    by destruct (if containsChar "." key then _ else _).
Qed.

Lemma storedValue_keyPath key this :
  storedValue key this
  = match findGroup (data this) (snd (keyPath key)) with
    | None => VVoid
    | Some group => mapGet group (fst (keyPath key))
    end.
Proof.
  unfold storedValue, keyPath.
  by destruct (if containsChar "." key then _ else _).
Qed.

Lemma getValue_keyPath key defaultValue this w :
  getValue key defaultValue this w
  = let miss (w1 : World) :=
      match defaultValue with
      | VVoid => (defaultValue, this, w1)
      | _ => let '(this', w') := setValue key defaultValue this w1 in
             (defaultValue, this', w')
      end in
    match findGroup (data this) (snd (keyPath key)) with
    | None => miss w
    | Some group =>
        let '(value, next') :=
          parseJSON (toJSON (mapGet group (fst (keyPath key)))) (nextId w) in
        match value with
        | VVoid => miss (mkWorld next' (files w))
        | _ => (value, this, mkWorld next' (files w))
        end
    end.
Proof.
  unfold getValue, keyPath.
  destruct (if containsChar "." key then _ else _) as [k gs]. cbn [fst snd].
  destruct (findGroup (data this) gs); [|done].
  destruct (parseJSON _ _) as [value next']. by destruct value.
Qed.

Lemma setValue_spec key value this w :
  value <> VVoid -> storeBelow this w ->
  storeBelow (fst (setValue key value this w)) (snd (setValue key value this w))
  /\ nextId w <= nextId (snd (setValue key value this w))
  /\ (forall P : nat -> Prop,
        Forall P (ids (data this)) ->
        (forall i, nextId w <= i < nextId (snd (setValue key value this w)) ->
           P i) ->
        Forall P (ids (data (fst (setValue key value this w)))))
  /\ toJSON (storedValue key (fst (setValue key value this w))) = toJSON value.
Proof.
  intros Hv [Hmap Hbelow]. rewrite setValue_nonvoid by done.
  pose proof (setIn_spec (fst (keyPath key)) (toJSON value)
                (snd (keyPath key)) (data this) (nextId w) Hmap) as Hset.
  destruct (setIn _ _ _ _ _) as [[data' n'] changed].
  destruct Hset as (Hmap' & Hle & Hids & leaf & Hleaf & Hval).
  cbn zeta.
  assert (Hnext : nextId (if changed && autoSave this
                          then save (mkT data' (filename this) (autoSave this))
                                    (mkWorld n' (files w))
                          else mkWorld n' (files w)) = n').
  { by destruct (changed && autoSave this). }
  cbn [fst snd]. rewrite Hnext. cbn [data].
  split; [|split; [done|split; [done|]]].
  - split; [done|]. cbn [data]. rewrite Hnext. apply Hids.
    + eapply Forall_impl; [exact Hbelow|]. cbn. intros; lia.
    + intros; lia.
  - rewrite storedValue_keyPath. cbn [data]. by rewrite Hleaf.
Qed.

Lemma Value_void_dec (v : Value) : {v = VVoid} + {v <> VVoid}.
Proof. destruct v; (by left) || (by right). Qed.

Lemma getValue_of_stored key later this w2 j :
  toJSON (storedValue key this) = j -> j <> JNull ->
  toJSON (fst (fst (getValue key later this w2))) = j
  /\ snd (fst (getValue key later this w2)) = this.
Proof.
  intros Hstored Hj. rewrite getValue_keyPath. cbn zeta.
  rewrite storedValue_keyPath in Hstored.
  destruct (findGroup (data this) (snd (keyPath key))) as [group|];
    [|by cbn in Hstored].
  rewrite Hstored.
  pose proof (toJSON_parseJSON j (nextId w2)) as Hcopy.
  pose proof (parseJSON_void j (nextId w2)) as Hvoid.
  destruct (parseJSON j (nextId w2)) as [value next']. cbn [fst] in *.
  destruct value; try (by split); by destruct Hj; apply Hvoid.
Qed.

Lemma getValue_miss key defaultValue this w :
  storeBelow this w ->
  Forall (fun i => i < nextId w) (ids defaultValue) ->
  Forall (fun i => i ∉ ids (data this)) (ids defaultValue) ->
  storedValue key this = VVoid ->
  getValuePost key defaultValue this w
    match defaultValue with
    | VVoid => (defaultValue, this, w)
    | _ => let '(this', w') := setValue key defaultValue this w in
           (defaultValue, this', w')
    end.
Proof.
  intros Hstore Hold Hdisj Hunset.
  destruct (Value_void_dec defaultValue) as [->|Hne].
  - unfold getValuePost. cbn [fst snd].
    split; [done|]. split; [done|]. rewrite Hunset.
    split; [done|]. split; [|done]. intros i Hi. by apply elem_of_nil in Hi.
  - assert (match defaultValue with
            | VVoid => (defaultValue, this, w)
            | _ => let '(this', w') := setValue key defaultValue this w in
                   (defaultValue, this', w')
            end
            = (defaultValue, fst (setValue key defaultValue this w),
               snd (setValue key defaultValue this w))) as ->.
    { destruct defaultValue; try done;
        by destruct (setValue key _ this w). }
    destruct (setValue_spec key defaultValue this w Hne Hstore)
      as (Hstore' & Hle & Hids & Hval).
    unfold getValuePost. cbn [fst snd].
    split; [|split; [done|split; [done|split; [|done]]]].
    + intros _ _. split; [done|]. split; [done|].
      intros later w2. apply getValue_of_stored; [done|].
      intros Hnull. by apply toJSON_null in Hnull.
    + intros i Hi.
      assert (i ∉ ids (data (fst (setValue key defaultValue this w)))) as Hnot.
      { intros Hin.
        assert (Forall (fun j => j <> i)
                  (ids (data (fst (setValue key defaultValue this w)))))
          as Hall.
        { apply Hids.
          - rewrite Forall_forall in Hdisj.
            apply Forall_forall. intros j Hj ->. by eapply Hdisj.
          - intros j Hj ->. rewrite Forall_forall in Hold.
            specialize (Hold _ Hi). lia. }
        rewrite Forall_forall in Hall. by eapply Hall. }
      split; [done|]. intros f. by apply mutateObject_absent.
Qed.

(** C8: for a manager whose store holds only objects of its own (older
    than the allocation counter, and none of them part of the default
    value), [getValue key defaultValue]
    - on a key that is not set, with a default that is not void, returns
      the default and memorizes it: the store then holds under the key a
      value that prints as the default, and every later [getValue] on the
      key returns a value that prints as the default and leaves the
      manager as it is;
    - on a key that is not set, with a void default, returns void and
      changes nothing;
    - in every case returns a value that prints as what the store holds
      under the key afterwards and shares no object with the store, so a
      change made to any object of the returned value leaves the store as
      it is. *)
Theorem getValue_default_memorized_and_copied
    (key : string) (defaultValue : Value) (this : T) (w : World) :
  storeBelow this w ->
  Forall (fun i => i < nextId w) (ids defaultValue) ->
  Forall (fun i => i ∉ ids (data this)) (ids defaultValue) ->
  let r := fst (fst (getValue key defaultValue this w)) in
  let this' := snd (fst (getValue key defaultValue this w)) in
  let w' := snd (getValue key defaultValue this w) in
  (storedValue key this = VVoid -> defaultValue <> VVoid ->
     r = defaultValue
     /\ toJSON (storedValue key this') = toJSON defaultValue
     /\ (forall (later : Value) (w2 : World),
           toJSON (fst (fst (getValue key later this' w2)))
           = toJSON defaultValue
           /\ snd (fst (getValue key later this' w2)) = this'))
  /\ (storedValue key this = VVoid -> defaultValue = VVoid ->
      r = VVoid /\ this' = this /\ w' = w)
  /\ toJSON r = toJSON (storedValue key this')
  /\ (forall i, i ∈ ids r ->
        (i ∉ ids (data this'))
        /\ (forall f, mutateObject i f (data this') = data this'))
  /\ storeBelow this' w'.
Proof.
  intros Hstore Hold Hdisj.
  change (getValuePost key defaultValue this w
            (getValue key defaultValue this w)).
  rewrite getValue_keyPath. cbn zeta.
  pose proof (storedValue_keyPath key this) as Hstored.
  destruct (findGroup (data this) (snd (keyPath key))) as [group|] eqn:Hgroup.
  2:{ by apply getValue_miss. }
  pose proof (toJSON_parseJSON
                (toJSON (mapGet group (fst (keyPath key)))) (nextId w)) as Hcopy.
  pose proof (parseJSON_void
                (toJSON (mapGet group (fst (keyPath key)))) (nextId w)) as Hvoid.
  pose proof (parseJSON_fresh
                (toJSON (mapGet group (fst (keyPath key)))) (nextId w))
    as [Hle Hfresh].
  destruct (parseJSON _ _) as [value next'] eqn:Hparse. cbn [fst snd] in *.
  destruct (Value_void_dec value) as [->|Hne].
  - specialize (Hvoid eq_refl). apply toJSON_null in Hvoid.
    rewrite Hvoid in Hparse. cbn in Hparse.
    assert (next' = nextId w) as -> by congruence.
    assert (mkWorld (nextId w) (files w) = w) as -> by (by destruct w).
    apply getValue_miss; try done. by rewrite Hstored.
  - assert (match value with
            | VVoid =>
                match defaultValue with
                | VVoid => (defaultValue, this, mkWorld next' (files w))
                | _ =>
                    let '(this', w') :=
                      setValue key defaultValue this
                        (mkWorld next' (files w)) in
                    (defaultValue, this', w')
                end
            | _ => (value, this, mkWorld next' (files w))
            end = (value, this, mkWorld next' (files w))) as ->.
    { by destruct value. }
    assert (storedValue key this <> VVoid) as Hset.
    { rewrite Hstored. intros Heq. rewrite Heq in Hcopy. cbn in Hcopy.
      by apply toJSON_null in Hcopy. }
    unfold getValuePost. cbn [fst snd].
    split; [done|]. split; [done|]. split; [by rewrite Hstored|].
    destruct Hstore as [Hmap Hbelow]. split.
    + intros i Hi. rewrite Forall_forall in Hfresh, Hbelow.
      assert (i ∉ ids (data this)) as Hnot.
      { intros Hin. specialize (Hfresh _ Hi). specialize (Hbelow _ Hin). lia. }
      split; [done|]. intros f. by apply mutateObject_absent.
    + split; [done|]. cbn [nextId].
      eapply Forall_impl; [exact Hbelow|]. cbn. intros; lia.
Qed.

Lemma getValue_default_memorized_and_copied_witness :
  let this := mkT (VMap 0 [("Foo"%string, VNumber 1)]) "config.json" false in
  let w := mkWorld 10 [] in
  let defaultValue := VArray 5 [VNumber 2; VString "x"] in
  storeBelow this w
  /\ storedValue "Foo.bar.a1" this = VVoid
  /\ fst (fst (getValue "Foo.bar.a1" defaultValue this w)) = defaultValue
  /\ toJSON (storedValue "Foo.bar.a1"
               (snd (fst (getValue "Foo.bar.a1" defaultValue this w))))
     = JArray [JNumber 2; JString "x"].
Proof.
  cbn zeta.
  assert (Hstore : storeBelow
                     (mkT (VMap 0 [("Foo"%string, VNumber 1)]) "config.json" false)
                     (mkWorld 10 [])).
  { split; [reflexivity|]. repeat constructor. }
  split; [exact Hstore|]. split; [reflexivity|].
  destruct (getValue_default_memorized_and_copied "Foo.bar.a1"
              (VArray 5 [VNumber 2; VString "x"])
              (mkT (VMap 0 [("Foo"%string, VNumber 1)]) "config.json" false)
              (mkWorld 10 []) Hstore) as (Ha & _).
  - repeat constructor.
  - repeat constructor. vm_compute. intros H. inversion H as [|? ? ? H'].
    inversion H'.
  - destruct Ha as (Hr & Hs & _); [reflexivity | discriminate |].
    split; [exact Hr | exact Hs].
Defined.
End ConfigManagerClaims.

(** ** Object serialization *)

Section ObjectSerializationClaims.
Import ObjectSerialization.
Local Open Scope nat_scope.

(** *** Reconstruction from a description read in order *)

Lemma extends_refl w : extends w w.
Proof. split; [lia | done]. Qed.

Lemma extends_trans w1 w2 w3 : extends w1 w2 -> extends w2 w3 -> extends w1 w3.
Proof.
  intros [H1 H2] [H3 H4]. split; [lia|].
  intros a Ha. rewrite H4 by lia. by apply H2.
Qed.

Lemma isExt_lt h a : isExt h a -> a < length h.
Proof. intros [attrs H]. by eapply lookup_lt_Some. Qed.

Lemma extends_isExt w w' a : extends w w' -> isExt (heap w) a -> isExt (heap w') a.
Proof.
  intros [_ H] Hext. pose proof (isExt_lt _ _ Hext) as Hlt.
  destruct Hext as [attrs Ha]. exists attrs. by rewrite H.
Qed.

Lemma dstOk_extends w w' c : extends w w' -> dstOk w c -> dstOk w' c.
Proof. intros Hext Hok i a Hi. eapply extends_isExt; eauto. Qed.

(** The attribute that holds the object number is one of the keys that
    reconstruction passes over. *)
Lemma skipped_objNrAttr : skipped objNrAttr = true.
Proof. reflexivity. Qed.

Lemma entry_not_reserved key es :
  reserved key = true ->
  Forall (fun kd : string * Description => reserved (fst kd) = false) es ->
  entry key es = DVoid.
Proof.
  intros Hkey Hes. unfold entry.
  assert (alist_get key es = None) as ->; [|done].
  apply alist_get_None. intros Hin.
  apply list_elem_of_fmap in Hin as ([k d] & -> & Hin).
  rewrite Forall_forall in Hes. specialize (Hes _ Hin). cbn in *. congruence.
Qed.

(** [registerObject] with a given id, on an [ExtObject] whose number, if
    it has one, is a number. *)
Lemma registerObject_given a i w c attrs :
  heap w !! a = Some (OExt attrs) ->
  objNr attrs <> None ->
  exists attrs' g' nr,
    registerObject a (Some i) w c
    = Some (i, mkWorld (<[a := OExt attrs']> (heap w)) g' (warnings w),
            mkContext (<[nr := i]> (objRegistry_NrToObjId c))
                      (<[i := a]> (objRegistry_ObjIdToObj c))
                      (id c) (counter c))
    /\ objNr attrs' = Some (Some nr)
    /\ (forall k, k <> objNrAttr -> alist_get k attrs' = alist_get k attrs).
Proof.
  intros Ha Hnr. unfold registerObject. rewrite Ha.
  unfold objNr in *.
  destruct (alist_get objNrAttr attrs) as [v|] eqn:Hget.
  - destruct v; try done. rewrite Hget. cbn.
    eexists attrs, _, _. split; [reflexivity|].
    rewrite Hget. by split.
  - rewrite alist_get_set_eq. cbn.
    eexists _, _, _. split; [reflexivity|].
    rewrite alist_get_set_eq. split; [done|].
    intros k Hk. by apply alist_get_set_ne.
Qed.

Lemma heap_setObject_eq a o w :
  a < length (heap w) -> heap (setObject a o w) !! a = Some o.
Proof. intros H. cbn. by apply list_lookup_insert_eq. Qed.

Lemma heap_setObject_ne a b o w :
  a <> b -> heap (setObject a o w) !! b = heap w !! b.
Proof. intros H. cbn. by apply list_lookup_insert_ne. Qed.

Lemma length_setObject a o w : length (heap (setObject a o w)) = length (heap w).
Proof. cbn. by rewrite length_insert. Qed.

Lemma dstOk_setObject a o w c :
  dstOk w c -> (isExt (heap w) a -> exists attrs, o = OExt attrs) ->
  dstOk (setObject a o w) c.
Proof.
  intros Hok Ho i b Hi. specialize (Hok i b Hi).
  destruct (decide (a = b)) as [->|Hne].
  - destruct (Ho Hok) as [attrs ->]. exists attrs.
    apply heap_setObject_eq. by apply isExt_lt.
  - destruct Hok as [attrs Hb]. exists attrs. by rewrite heap_setObject_ne.
Qed.

Lemma createElems_scan n (Hrec : createSpec n) : forall ds K K' arr w c elems,
  ScanList (Scan n) K ds K' -> dom (objRegistry_ObjIdToObj c) = K ->
  dstOk w c -> heap w !! arr = Some (OArray elems) ->
  exists w' c', createElems (createObject n) arr ds w c = Some (w', c')
    /\ dom (objRegistry_ObjIdToObj c') = K'
    /\ objRegistry_ObjIdToObj c ⊆ objRegistry_ObjIdToObj c'
    /\ dstOk w' c'
    /\ extendsExcept arr w w'
    /\ exists elems', heap w' !! arr = Some (OArray elems').
Proof.
  induction ds as [|d rest IH]; intros K K' arr w c elems Hscan Hdom Hok Harr.
  - cbn in Hscan. subst K'. exists w, c. cbn. split; [done|]. split; [done|].
    split; [done|]. split; [done|]. split; [by split|]. by exists elems.
  - cbn in Hscan. destruct Hscan as (K1 & Hd & Hrest).
    destruct (Hrec d K K1 w c Hd Hdom Hok)
      as ([[v w1] c1] & Hrun & Hdom1 & Hsub1 & Hok1 & Hext1 & _).
    cbn [fst snd] in *.
    pose proof (lookup_lt_Some _ _ _ Harr) as Hlt.
    assert (Harr1 : heap w1 !! arr = Some (OArray elems)).
    { destruct Hext1 as [_ H]. by rewrite H. }
    assert (Hlt1 : arr < length (heap w1)) by (by eapply lookup_lt_Some).
    destruct (IH K1 K' arr (setObject arr (OArray (elems ++ [v])) w1) c1
                (elems ++ [v]) Hrest Hdom1)
      as (w' & c' & Hrun' & Hdom' & Hsub' & Hok' & Hext' & Harr').
    { apply dstOk_setObject; [done|]. intros [attrs Hx]. congruence. }
    { by apply heap_setObject_eq. }
    exists w', c'. cbn [createElems]. rewrite Hrun. cbn [mbind option_bind].
    unfold pushBack. rewrite Harr1. cbn [mbind option_bind].
    split; [done|]. split; [done|]. split; [by etrans|]. split; [done|].
    split; [|done].
    destruct Hext1 as [Hl1 Hf1], Hext' as [Hl' Hf'].
    rewrite length_setObject in Hl', Hf'. split; [lia|].
    intros a Ha Hne. rewrite Hf' by (lia || done).
    rewrite heap_setObject_ne by done. by apply Hf1.
Qed.

Lemma createEntries_scan n (Hrec : createSpec n) : forall es K K' m w c entries,
  ScanEntries (Scan n) K es K' -> dom (objRegistry_ObjIdToObj c) = K ->
  dstOk w c -> heap w !! m = Some (OMap entries) ->
  exists w' c', createEntries (createObject n) m es w c = Some (w', c')
    /\ dom (objRegistry_ObjIdToObj c') = K'
    /\ objRegistry_ObjIdToObj c ⊆ objRegistry_ObjIdToObj c'
    /\ dstOk w' c'
    /\ extendsExcept m w w'
    /\ exists entries', heap w' !! m = Some (OMap entries').
Proof.
  induction es as [|[key d] rest IH]; intros K K' m w c entries Hscan Hdom Hok Hm.
  - cbn in Hscan. subst K'. exists w, c. cbn. split; [done|]. split; [done|].
    split; [done|]. split; [done|]. split; [by split|]. by exists entries.
  - cbn in Hscan. destruct Hscan as (K1 & Hd & Hrest).
    destruct (Hrec d K K1 w c Hd Hdom Hok)
      as ([[v w1] c1] & Hrun & Hdom1 & Hsub1 & Hok1 & Hext1 & _).
    cbn [fst snd] in *.
    pose proof (lookup_lt_Some _ _ _ Hm) as Hlt.
    assert (Hm1 : heap w1 !! m = Some (OMap entries)).
    { destruct Hext1 as [_ H]. by rewrite H. }
    assert (Hlt1 : m < length (heap w1)) by (by eapply lookup_lt_Some).
    destruct (IH K1 K' m (setObject m (OMap (alist_set key v entries)) w1) c1
                (alist_set key v entries) Hrest Hdom1)
      as (w' & c' & Hrun' & Hdom' & Hsub' & Hok' & Hext' & Hm').
    { apply dstOk_setObject; [done|]. intros [attrs Hx]. congruence. }
    { by apply heap_setObject_eq. }
    exists w', c'. cbn [createEntries]. rewrite Hrun. cbn [mbind option_bind].
    unfold setEntry. rewrite Hm1. cbn [mbind option_bind].
    split; [done|]. split; [done|]. split; [by etrans|]. split; [done|].
    split; [|done].
    destruct Hext1 as [Hl1 Hf1], Hext' as [Hl' Hf'].
    rewrite length_setObject in Hl', Hf'. split; [lia|].
    intros a Ha Hne. rewrite Hf' by (lia || done).
    rewrite heap_setObject_ne by done. by apply Hf1.
Qed.

Lemma applyAttributes_scan n (Hrec : createSpec n) :
  forall attr K K' obj w c attrs0,
  ScanEntries (Scan n) K attr K' ->
  Forall (fun kd => skipped (fst kd) = false) attr ->
  NoDup (fst <$> attr) ->
  dom (objRegistry_ObjIdToObj c) = K -> dstOk w c ->
  heap w !! obj = Some (OExt attrs0) ->
  exists w' c' attrs',
    applyAttributesFromDescription (createObject n) obj attr w c = Some (w', c')
    /\ dom (objRegistry_ObjIdToObj c') = K'
    /\ objRegistry_ObjIdToObj c ⊆ objRegistry_ObjIdToObj c'
    /\ dstOk w' c'
    /\ extendsExcept obj w w'
    /\ heap w' !! obj = Some (OExt attrs')
    /\ (forall k, k ∉ fst <$> attr -> alist_get k attrs' = alist_get k attrs0)
    /\ (forall k d i, alist_get k attr = Some d -> denotes d i ->
          exists a, alist_get k attrs' = Some (VRef a)
                    /\ objRegistry_ObjIdToObj c' !! i = Some a).
Proof.
  induction attr as [|[key d] rest IH];
    intros K K' obj w c attrs0 Hscan Hkeys Hnd Hdom Hok Hobj.
  - cbn in Hscan. subst K'. exists w, c, attrs0. cbn.
    split; [done|]. split; [done|]. split; [done|]. split; [done|].
    split; [by split|]. split; [done|]. split; [done|]. done.
  - cbn in Hscan. destruct Hscan as (K1 & Hd & Hrest).
    apply Forall_cons in Hkeys as [Hkey Hkeys]. cbn [fst] in Hkey.
    cbn [fmap list_fmap fst] in Hnd. apply NoDup_cons in Hnd as [Hfresh Hnd].
    destruct (Hrec d K K1 w c Hd Hdom Hok)
      as ([[v w1] c1] & Hrun & Hdom1 & Hsub1 & Hok1 & Hext1 & Hden).
    cbn [fst snd] in *.
    pose proof (lookup_lt_Some _ _ _ Hobj) as Hlt.
    assert (Hobj1 : heap w1 !! obj = Some (OExt attrs0)).
    { destruct Hext1 as [_ H]. by rewrite H. }
    assert (Hlt1 : obj < length (heap w1)) by (by eapply lookup_lt_Some).
    destruct (IH K1 K' obj
                (setObject obj (OExt (alist_set key v attrs0)) w1) c1
                (alist_set key v attrs0) Hrest Hkeys Hnd Hdom1)
      as (w' & c' & attrs' & Hrun' & Hdom' & Hsub' & Hok' & Hext' & Hobj'
          & Hother & Hset).
    { apply dstOk_setObject; [done|]. intros _. by eexists. }
    { by apply heap_setObject_eq. }
    exists w', c', attrs'. cbn [applyAttributesFromDescription].
    unfold skipped in Hkey. rewrite Hkey. rewrite Hrun.
    cbn [mbind option_bind]. unfold setAttribute. rewrite Hobj1.
    cbn [mbind option_bind].
    split; [done|]. split; [done|]. split; [by etrans|]. split; [done|].
    split; [|split; [done|split]].
    + destruct Hext1 as [Hl1 Hf1], Hext' as [Hl' Hf'].
      rewrite length_setObject in Hl', Hf'. split; [lia|].
      intros a Ha Hne. rewrite Hf' by (lia || done).
      rewrite heap_setObject_ne by done. by apply Hf1.
    + intros k Hk. cbn [fmap list_fmap fst] in Hk.
      apply not_elem_of_cons in Hk as [Hne Hk].
      rewrite Hother by done. by apply alist_get_set_ne.
    + intros k d' i Hget Hi. cbn [alist_get] in Hget.
      destruct (String.eqb k key) eqn:Hk.
      * apply String.eqb_eq in Hk as ->. injection Hget as <-.
        destruct (Hden i Hi) as (a & -> & Ha). exists a. split.
        -- rewrite Hother by done. apply alist_get_set_eq.
        -- by eapply lookup_weaken.
      * by eapply Hset.
Qed.

Lemma createObject_refNode n i w c :
  createObject (S n) (refNode i) w c
  = match findObject i c with
    | Some obj => Some (VRef obj, w, c)
    | None => Some (VVoid, warn ("Unknown reference '" +:+ i +:+ "'.") w, c)
    end.
Proof. reflexivity. Qed.

Lemma createObject_idNode n i attr w c :
  findObject i c = None ->
  createObject (S n) (idNode i attr) w c
  = ('(_, w1, c1) ← registerObject (length (heap w)) (Some i)
                      (snd (alloc (OExt []) w)) c;
     '(w2, c2) ← applyAttributesFromDescription (createObject n)
                   (length (heap w)) attr w1 c1;
     '(_, w3, c3) ← registerObject (length (heap w)) (Some i) w2 c2;
     Some (VRef (length (heap w)), w3, c3)).
Proof.
  intros Hnone.
  destruct attr as [|kd attr];
    cbn -[registerObject applyAttributesFromDescription];
    rewrite !Hnone; cbn -[registerObject applyAttributesFromDescription];
    destruct (registerObject _ _ _ _) as [[[? w1] c1]|];
    cbn -[registerObject applyAttributesFromDescription]; try done.
  - cbn. by destruct (registerObject _ _ w1 c1) as [[[? w3] c3]|].
  - destruct (applyAttributesFromDescription _ _ _ w1 c1) as [[w2 c2]|];
      cbn -[registerObject applyAttributesFromDescription]; try done.
    by destruct (registerObject _ _ w2 c2) as [[[? w3] c3]|].
Qed.

Lemma createObject_plain n es w c :
  Forall (fun kd : string * Description => reserved (fst kd) = false) es ->
  createObject (S n) (DMap es) w c
  = ('(w', c') ← createEntries (createObject n) (length (heap w)) es
                   (snd (alloc (OMap []) w)) c;
     Some (VRef (length (heap w)), w', c')).
Proof.
  intros Hes. cbn [createObject].
  rewrite !entry_not_reserved by done. reflexivity.
Qed.

Lemma denotes_refNode i j : denotes (refNode i) j -> j = i.
Proof.
  intros [H|[attr H]].
  - by injection H.
  - by destruct attr.
Qed.

Lemma denotes_idNode i attr j : denotes (idNode i attr) j -> j = i.
Proof.
  intros [H|[attr' H]].
  - by destruct attr.
  - destruct attr, attr'; by injection H.
Qed.

Lemma denotes_plain es j :
  Forall (fun kd : string * Description => reserved (fst kd) = false) es ->
  ~ denotes (DMap es) j.
Proof.
  intros Hes [H|[attr H]].
  - injection H as ->. by apply Forall_cons in Hes as [? _].
  - destruct attr; injection H as ->; by apply Forall_cons in Hes as [? _].
Qed.

Lemma alloc_extends o w : extends w (snd (alloc o w)).
Proof.
  split; cbn.
  - rewrite length_app. lia.
  - intros a Ha. by apply lookup_app_l.
Qed.

Lemma alloc_lookup o w : heap (snd (alloc o w)) !! length (heap w) = Some o.
Proof. cbn. by rewrite lookup_app_r, Nat.sub_diag. Qed.

Lemma extends_alloc_except o w w' :
  extendsExcept (length (heap w)) (snd (alloc o w)) w' -> extends w w'.
Proof.
  intros [Hl Hf]. cbn in Hl, Hf. rewrite length_app in Hl, Hf. cbn in Hl, Hf.
  split; [lia|]. intros a Ha. rewrite Hf by lia. by apply lookup_app_l.
Qed.

(** Reconstruction succeeds on every description that reads in order,
    and gives equal ids the same object. *)
(** The first occurrence of an [ExtObject]: a new object is registered
    under the id of the node and filled from the attribute descriptions. *)
Lemma createObject_idNode_scan n (IH : createSpec n) i attr K' w c :
  i ∉ dom (objRegistry_ObjIdToObj c) ->
  Forall (fun kd => skipped (fst kd) = false) attr ->
  NoDup (fst <$> attr) ->
  ScanEntries (Scan n) ({[i]} ∪ dom (objRegistry_ObjIdToObj c)) attr K' ->
  dstOk w c ->
  exists attrs' w' c',
    createObject (S n) (idNode i attr) w c
    = Some (VRef (length (heap w)), w', c')
    /\ createPost K' (idNode i attr) w c (VRef (length (heap w)), w', c')
    /\ heap w' !! length (heap w) = Some (OExt attrs')
    /\ (forall k d j, alist_get k attr = Some d -> denotes d j ->
          exists a, alist_get k attrs' = Some (VRef a)
                    /\ objRegistry_ObjIdToObj c' !! j = Some a).
Proof.
  intros Hi Hkeys Hnd Hattr Hok.
  assert (Hnone : findObject i c = None).
  { unfold findObject. by apply not_elem_of_dom. }
  rewrite createObject_idNode by done.
  set (obj := length (heap w)).
  destruct (registerObject_given obj i (snd (alloc (OExt []) w)) c [])
    as (attrs1 & g1 & nr1 & Hreg1 & Hnr1 & Hsame1).
  { apply alloc_lookup. }
  { done. }
  rewrite Hreg1. cbn [mbind option_bind].
  set (w1 := mkWorld _ g1 _). set (c1 := mkContext _ _ _ _).
  assert (Hobj1 : heap w1 !! obj = Some (OExt attrs1)).
  { cbn. apply list_lookup_insert_eq. rewrite length_app. cbn. lia. }
  assert (Hext1 : extends w w1).
  { split; cbn.
    - rewrite length_insert, length_app. lia.
    - intros a Ha. rewrite list_lookup_insert_ne by (unfold obj; lia).
      by apply lookup_app_l. }
  assert (Hok1 : dstOk w1 c1).
  { intros j a Hj. cbn in Hj.
    apply lookup_insert_Some in Hj as [[<- <-]|[Hne Hj]].
    - by exists attrs1.
    - eapply extends_isExt; [exact Hext1|]. by eapply Hok. }
  destruct (applyAttributes_scan n IH attr _ K' obj w1 c1 attrs1
              Hattr Hkeys Hnd)
    as (w2 & c2 & attrs2 & Hrun2 & Hdom2 & Hsub2 & Hok2 & Hext2 & Hobj2
        & Hother & Hset).
  { cbn. by rewrite dom_insert_L. }
  { done. }
  { done. }
  rewrite Hrun2. cbn [mbind option_bind].
  assert (Hfresh : objNrAttr ∉ fst <$> attr).
  { intros Hin. apply list_elem_of_fmap in Hin as ([k d] & Hk & Hin).
    rewrite Forall_forall in Hkeys. specialize (Hkeys _ Hin).
    cbn in Hk, Hkeys. subst k. by rewrite skipped_objNrAttr in Hkeys. }
  destruct (registerObject_given obj i w2 c2 attrs2 Hobj2)
    as (attrs3 & g3 & nr3 & Hreg3 & Hnr3 & Hsame3).
  { unfold objNr. rewrite (Hother _ Hfresh).
    unfold objNr in Hnr1. by destruct (alist_get objNrAttr attrs1) as [[]|]. }
  rewrite Hreg3. cbn [mbind option_bind].
  assert (Hi2 : objRegistry_ObjIdToObj c2 !! i = Some obj).
  { eapply lookup_weaken; [|exact Hsub2]. cbn. apply lookup_insert_eq. }
  assert (Hlt2 : obj < length (heap w2)) by (by eapply lookup_lt_Some).
  eexists attrs3, _, _. split; [reflexivity|]. split; [|split].
  - unfold createPost. cbn [fst snd objRegistry_ObjIdToObj heap].
    rewrite (insert_id _ _ _ Hi2).
    split; [done|]. split.
    { etrans; [|exact Hsub2]. cbn. apply insert_subseteq.
      by apply not_elem_of_dom. }
    split.
    { intros j a Hj. specialize (Hok2 j a Hj). cbn.
      destruct (decide (a = obj)) as [->|Hne].
      - exists attrs3. by apply list_lookup_insert_eq.
      - destruct Hok2 as [attrs Ha]. exists attrs.
        by rewrite list_lookup_insert_ne. }
    split.
    { destruct Hext1 as [Hl1 Hf1], Hext2 as [Hl2 Hf2].
      split; cbn; [rewrite length_insert; lia|].
      intros a Ha. rewrite list_lookup_insert_ne by (unfold obj; lia).
      rewrite Hf2 by (unfold obj; lia). by apply Hf1. }
    intros j Hj. apply denotes_idNode in Hj as ->. by exists obj.
  - cbn. by apply list_lookup_insert_eq.
  - intros k d j Hget Hj. cbn [objRegistry_ObjIdToObj].
    rewrite (insert_id _ _ _ Hi2).
    destruct (Hset k d j Hget Hj) as (a & Ha & Hreg). exists a.
    split; [|done]. rewrite Hsame3; [done|].
    intros ->. apply Hfresh. apply alist_get_Some_elem in Hget.
    apply list_elem_of_fmap. by exists (objNrAttr, d).
Qed.

Lemma createObject_scan n : createSpec n.
Proof.
  induction n as [|n IH]; intros d K K' w c Hscan Hdom Hok; [done|].
  subst K.
  assert (Hprim : forall v,
             K' = dom (objRegistry_ObjIdToObj c) ->
             (forall i, ~ denotes d i) ->
             createObject (S n) d w c = Some (v, w, c) ->
             exists res, createObject (S n) d w c = Some res
                         /\ createPost K' d w c res).
  { intros v -> Hden Hrun. eexists. split; [exact Hrun|].
    split; [done|]. split; [done|]. split; [done|].
    split; [apply extends_refl|]. intros i Hi. by destruct (Hden i). }
  destruct d as [|b|z|s|ds|es]; cbn [Scan] in Hscan.
  - eapply Hprim; [done| |reflexivity]. intros i [H|[attr H]]; discriminate.
  - eapply Hprim; [done| |reflexivity]. intros i [H|[attr H]]; discriminate.
  - eapply Hprim; [done| |reflexivity]. intros i [H|[attr H]]; discriminate.
  - eapply Hprim; [done| |reflexivity]. intros i [H|[attr H]]; discriminate.
  - cbn [createObject].
    destruct (createElems_scan n IH ds _ K' (length (heap w))
                (snd (alloc (OArray []) w)) c [] Hscan eq_refl)
      as (w' & c' & Hrun & Hdom' & Hsub & Hok' & Hext & _).
    { eapply dstOk_extends; [apply alloc_extends | done]. }
    { apply alloc_lookup. }
    cbn [alloc snd] in Hrun |- *. rewrite Hrun. cbn [mbind option_bind].
    eexists. split; [reflexivity|]. cbn [fst snd].
    split; [done|]. split; [done|]. split; [done|].
    split; [by eapply extends_alloc_except|].
    intros i [H|[attr H]]; discriminate.
  - destruct Hscan as [(i & -> & Hi & ->)|[(i & attr & -> & Hi & Hkeys & Hnd & Hattr)
                                           |[Hplain Hentries]]].
    + rewrite createObject_refNode. unfold findObject.
      apply elem_of_dom in Hi as [a Ha]. rewrite Ha.
      eexists. split; [reflexivity|].
      split; [done|]. split; [done|]. split; [done|].
      split; [apply extends_refl|].
      intros j Hj. apply denotes_refNode in Hj as ->. by exists a.
    + destruct (createObject_idNode_scan n IH i attr K' w c Hi Hkeys Hnd Hattr Hok)
        as (attrs' & w' & c' & Hrun & Hpost & _).
      eexists. by split.
    + rewrite createObject_plain by done.
      destruct (createEntries_scan n IH es _ K' (length (heap w))
                  (snd (alloc (OMap []) w)) c [] Hentries eq_refl)
        as (w' & c' & Hrun & Hdom' & Hsub & Hok' & Hext & _).
      { eapply dstOk_extends; [apply alloc_extends | done]. }
      { apply alloc_lookup. }
      rewrite Hrun. cbn [mbind option_bind].
      eexists. split; [reflexivity|]. cbn [fst snd].
      split; [done|]. split; [done|]. split; [done|].
      split; [by eapply extends_alloc_except|].
      intros i Hi. by destruct (denotes_plain es i).
Qed.

(** *** The ids of a context *)

Lemma formatNumber_inj n m : formatNumber n = formatNumber m -> n = m.
Proof.
  unfold formatNumber. intros H.
  assert (Some (Nat.to_uint n) = Some (Nat.to_uint m)) as Heq.
  { rewrite <- !NilEmpty.usu. by rewrite H. }
  injection Heq as Heq.
  rewrite <- (DecimalNat.Unsigned.of_to n), <- (DecimalNat.Unsigned.of_to m).
  by rewrite Heq.
Qed.

Lemma append_inj_l (p s t : string) : p +:+ s = p +:+ t -> s = t.
Proof.
  induction p as [|ch p IH]; cbn; [done|]. intros [= H]. by apply IH.
Qed.

Lemma mkId_inj cid n m : mkId cid n = mkId cid m -> n = m.
Proof.
  unfold mkId. intros H. apply append_inj_l in H. apply append_inj_l in H.
  by apply formatNumber_inj.
Qed.

Lemma elem_of_issued c i :
  i ∈ issued c <-> exists k, 1 <= k <= counter c /\ i = mkId (id c) k.
Proof.
  unfold issued. rewrite elem_of_list_to_set, list_elem_of_fmap.
  split.
  - intros (k & -> & Hk). apply elem_of_seq in Hk. exists k. split; [lia|done].
  - intros (k & Hk & ->). exists k. split; [done|]. apply elem_of_seq. lia.
Qed.

Lemma issued_next (c c' : Context) :
  id c' = id c -> counter c' = S (counter c) ->
  issued c' = {[mkId (id c) (S (counter c))]} ∪ issued c
  /\ mkId (id c) (S (counter c)) ∉ issued c.
Proof.
  intros Hid Hcnt. split.
  - apply set_eq. intros i. rewrite elem_of_union, elem_of_singleton.
    rewrite !elem_of_issued, Hid, Hcnt. split.
    + intros (k & Hk & ->). destruct (decide (k = S (counter c))) as [->|Hne].
      * by left.
      * right. exists k. split; [lia | done].
    + intros [->|(k & Hk & ->)].
      * exists (S (counter c)). split; [lia | done].
      * exists k. split; [lia | done].
  - rewrite elem_of_issued. intros (k & Hk & Heq).
    apply mkId_inj in Heq. lia.
Qed.

Lemma issued_mono (c c' : Context) :
  id c' = id c -> counter c <= counter c' -> issued c ⊆ issued c'.
Proof.
  intros Hid Hcnt i. rewrite !elem_of_issued, Hid.
  intros (k & Hk & ->). exists k. split; [lia | done].
Qed.

(** *** Well-formed graphs *)

Lemma graphOk_heapOk D w : graphOk D w = true -> heapOk D w.
Proof.
  unfold graphOk. rewrite forallb_forall. intros H a o Ha.
  apply H. apply list_elem_of_In. by eapply list_elem_of_lookup_2.
Qed.

Lemma objectOk_ext D w attrs :
  objectOk D w (OExt attrs) = true <->
  NoDup (fst <$> attrs)
  /\ objNrBelow (globalObjCounter w) attrs
  /\ Forall (fun kv => beginsWith (fst kv) "__" = false ->
                       skipped (fst kv) = false) attrs
  /\ Forall (fun kv => depthOk D (heap w) (snd kv) = true) attrs.
Proof.
  unfold objectOk, keysDistinct, objNrBelow.
  rewrite !andb_true_iff, bool_decide_eq_true, !forallb_forall.
  rewrite !Forall_forall.
  assert (Hnr : match alist_get objNrAttr attrs with
                | Some (VNumber n) => (n <=? globalObjCounter w)%Z
                | Some _ => false
                | None => true
                end = true
                <-> match alist_get objNrAttr attrs with
                    | Some (VNumber n) => (n <= globalObjCounter w)%Z
                    | Some _ => False
                    | None => True
                    end).
  { destruct (alist_get objNrAttr attrs) as [[]|]; try done.
    apply Z.leb_le. }
  rewrite Hnr. split.
  - intros [[[H1 H2] H3] H4]. repeat split; try done.
    + intros kv Hin Hb. specialize (H3 kv (proj1 (list_elem_of_In _ _) Hin)).
      rewrite Hb in H3. cbn in H3. by apply negb_true_iff in H3.
    + intros kv Hin. apply H4. by apply list_elem_of_In.
  - intros (H1 & H2 & H3 & H4). repeat split; try done.
    + intros kv Hin. apply list_elem_of_In in Hin. specialize (H3 kv Hin).
      destruct (beginsWith (fst kv) "__"); [done|]. cbn.
      apply negb_true_iff. by apply H3.
    + intros kv Hin. apply H4. by apply list_elem_of_In.
Qed.

Lemma objectOk_map D w entries :
  objectOk D w (OMap entries) = true <->
  NoDup (fst <$> entries)
  /\ Forall (fun kv => reserved (fst kv) = false) entries.
Proof.
  unfold objectOk, keysDistinct.
  rewrite andb_true_iff, bool_decide_eq_true, forallb_forall, Forall_forall.
  split; intros [H1 H2]; (split; [done|]); intros kv Hin.
  - apply negb_true_iff. apply H2. by apply list_elem_of_In.
  - apply negb_true_iff. apply H2. by apply list_elem_of_In.
Qed.

Lemma sameShape_refl h : sameShape h h.
Proof. split; [done|]. intros a [] Ha; try done. by eexists. Qed.

Lemma sameShape_trans h1 h2 h3 :
  sameShape h1 h2 -> sameShape h2 h3 -> sameShape h1 h3.
Proof.
  intros [Hl1 H1] [Hl2 H2]. split; [congruence|].
  intros a o Ha. specialize (H1 a o Ha). destruct o.
  - by apply (H2 a (OArray elems)).
  - by apply (H2 a (OMap entries)).
  - destruct H1 as [attrs' Ha']. by apply (H2 a (OExt attrs')).
Qed.

Lemma depthOk_sameShape d h h' v :
  sameShape h h' -> depthOk d h v = true -> depthOk d h' v = true.
Proof.
  intros [Hlen Hsame]. revert v. induction d as [|d IH]; intros v; cbn.
  - destruct v as [| | | |a]; try done.
    destruct (h !! a) as [[]|] eqn:Ha; try done.
    destruct (Hsame a _ Ha) as [attrs' ->]. done.
  - destruct v as [| | | |a]; try done.
    destruct (h !! a) as [[elems|entries|attrs]|] eqn:Ha; try done.
    + rewrite (Hsame a _ Ha). rewrite !forallb_forall. intros H x Hx. auto.
    + rewrite (Hsame a _ Ha). rewrite !forallb_forall. intros H x Hx. auto.
    + destruct (Hsame a _ Ha) as [attrs' ->]. done.
Qed.

(** *** How serialization changes the world *)

Lemma evolves_refl w c : evolves w c w c.
Proof.
  split; [apply sameShape_refl|]. split; [lia|]. split; [done|].
  split; [lia|done].
Qed.

Lemma evolves_trans w1 c1 w2 c2 w3 c3 :
  evolves w1 c1 w2 c2 -> evolves w2 c2 w3 c3 -> evolves w1 c1 w3 c3.
Proof.
  intros (Hs1 & Hg1 & Hi1 & Hc1 & Hr1) (Hs2 & Hg2 & Hi2 & Hc2 & Hr2).
  split; [by eapply sameShape_trans|]. split; [lia|].
  split; [congruence|]. split; [lia|]. auto.
Qed.

Lemma filter_length_le {A} (P Q : A -> Prop)
    `{!forall x, Decision (P x)} `{!forall x, Decision (Q x)} (l : list A) :
  (forall x, x ∈ l -> Q x -> P x) ->
  length (filter Q l) <= length (filter P l).
Proof.
  induction l as [|x l IH]; intros Himp; [done|].
  rewrite !filter_cons.
  assert (IH' : length (filter Q l) <= length (filter P l)).
  { apply IH. intros y Hy. apply Himp. by right. }
  destruct (decide (Q x)) as [HQ|HQ].
  - rewrite decide_True by (apply Himp; [by left | done]). cbn. lia.
  - destruct (decide (P x)); cbn; lia.
Qed.

Lemma filter_length_lt {A} (P Q : A -> Prop)
    `{!forall x, Decision (P x)} `{!forall x, Decision (Q x)} (l : list A) x0 :
  (forall x, x ∈ l -> Q x -> P x) ->
  x0 ∈ l -> P x0 -> ~ Q x0 ->
  length (filter Q l) < length (filter P l).
Proof.
  induction l as [|x l IH]; intros Himp Hin HP HQ;
    [by apply elem_of_nil in Hin|].
  rewrite !filter_cons.
  assert (Hle : length (filter Q l) <= length (filter P l)).
  { apply filter_length_le. intros y Hy. apply Himp. by right. }
  apply elem_of_cons in Hin as [<-|Hin].
  - destruct (decide (Q x0)); [done|]. destruct (decide (P x0)); [|done].
    cbn. lia.
  - assert (IH' : length (filter Q l) < length (filter P l)).
    { apply IH; try done. intros y Hy. apply Himp. by right. }
    destruct (decide (Q x)) as [HQx|HQx].
    + rewrite decide_True by (apply Himp; [by left | done]). cbn. lia.
    + destruct (decide (P x)); cbn; lia.
Qed.

Lemma unregisteredB_true w c a :
  unregisteredB w c a = true <-> isExt (heap w) a /\ regId w c a = None.
Proof.
  unfold unregisteredB, isExt.
  destruct (heap w !! a) as [[]|] eqn:Ha.
  - split; [done | by intros [[? ?] _]].
  - split; [done | by intros [[? ?] _]].
  - destruct (regId w c a); split; try done.
    + by intros [_ ?].
    + intros _. split; [by eexists | done].
  - split; [done | by intros [[? ?] _]].
Qed.

Lemma sameShape_isExt_back h h' a :
  sameShape h h' -> isExt h' a -> isExt h a.
Proof.
  intros [Hlen Hsame] Hext. pose proof (isExt_lt _ _ Hext) as Hlt.
  destruct Hext as [attrs' Ha'].
  destruct (lookup_lt_is_Some_2 h a) as [o Ho]; [lia|].
  specialize (Hsame a o Ho). destruct o; try congruence. by eexists.
Qed.

Lemma sameShape_isExt h h' a : sameShape h h' -> isExt h a -> isExt h' a.
Proof. intros [_ Hsame] [attrs Ha]. by apply (Hsame a _ Ha). Qed.

Lemma unregistered_le w c w' c' :
  sameShape (heap w) (heap w') ->
  (forall a i, regId w c a = Some i -> regId w' c' a = Some i) ->
  unregistered w' c' <= unregistered w c.
Proof.
  intros Hshape Hreg. unfold unregistered.
  rewrite (proj1 Hshape). apply filter_length_le.
  intros a _. rewrite !unregisteredB_true. intros [Hext Hnone].
  split; [by eapply sameShape_isExt_back|].
  destruct (regId w c a) as [i|] eqn:Hi; [|done].
  apply Hreg in Hi. congruence.
Qed.

Lemma evolves_unregistered w c w' c' :
  evolves w c w' c' -> unregistered w' c' <= unregistered w c.
Proof. intros (Hs & _ & _ & _ & Hr). by apply unregistered_le. Qed.

Lemma unregistered_lt w c w' c' a :
  sameShape (heap w) (heap w') ->
  (forall b i, regId w c b = Some i -> regId w' c' b = Some i) ->
  isExt (heap w) a -> regId w c a = None -> is_Some (regId w' c' a) ->
  unregistered w' c' < unregistered w c.
Proof.
  intros Hshape Hreg Hext Hnone [i Hi]. unfold unregistered.
  rewrite (proj1 Hshape). apply (filter_length_lt _ _ _ a).
  - intros b _. rewrite !unregisteredB_true. intros [Hb Hbn].
    split; [by eapply sameShape_isExt_back|].
    destruct (regId w c b) as [j|] eqn:Hj; [|done].
    apply Hreg in Hj. congruence.
  - apply elem_of_seq. pose proof (isExt_lt _ _ Hext). lia.
  - by apply unregisteredB_true.
  - rewrite unregisteredB_true. intros [_ ?]. congruence.
Qed.

Lemma objectOk_mono D w w' o :
  sameShape (heap w) (heap w') ->
  (globalObjCounter w <= globalObjCounter w')%Z ->
  objectOk D w o = true -> objectOk D w' o = true.
Proof.
  intros Hshape Hg. destruct o as [elems|entries|attrs]; try done.
  rewrite !objectOk_ext. intros (H1 & H2 & H3 & H4).
  split; [done|]. split; [|split; [done|]].
  - unfold objNrBelow in *.
    destruct (alist_get objNrAttr attrs) as [[]|]; try done. lia.
  - eapply Forall_impl; [exact H4|]. intros kv. cbn.
    by apply depthOk_sameShape.
Qed.

Lemma sameShape_insert_ext h a attrs attrs' :
  h !! a = Some (OExt attrs) -> sameShape h (<[a := OExt attrs']> h).
Proof.
  intros Ha. split; [by rewrite length_insert|].
  intros b o Hb. destruct (decide (a = b)) as [->|Hne].
  - rewrite Ha in Hb. injection Hb as <-. exists attrs'.
    apply list_lookup_insert_eq. by eapply lookup_lt_Some.
  - destruct o; rewrite ?list_lookup_insert_ne by done; try done.
    exists attrs0. by rewrite list_lookup_insert_ne.
Qed.

Lemma beginsWith_objNrAttr : beginsWith objNrAttr "__" = true.
Proof. reflexivity. Qed.

(** [registerObject] without a given id, on an [ExtObject] that the
    context has not registered. *)
Lemma registerObject_new D a w c attrs :
  srcOk D w c -> heap w !! a = Some (OExt attrs) -> regId w c a = None ->
  exists w1 c1 attrs1,
    registerObject a None w c
    = Some (mkId (id c) (S (counter c)), w1, c1)
    /\ heap w1 !! a = Some (OExt attrs1)
    /\ (forall k, k <> objNrAttr -> alist_get k attrs1 = alist_get k attrs)
    /\ (forall k v, (k, v) ∈ attrs1 ->
          beginsWith k "__" = false -> (k, v) ∈ attrs)
    /\ srcOk D w1 c1
    /\ evolves w c w1 c1
    /\ regId w1 c1 a = Some (mkId (id c) (S (counter c)))
    /\ id c1 = id c
    /\ counter c1 = S (counter c).
Proof.
  intros [Hheap Hreg] Ha Hnone.
  pose proof (Hheap a _ Ha) as Hobj. apply objectOk_ext in Hobj.
  destruct Hobj as (Hnd & Hnr & Hkeys & Hdepth).
  pose proof (lookup_lt_Some _ _ _ Ha) as Hlt.
  assert (Hstep : exists attrs1 g1 nr,
             registerObject a None w c
             = Some (mkId (id c) (S (counter c)),
                     mkWorld (<[a := OExt attrs1]> (heap w)) g1 (warnings w),
                     mkContext (<[nr := mkId (id c) (S (counter c))]>
                                  (objRegistry_NrToObjId c))
                               (<[mkId (id c) (S (counter c)) := a]>
                                  (objRegistry_ObjIdToObj c))
                               (id c) (S (counter c)))
             /\ (globalObjCounter w <= g1)%Z
             /\ (nr <= g1)%Z
             /\ objNr attrs1 = Some (Some nr)
             /\ objRegistry_NrToObjId c !! nr = None
             /\ (attrs1 = attrs
                 \/ (alist_get objNrAttr attrs = None
                     /\ attrs1 = attrs ++ [(objNrAttr, VNumber nr)]))).
  { unfold registerObject. rewrite Ha. unfold objNrBelow in Hnr.
    unfold regId in Hnone. rewrite Ha in Hnone. unfold objNr in *.
    destruct (alist_get objNrAttr attrs) as [v|] eqn:Hget.
    - destruct v as [| |n| |]; try done. rewrite Hget. cbn.
      exists attrs, (globalObjCounter w), n.
      split; [reflexivity|]. split; [lia|]. split; [done|].
      rewrite Hget. split; [done|]. split; [done|]. by left.
    - rewrite alist_get_set_eq. cbn.
      exists (alist_set objNrAttr (VNumber (globalObjCounter w + 1)) attrs),
        (globalObjCounter w + 1)%Z, (globalObjCounter w + 1)%Z.
      split; [reflexivity|]. split; [lia|]. split; [lia|].
      rewrite alist_get_set_eq. split; [done|]. split.
      + destruct (objRegistry_NrToObjId c !! (globalObjCounter w + 1)%Z)
          as [i|] eqn:Hi; [|done].
        apply Hreg in Hi as [Hi _]. lia.
      + right. split; [done|]. by apply alist_set_fresh. }
  destruct Hstep as (attrs1 & g1 & nr & Hrun & Hg & Hnrg & Hnr1 & Hfree & Hattrs).
  set (w1 := mkWorld (<[a := OExt attrs1]> (heap w)) g1 (warnings w)) in *.
  set (c1 := mkContext _ _ _ _) in *.
  assert (Hshape : sameShape (heap w) (heap w1)).
  { by eapply sameShape_insert_ext. }
  assert (Ha1 : heap w1 !! a = Some (OExt attrs1)).
  { by apply list_lookup_insert_eq. }
  destruct (issued_next c c1 eq_refl eq_refl) as [Hissued Hfresh].
  exists w1, c1, attrs1. split; [done|]. split; [done|]. split.
  { intros k Hk. destruct Hattrs as [->|[Hget ->]]; [done|].
    rewrite <- (alist_set_fresh objNrAttr (VNumber nr)) by done.
    by apply alist_get_set_ne. }
  split.
  { intros k v Hin Hk. destruct Hattrs as [->|[_ ->]]; [done|].
    apply elem_of_app in Hin as [Hin|Hin]; [done|].
    apply list_elem_of_singleton in Hin. injection Hin as -> ->.
    by rewrite beginsWith_objNrAttr in Hk. }
  split.
  { split.
    - intros b o Hb. destruct (decide (a = b)) as [<-|Hne].
      + rewrite Ha1 in Hb. injection Hb as <-. apply objectOk_ext.
        destruct Hattrs as [->|[Hget ->]].
        * split; [done|]. split.
          { unfold objNrBelow in *. cbn.
            destruct (alist_get objNrAttr attrs) as [[]|]; try done. lia. }
          split; [done|].
          eapply Forall_impl; [exact Hdepth|]. intros kv. cbn.
          by apply depthOk_sameShape.
        * split.
          { rewrite fmap_app. apply NoDup_app. split; [done|].
            split; [|apply NoDup_singleton].
            intros k Hk Hk'. apply list_elem_of_singleton in Hk'. cbn in Hk'.
            subst k. by apply alist_get_None in Hget. }
          split.
          { unfold objNrBelow.
            rewrite <- (alist_set_fresh objNrAttr (VNumber nr)) by done.
            rewrite alist_get_set_eq. done. }
          split.
          { apply Forall_app. split; [done|]. constructor; [|constructor].
            intros Hb. cbn in Hb. discriminate. }
          apply Forall_app. split.
          { eapply Forall_impl; [exact Hdepth|]. intros kv. cbn.
            by apply depthOk_sameShape. }
          constructor; [|constructor]. cbn. by destruct D.
      + cbn in Hb. rewrite list_lookup_insert_ne in Hb by done.
        eapply objectOk_mono; [exact Hshape | done | by eapply Hheap].
    - intros n i Hi. cbn in Hi.
      apply lookup_insert_Some in Hi as [[<- <-]|[Hne Hi]].
      + split; [done|]. rewrite Hissued.
        by apply elem_of_union_l, elem_of_singleton.
      + apply Hreg in Hi as [Hn Hi]. split; [cbn; lia|].
        rewrite Hissued. by apply elem_of_union_r. }
  split.
  { split; [done|]. split; [done|]. split; [done|]. split; [cbn; lia|].
    intros b i Hb. unfold regId in *.
    destruct (decide (a = b)) as [<-|Hne]; [congruence|].
    cbn [heap w1]. rewrite list_lookup_insert_ne by done.
    destruct (heap w !! b) as [[| |attrsb]|]; try done.
    destruct (objNr attrsb) as [[n|]|]; try done. cbn.
    rewrite lookup_insert_ne; [done|]. intros <-. congruence. }
  split; [|done].
  unfold regId. rewrite Ha1, Hnr1. cbn. apply lookup_insert_eq.
Qed.

(** *** Serialization of a well-formed graph *)

Lemma fuel_after D n dv w c w' c' :
  evolves w c w' c' ->
  unregistered w c * S D + dv < n ->
  unregistered w' c' * S D + dv < n.
Proof.
  intros Hev Hn. apply evolves_unregistered in Hev.
  pose proof (Nat.mul_le_mono_r _ _ (S D) Hev). lia.
Qed.

Lemma describeElems_ok D n (Hrec : describeSpec D n) :
  forall elems acc w c dv,
  srcOk D w c -> Forall (fun v => depthOk dv (heap w) v = true) elems ->
  dv <= D -> unregistered w c * S D + dv < n ->
  exists ds w' c',
    describeElems (createDescription n) elems acc w c = Some (acc ++ ds, w', c')
    /\ srcOk D w' c' /\ evolves w c w' c'
    /\ ScanList (Scan n) (issued c) ds (issued c').
Proof.
  induction elems as [|v rest IH]; intros acc w c dv Hok Hdepth Hdv Hn.
  - exists [], w, c. cbn. rewrite app_nil_r.
    split; [done|]. split; [done|]. split; [apply evolves_refl | done].
  - apply Forall_cons in Hdepth as [Hv Hrest].
    destruct (Hrec v w c dv Hok Hv Hdv Hn)
      as ([[d w1] c1] & Hrun & Hok1 & Hev1 & Hscan1 & _).
    cbn [fst snd] in *.
    destruct (IH (acc ++ [d]) w1 c1 dv Hok1)
      as (ds & w' & c' & Hrun' & Hok' & Hev' & Hscan'); [|done|..].
    { eapply Forall_impl; [exact Hrest|]. intros x. cbn.
      apply depthOk_sameShape, Hev1. }
    { by eapply fuel_after. }
    exists (d :: ds), w', c'. cbn [describeElems]. rewrite Hrun.
    cbn [mbind option_bind]. rewrite Hrun'. rewrite <- app_assoc.
    split; [done|]. split; [done|]. split; [by eapply evolves_trans|].
    cbn. by exists (issued c1).
Qed.

Lemma describeEntries_ok D n (Hrec : describeSpec D n) :
  forall entries acc w c dv,
  srcOk D w c ->
  Forall (fun kv => depthOk dv (heap w) (snd kv) = true) entries ->
  NoDup (fst <$> entries) ->
  (forall k, k ∈ fst <$> entries -> k ∉ fst <$> acc) ->
  dv <= D -> unregistered w c * S D + dv < n ->
  exists ds w' c',
    describeEntries (createDescription n) entries acc w c
    = Some (acc ++ ds, w', c')
    /\ srcOk D w' c' /\ evolves w c w' c'
    /\ fst <$> ds = fst <$> entries
    /\ ScanEntries (Scan n) (issued c) ds (issued c').
Proof.
  induction entries as [|[key v] rest IH];
    intros acc w c dv Hok Hdepth Hnd Hacc Hdv Hn.
  - exists [], w, c. cbn. rewrite app_nil_r.
    split; [done|]. split; [done|]. split; [apply evolves_refl | done].
  - apply Forall_cons in Hdepth as [Hv Hrest]. cbn [snd] in Hv.
    cbn [fmap list_fmap fst] in Hnd. apply NoDup_cons in Hnd as [Hkey Hnd].
    destruct (Hrec v w c dv Hok Hv Hdv Hn)
      as ([[d w1] c1] & Hrun & Hok1 & Hev1 & Hscan1 & _).
    cbn [fst snd] in *.
    assert (Hset : alist_set key d acc = acc ++ [(key, d)]).
    { apply alist_set_fresh, alist_get_None, Hacc. cbn. by left. }
    destruct (IH (acc ++ [(key, d)]) w1 c1 dv Hok1)
      as (ds & w' & c' & Hrun' & Hok' & Hev' & Hkeys' & Hscan');
      [ | done | | done | | ].
    { eapply Forall_impl; [exact Hrest|]. intros x. cbn.
      apply depthOk_sameShape, Hev1. }
    { intros k Hk. rewrite fmap_app. cbn. intros Hin.
      apply elem_of_app in Hin as [Hin|Hin].
      - eapply Hacc; [|exact Hin]. cbn. by right.
      - apply list_elem_of_singleton in Hin. by subst k. }
    { by eapply fuel_after. }
    exists ((key, d) :: ds), w', c'. cbn [describeEntries]. rewrite Hrun.
    cbn [mbind option_bind]. rewrite Hset, Hrun'. rewrite <- app_assoc.
    split; [done|]. split; [done|]. split; [by eapply evolves_trans|].
    split; [cbn; by rewrite Hkeys'|]. cbn. by exists (issued c1).
Qed.

Lemma getAttributeDescription_ok D n (Hrec : describeSpec D n) :
  forall attrs m w c,
  srcOk D w c ->
  Forall (fun kv => depthOk D (heap w) (snd kv) = true) attrs ->
  NoDup (fst <$> attrs) ->
  (forall k, k ∈ fst <$> attrs -> k ∉ fst <$> m) ->
  unregistered w c * S D + D < n ->
  exists ds w' c',
    getAttributeDescription (createDescription n) attrs m w c
    = Some (m ++ ds, w', c')
    /\ srcOk D w' c' /\ evolves w c w' c'
    /\ ScanEntries (Scan n) (issued c) ds (issued c')
    /\ (forall k, k ∈ fst <$> ds ->
          k ∈ fst <$> attrs /\ beginsWith k "__" = false)
    /\ NoDup (fst <$> ds)
    /\ (forall k a, (k, VRef a) ∈ attrs -> beginsWith k "__" = false ->
          isExt (heap w) a ->
          exists i dk, regId w' c' a = Some i
                       /\ alist_get k ds = Some dk /\ denotes dk i).
Proof.
  induction attrs as [|[key v] rest IH]; intros m w c Hok Hdepth Hnd Hm Hn.
  - exists [], w, c. cbn. rewrite app_nil_r.
    split; [done|]. split; [done|]. split; [apply evolves_refl|].
    split; [done|]. split; [intros k Hk; by apply elem_of_nil in Hk|].
    split; [constructor|]. intros k a Hin. by apply elem_of_nil in Hin.
  - apply Forall_cons in Hdepth as [Hv Hrest]. cbn [snd] in Hv.
    cbn [fmap list_fmap fst] in Hnd. apply NoDup_cons in Hnd as [Hkey Hnd].
    cbn [getAttributeDescription].
    destruct (beginsWith key "__") eqn:Hprefix; cbn [negb].
    + destruct (IH m w c Hok Hrest Hnd)
        as (ds & w' & c' & Hrun' & Hok' & Hev' & Hscan' & Hkeys' & Hnd'
            & Hrefs); [|done|].
      { intros k Hk. apply Hm. cbn. by right. }
      exists ds, w', c'. split; [done|]. split; [done|]. split; [done|].
      split; [done|]. split.
      { intros k Hk. destruct (Hkeys' k Hk). split; [cbn; by right | done]. }
      split; [done|].
      intros k a Hin Hk Hext. apply elem_of_cons in Hin as [[= Hk1 Hv1]|Hin]; [subst k v|].
      * congruence.
      * by eapply Hrefs.
    + destruct (Hrec v w c D Hok Hv (le_n _) Hn)
        as ([[d w1] c1] & Hrun & Hok1 & Hev1 & Hscan1 & Hden1).
      cbn [fst snd] in *.
      assert (Hset : alist_set key d m = m ++ [(key, d)]).
      { apply alist_set_fresh, alist_get_None, Hm. cbn. by left. }
      destruct (IH (m ++ [(key, d)]) w1 c1 Hok1)
        as (ds & w' & c' & Hrun' & Hok' & Hev' & Hscan' & Hkeys' & Hnd'
            & Hrefs); [|done|..].
      { eapply Forall_impl; [exact Hrest|]. intros x. cbn.
        apply depthOk_sameShape, Hev1. }
      { intros k Hk. rewrite fmap_app. cbn. intros Hin.
        apply elem_of_app in Hin as [Hin|Hin].
        - eapply Hm; [|exact Hin]. cbn. by right.
        - apply list_elem_of_singleton in Hin. by subst k. }
      { by eapply fuel_after. }
      exists ((key, d) :: ds), w', c'. rewrite Hrun.
      cbn [mbind option_bind]. rewrite Hset, Hrun'. rewrite <- app_assoc.
      split; [done|]. split; [done|]. split; [by eapply evolves_trans|].
      split; [cbn; by exists (issued c1)|]. split.
      { intros k Hk. cbn in Hk. apply elem_of_cons in Hk as [->|Hk].
        - split; [cbn; by left | done].
        - destruct (Hkeys' k Hk). split; [cbn; by right | done]. }
      split.
      { cbn. apply NoDup_cons. split; [|done].
        intros Hin. by destruct (Hkeys' key Hin). }
      intros k a Hin Hk Hext. apply elem_of_cons in Hin as [[= Hk1 Hv1]|Hin]; [subst k v|].
      * destruct (Hden1 a eq_refl Hext) as (i & Hi & Hden).
        exists i, d. split; [by apply Hev'|]. split; [|done].
        cbn. by rewrite String.eqb_refl.
      * destruct (Hrefs k a Hin Hk) as (i & dk & Hi & Hget & Hden).
        { eapply sameShape_isExt; [apply Hev1 | done]. }
        exists i, dk. split; [done|]. split; [|done].
        cbn. rewrite (proj2 (String.eqb_neq k key)); [done|].
        intros ->. apply Hkey. apply list_elem_of_fmap. by exists (key, VRef a).
Qed.

Lemma findObjectId_regId D w c a attrs :
  heapOk D w -> heap w !! a = Some (OExt attrs) ->
  findObjectId attrs c = Some (regId w c a).
Proof.
  intros Hheap Ha. pose proof (Hheap a _ Ha) as Hobj.
  apply objectOk_ext in Hobj as (_ & Hnr & _ & _).
  unfold findObjectId, regId, objNr, objNrBelow in *. rewrite Ha.
  by destruct (alist_get objNrAttr attrs) as [[]|].
Qed.

Lemma Forall_keys {V V'} (P : string -> Prop) (l : list (string * V))
    (l' : list (string * V')) :
  fst <$> l = fst <$> l' ->
  Forall (fun kv => P (fst kv)) l' -> Forall (fun kv => P (fst kv)) l.
Proof.
  intros Hkeys H.
  apply (Forall_fmap fst P l). rewrite Hkeys. by apply Forall_fmap.
Qed.

(** The first occurrence of an [ExtObject]: it is registered under the
    next id of the context, then its attributes are described. *)
Lemma createDescription_ext D n (Hrec : describeSpec D n) w c a attrs :
  srcOk D w c -> heap w !! a = Some (OExt attrs) -> regId w c a = None ->
  unregistered w c * S D < S n ->
  exists ds w' c',
    createDescription (S n) (VRef a) w c
    = Some (idNode (mkId (id c) (S (counter c))) ds, w', c')
    /\ srcOk D w' c' /\ evolves w c w' c'
    /\ regId w' c' a = Some (mkId (id c) (S (counter c)))
    /\ (mkId (id c) (S (counter c)) ∉ issued c)
    /\ Forall (fun kd => skipped (fst kd) = false) ds
    /\ NoDup (fst <$> ds)
    /\ ScanEntries (Scan n) ({[mkId (id c) (S (counter c))]} ∪ issued c) ds
         (issued c')
    /\ (forall k b, alist_get k attrs = Some (VRef b) ->
          beginsWith k "__" = false -> isExt (heap w) b ->
          exists j dk, regId w' c' b = Some j
                       /\ alist_get k ds = Some dk /\ denotes dk j).
Proof.
  intros Hok Ha Hreg Hn. cbn [createDescription]. rewrite Ha.
  unfold handlerCreateDescription. rewrite Ha.
  rewrite (findObjectId_regId D w c a attrs (proj1 Hok) Ha), Hreg.
  cbn [mbind option_bind].
  destruct (registerObject_new D a w c attrs Hok Ha Hreg)
    as (w1 & c1 & attrs1 & Hrun1 & Ha1 & Hsame & _ & Hok1 & Hev1 & Hreg1
        & Hid1 & Hcnt1).
  cbn [trackIdentity extObjectHandler]. rewrite Hrun1.
  cbn [mbind option_bind]. rewrite Ha1.
  pose proof (proj1 Hok1 a _ Ha1) as Hobj.
  apply objectOk_ext in Hobj as (Hnd & _ & Hskip & Hdep).
  destruct (issued_next c c1 Hid1 Hcnt1) as [Hissued Hfresh].
  destruct (getAttributeDescription_ok D n Hrec attrs1 [] w1 c1 Hok1 Hdep Hnd)
    as (ds & w' & c' & Hrun & Hok' & Hev & Hscan & Hkeys & Hnd' & Hrefs).
  { intros k _ Hk. by apply elem_of_nil in Hk. }
  { assert (Hlt : unregistered w1 c1 < unregistered w c).
    { eapply (unregistered_lt w c w1 c1 a); [apply Hev1 | apply Hev1 | |done|].
      - by exists attrs.
      - by rewrite Hreg1. }
    pose proof (Nat.mul_le_mono_r _ _ (S D) Hlt). lia. }
  rewrite Hrun. cbn [mbind option_bind app].
  set (i := mkId (id c) (S (counter c))) in *.
  exists ds, w', c'. split.
  { unfold idNode. by destruct ds. }
  split; [done|]. split; [by eapply evolves_trans|].
  split; [by apply Hev|]. split; [done|]. split.
  { apply Forall_forall. intros [k d] Hin.
    destruct (Hkeys k) as [Hk Hb].
    { apply list_elem_of_fmap. by exists (k, d). }
    apply list_elem_of_fmap in Hk as ([k' v'] & -> & Hin').
    rewrite Forall_forall in Hskip. by apply (Hskip _ Hin'). }
  split; [done|]. split; [by rewrite <- Hissued|].
  intros k b Hget Hk Hext. apply (Hrefs k b); [|done|].
  - apply alist_get_Some_elem. rewrite Hsame; [done|].
    intros ->. by rewrite beginsWith_objNrAttr in Hk.
  - eapply sameShape_isExt; [apply Hev1 | done].
Qed.

(** Serialization returns, keeps the graph well formed, and describes
    every [ExtObject] by a node that carries its id. *)
Lemma createDescription_ok D n : describeSpec D n.
Proof.
  induction n as [|n IHn]; intros v w c dv Hok Hdepth Hdv Hn; [lia|].
  destruct v as [|b|z|s|a].
  1-4: (eexists (_, w, c); split; [reflexivity|];
        split; [done|]; split; [apply evolves_refl|]; split; [done|];
        intros a [=]).
  destruct (heap w !! a) as [[elems|entries|attrs]|] eqn:Ha.
  - (* Array *)
    cbn [createDescription]. rewrite Ha.
    destruct dv as [|dv]; cbn in Hdepth; rewrite Ha in Hdepth; [done|].
    assert (Helems : Forall (fun v => depthOk dv (heap w) v = true) elems).
    { apply Forall_forall. intros x Hx.
      rewrite forallb_forall in Hdepth. apply Hdepth. by apply list_elem_of_In. }
    destruct (describeElems_ok D n IHn elems [] w c dv Hok Helems)
      as (ds & w' & c' & Hrun & Hok' & Hev & Hscan); [lia|lia|].
    rewrite Hrun. cbn. eexists (_, w', c'). split; [reflexivity|].
    split; [done|]. split; [done|]. split; [done|].
    intros a' [= <-] [attrs Hext]. congruence.
  - (* Map *)
    cbn [createDescription]. rewrite Ha.
    destruct dv as [|dv]; cbn in Hdepth; rewrite Ha in Hdepth; [done|].
    assert (Hentries : Forall (fun kv => depthOk dv (heap w) (snd kv) = true)
                         entries).
    { apply Forall_forall. intros x Hx.
      rewrite forallb_forall in Hdepth. apply Hdepth. by apply list_elem_of_In. }
    pose proof (proj1 Hok a _ Ha) as Hobj.
    apply objectOk_map in Hobj as [Hnd Hres].
    destruct (describeEntries_ok D n IHn entries [] w c dv Hok Hentries Hnd)
      as (ds & w' & c' & Hrun & Hok' & Hev & Hkeys & Hscan); [|lia|lia|].
    { intros k _ Hk. by apply elem_of_nil in Hk. }
    rewrite Hrun. cbn. eexists (_, w', c'). split; [reflexivity|].
    split; [done|]. split; [done|]. split.
    { cbn. right. right. split; [|done].
      by apply (Forall_keys (fun k => reserved k = false) ds entries). }
    intros a' [= <-] [attrs Hext]. congruence.
  - (* ExtObject *)
    destruct (regId w c a) as [i|] eqn:Hreg.
    + (* met before: a reference *)
      cbn [createDescription]. rewrite Ha.
      unfold handlerCreateDescription. rewrite Ha.
      rewrite (findObjectId_regId D w c a attrs (proj1 Hok) Ha), Hreg.
      cbn [mbind option_bind].
      eexists (_, w, c). split; [reflexivity|].
      split; [done|]. split; [apply evolves_refl|].
      assert (Hi : i ∈ issued c).
      { unfold regId in Hreg. rewrite Ha in Hreg.
        destruct (objNr attrs) as [[nr|]|]; try done.
        by apply (proj2 Hok) in Hreg as [_ ?]. }
      split.
      { cbn. left. by exists i. }
      intros a' [= <-] _. exists i. split; [done|]. by left.
    + (* first occurrence *)
      destruct (createDescription_ext D n IHn w c a attrs Hok Ha Hreg)
        as (ds & w' & c' & Hrun & Hok' & Hev & Hreg' & Hfresh & Hskip & Hnd
            & Hscan & _); [lia|].
      set (i := mkId (id c) (S (counter c))) in *.
      exists (idNode i ds, w', c'). split; [done|].
      split; [done|]. split; [done|]. split.
      { change (Scan (S n) (issued c) (idNode i ds) (issued c')).
        unfold idNode. destruct ds; cbn; right; left.
        - exists i, []. by split.
        - exists i, (p :: ds). by split. }
      intros a' [= <-] _. exists i. split; [done|].
      right. by exists ds.
  - destruct dv; cbn in Hdepth; by rewrite Ha in Hdepth.
Qed.

(** *** A description names an object once *)

Lemma ScanList_mono (R : gset string -> Description -> gset string -> Prop) :
  (forall K d K', R K d K' -> K ⊆ K') ->
  forall ds K K', ScanList R K ds K' -> K ⊆ K'.
Proof.
  intros HR. induction ds as [|d rest IH]; intros K K'; cbn.
  - by intros ->.
  - intros (K1 & Hd & Hrest). etrans; [by eapply HR | by eapply IH].
Qed.

Lemma ScanEntries_mono (R : gset string -> Description -> gset string -> Prop) :
  (forall K d K', R K d K' -> K ⊆ K') ->
  forall es K K', ScanEntries R K es K' -> K ⊆ K'.
Proof.
  intros HR. induction es as [|d rest IH]; intros K K'; cbn.
  - by intros ->.
  - intros (K1 & Hd & Hrest). etrans; [by eapply HR | by eapply IH].
Qed.

Lemma idNode_not_refNode i attr j : idNode i attr <> refNode j.
Proof. by destruct attr. Qed.

Lemma idNode_inj i attr j attr' : idNode i attr = idNode j attr' -> i = j.
Proof. destruct attr, attr'; by intros [= ->]. Qed.

Lemma idNode_reserved i attr es :
  idNode i attr = DMap es ->
  ~ Forall (fun kd : string * Description => reserved (fst kd) = false) es.
Proof.
  intros H Hes.
  destruct attr; injection H as <-; by apply Forall_cons in Hes as [? _].
Qed.

Lemma Scan_mono n : forall K d K', Scan n K d K' -> K ⊆ K'.
Proof.
  induction n as [|n IH]; intros K d K'; [done|].
  destruct d as [|b|z|s|ds|es]; cbn [Scan]; try by intros ->.
  - by apply ScanList_mono.
  - intros [(i & _ & _ & ->)|[(i & attr & _ & _ & _ & _ & Hattr)|[_ Hes]]].
    + done.
    + apply (ScanEntries_mono _ IH) in Hattr.
      etrans; [|exact Hattr]. apply union_subseteq_r.
    + by eapply ScanEntries_mono.
Qed.

Lemma Scan_idNode n K i attr K' :
  Scan n K (idNode i attr) K' -> (i ∉ K) /\ (i ∈ K').
Proof.
  destruct n as [|n]; [done|]. intros Hscan.
  remember (idNode i attr) as d eqn:Hd.
  destruct d as [| | | | |es]; try (by destruct attr).
  cbn [Scan] in Hscan.
  destruct Hscan
    as [(j & Hj & _)|[(j & attr' & Hj & Hfresh & _ & _ & Hattr)|[Hes _]]].
  - rewrite Hd in Hj. by apply idNode_not_refNode in Hj.
  - rewrite Hd in Hj. apply idNode_inj in Hj as ->. split; [done|].
    apply (ScanEntries_mono _ (Scan_mono n)) in Hattr.
    apply Hattr. by apply elem_of_union_l, elem_of_singleton.
  - symmetry in Hd. by apply idNode_reserved in Hd.
Qed.

Lemma ScanEntries_known n es :
  forall K K' i k attr,
  ScanEntries (Scan n) K es K' -> i ∈ K -> (k, idNode i attr) ∉ es.
Proof.
  induction es as [|[k0 d0] rest IH]; intros K K' i k attr Hscan Hi Hin.
  - by apply elem_of_nil in Hin.
  - cbn in Hscan. destruct Hscan as (K1 & Hd & Hrest).
    apply elem_of_cons in Hin as [[= <- <-]|Hin].
    + by apply Scan_idNode in Hd as [? _].
    + eapply IH; [exact Hrest| |exact Hin]. by eapply Scan_mono.
Qed.

(** Of two entries that denote one object, one is a reference. *)
Lemma ScanEntries_back_reference n es :
  forall K K' k1 k2 d1 d2 j,
  ScanEntries (Scan n) K es K' -> k1 <> k2 ->
  alist_get k1 es = Some d1 -> alist_get k2 es = Some d2 ->
  denotes d1 j -> denotes d2 j ->
  d1 = refNode j \/ d2 = refNode j.
Proof.
  induction es as [|[k0 d0] rest IH];
    intros K K' k1 k2 d1 d2 j Hscan Hne H1 H2 Hd1 Hd2; [done|].
  destruct Hd1 as [->|[at1 ->]]; [by left|].
  destruct Hd2 as [->|[at2 ->]]; [by right|].
  exfalso. cbn in Hscan. destruct Hscan as (K1 & Hd & Hrest).
  cbn [alist_get] in H1, H2.
  destruct (String.eqb k1 k0) eqn:Hk1, (String.eqb k2 k0) eqn:Hk2.
  - apply String.eqb_eq in Hk1, Hk2. congruence.
  - injection H1 as ->. apply Scan_idNode in Hd as [_ Hj].
    apply alist_get_Some_elem in H2.
    by eapply ScanEntries_known.
  - injection H2 as ->. apply Scan_idNode in Hd as [_ Hj].
    apply alist_get_Some_elem in H1.
    by eapply ScanEntries_known.
  - destruct (IH K1 K' k1 k2 _ _ j Hrest Hne H1 H2) as [H|H].
    + right. by exists at1.
    + right. by exists at2.
    + by apply idNode_not_refNode in H.
    + by apply idNode_not_refNode in H.
Qed.

(** *** Round trip *)

Lemma unregistered_bound w c : unregistered w c <= length (heap w).
Proof.
  unfold unregistered. etrans; [apply length_filter|]. by rewrite length_seq.
Qed.

Lemma srcOk_newContext D w cid : graphOk D w = true -> srcOk D w (newContext cid).
Proof.
  intros Hgraph. split; [by apply graphOk_heapOk|].
  intros nr i Hi. cbn in Hi. by rewrite lookup_empty in Hi.
Qed.

Lemma regId_newContext w cid a : regId w (newContext cid) a = None.
Proof.
  unfold regId. destruct (heap w !! a) as [[| |attrs]|]; try done.
  by destruct (objNr attrs) as [[nr|]|].
Qed.

(** C5 (as amended): in a well-formed graph, let two different attributes
    of an ExtObject [o] reference one ExtObject [x].  Serializing [o] in
    a new context returns a description in which the two attributes
    denote one id, one of them by a back-reference; reconstructing from
    it in a new context of any world returns an ExtObject whose two
    attributes reference one single ExtObject. *)
Theorem round_trip_shares_ExtObject (D : nat) (w : World) (cid : string)
    (fuel : nat) (o x : nat) (a1 a2 : string) (attrs : list (string * Value)) :
  graphOk D w = true ->
  heap w !! o = Some (OExt attrs) ->
  alist_get a1 attrs = Some (VRef x) ->
  alist_get a2 attrs = Some (VRef x) ->
  a1 <> a2 ->
  beginsWith a1 "__" = false -> beginsWith a2 "__" = false ->
  isExt (heap w) x ->
  length (heap w) * S D < fuel ->
  (exists i ds w' c' j d1 d2,
     serialize fuel (VRef o) w (newContext cid) = Some (idNode i ds, w', c')
     /\ alist_get a1 ds = Some d1 /\ alist_get a2 ds = Some d2
     /\ denotes d1 j /\ denotes d2 j
     /\ (d1 = refNode j \/ d2 = refNode j))
  /\ forall w2 cid2, exists res x',
       roundTrip fuel (VRef o) w cid w2 cid2 = Some res
       /\ attributeOf res a1 = Some (VRef x')
       /\ attributeOf res a2 = Some (VRef x')
       /\ isExt (heap (snd (fst res))) x'.
Proof.
  intros Hgraph Ho H1 H2 Hne Hb1 Hb2 Hx Hfuel.
  destruct fuel as [|n]; [lia|].
  pose proof (srcOk_newContext D w cid Hgraph) as Hok.
  destruct (createDescription_ext D n (createDescription_ok D n) w
              (newContext cid) o attrs Hok Ho (regId_newContext w cid o))
    as (ds & w' & c' & Hrun & Hok' & Hev & Hreg' & Hfresh & Hskip & Hnd
        & Hscan & Hrefs).
  { pose proof (unregistered_bound w (newContext cid)) as Hun.
    pose proof (Nat.mul_le_mono_r _ _ (S D) Hun). lia. }
  set (i := mkId (id (newContext cid)) (S (counter (newContext cid)))) in *.
  destruct (Hrefs a1 x H1 Hb1 Hx) as (j & d1 & Hj1 & Hd1 & Hden1).
  destruct (Hrefs a2 x H2 Hb2 Hx) as (j' & d2 & Hj2 & Hd2 & Hden2).
  assert (j' = j) by congruence. subst j'.
  split.
  { exists i, ds, w', c', j, d1, d2. split; [exact Hrun|].
    split; [done|]. split; [done|]. split; [done|]. split; [done|].
    by eapply ScanEntries_back_reference. }
  intros w2 cid2. unfold roundTrip, serialize, createFromString.
  rewrite Hrun. cbn [mbind option_bind].
  destruct (createObject_idNode_scan n (createObject_scan n) i ds (issued c')
              w2 (newContext cid2))
    as (attrs' & w2' & c2' & Hrun2 & Hpost & Hobj & Hattrs).
  { cbn. rewrite dom_empty_L. apply not_elem_of_empty. }
  { done. }
  { done. }
  { cbn [objRegistry_ObjIdToObj newContext]. rewrite dom_empty_L.
    exact Hscan. }
  { intros k a Hk. cbn in Hk. by rewrite lookup_empty in Hk. }
  destruct (Hattrs a1 d1 j Hd1 Hden1) as (x1 & Hx1 & Hr1).
  destruct (Hattrs a2 d2 j Hd2 Hden2) as (x2 & Hx2 & Hr2).
  assert (x2 = x1) by congruence. subst x2.
  exists (VRef (length (heap w2)), w2', c2'), x1.
  split; [exact Hrun2|]. unfold attributeOf. cbn [fst snd]. rewrite Hobj.
  split; [done|]. split; [done|].
  destruct Hpost as (_ & _ & Hdst & _). by eapply Hdst.
Qed.

Lemma round_trip_shares_ExtObject_witness :
  (exists i ds w' c' j d1 d2,
     serialize 3 (VRef 0%nat) sharedExtObjectExample (newContext "42")
     = Some (idNode i ds, w', c')
     /\ alist_get "data1" ds = Some d1 /\ alist_get "data2" ds = Some d2
     /\ denotes d1 j /\ denotes d2 j
     /\ (d1 = refNode j \/ d2 = refNode j))
  /\ forall w2 cid2, exists res x',
       roundTrip 3 (VRef 0%nat) sharedExtObjectExample "42" w2 cid2 = Some res
       /\ attributeOf res "data1" = Some (VRef x')
       /\ attributeOf res "data2" = Some (VRef x')
       /\ isExt (heap (snd (fst res))) x'.
Proof.
  apply (round_trip_shares_ExtObject 0 sharedExtObjectExample "42" 3
           0 1 "data1" "data2"
           [("data1"%string, VRef 1%nat); ("data2"%string, VRef 1%nat)]).
  - vm_compute. reflexivity.
  - reflexivity.
  - reflexivity.
  - reflexivity.
  - discriminate.
  - reflexivity.
  - reflexivity.
  - eexists. reflexivity.
  - cbn. lia.
Defined.

(** The specification's statement fails for a shared [Array]: the two
    attributes [a] and [b] of an object hold one array; the round trip
    returns, and for every bound its result holds two different arrays
    (the handler of [Array] does not track identity). *)
Lemma round_trip_duplicates_shared_array :
  graphOk 1 sharedArrayExample = true
  /\ attributeOf (VRef 0%nat, sharedArrayExample, newContext "42") "a"
     = Some (VRef 1%nat)
  /\ attributeOf (VRef 0%nat, sharedArrayExample, newContext "42") "b"
     = Some (VRef 1%nat)
  /\ (exists res, roundTrip 4 (VRef 0%nat) sharedArrayExample "42"
                    emptyWorld "43" = Some res)
  /\ forall fuel res,
       roundTrip fuel (VRef 0%nat) sharedArrayExample "42" emptyWorld "43"
       = Some res ->
       attributeOf res "a" <> attributeOf res "b".
Proof.
  split; [by vm_compute|]. split; [reflexivity|]. split; [reflexivity|].
  split; [eexists; by vm_compute|].
  intros fuel res Hrun.
  destruct fuel as [|[|[|[|k]]]]; vm_compute in Hrun; try discriminate.
  all: injection Hrun as <-; vm_compute; discriminate.
Qed.

End ObjectSerializationClaims.

(** ** Static data blocks: a sequence of declarations *)

Section StaticDataOperations.
Import EScript.

(** Declarations in a row get consecutive indices: on a block with [n]
    slots, declaring [names] returns [n, n+1, ...], appends the names in
    their order and as many unset values, and touches no earlier slot,
    as long as the block stays within [2^32] slots. *)
Theorem declareStaticVariables_consecutive (names : list StringId)
    (sd : StaticData) :
  length (staticVariableNames sd) = length (staticVariableValues sd) ->
  Z.of_nat (length (staticVariableNames sd) + length names) <= uint32_max ->
  let r := declareStaticVariables names sd in
  fst r = Z.of_nat <$> seq (length (staticVariableNames sd)) (length names)
  /\ staticVariableNames (snd r) = staticVariableNames sd ++ names
  /\ staticVariableValues (snd r)
     = staticVariableValues sd ++ replicate (length names) None.
Proof.
  revert sd. induction names as [|name rest IH]; intros sd Hlen Hmax.
  - cbn. by rewrite !app_nil_r.
  - cbn zeta in *. cbn [declareStaticVariables declareStaticVariable].
    cbn [length] in Hmax.
    specialize (IH (mkStaticData (staticVariableNames sd ++ [name])
                      (staticVariableValues sd ++ [None]))).
    cbn [staticVariableNames staticVariableValues] in IH.
    rewrite !length_app in IH. cbn [length] in IH.
    destruct IH as (Hids & Hnames & Hvalues); [lia | lia |].
    destruct (declareStaticVariables rest _) as [ids sd'].
    cbn [fst snd] in *. subst ids.
    rewrite Hnames, Hvalues, <- !app_assoc.
    cbn [length app replicate seq fmap list_fmap].
    split; [|done]. f_equal.
    + rewrite length_app. cbn [length]. unfold to_uint32.
      rewrite Z.mod_small; [lia|]. unfold uint32_max in *. lia.
    + by rewrite Nat.add_1_r.
Qed.

Lemma declareStaticVariables_consecutive_witness :
  let sd := mkStaticData ["a"%string] [Some 7%nat] in
  let r := declareStaticVariables ["b"%string; "c"%string] sd in
  fst r = [1; 2]
  /\ staticVariableNames (snd r) = ["a"%string; "b"%string; "c"%string]
  /\ staticVariableValues (snd r) = [Some 7%nat; None; None].
Proof.
  apply (declareStaticVariables_consecutive ["b"%string; "c"%string]
           (mkStaticData ["a"%string] [Some 7%nat])).
  - reflexivity.
  - vm_compute. discriminate.
Defined.

End StaticDataOperations.

(** ** The priority queue: single operations and other comparisons *)

Section PriorityQueueOperations.
Import PriorityQueue.
Local Open Scope nat_scope.

(** *** Any comparison function: no element is lost *)

Lemma add_loop_perm {A} (cmp : A -> A -> bool) (e : A) fuel :
  forall a i, i <= fuel -> a !! i = Some e ->
  exists a', add_loop fuel cmp e a i = Some a' /\ a' ≡ₚ a.
Proof.
  induction fuel as [|fuel IH]; intros a i Hfuel Hi.
  - assert (i = 0) as -> by lia. by exists a.
  - cbn [add_loop]. destruct (0 <? i) eqn:Hpos; [|by exists a].
    apply Nat.ltb_lt in Hpos.
    pose proof (parent_lt i Hpos) as Hp. fold (parent i). cbn zeta.
    pose proof (lookup_lt_Some _ _ _ Hi) as Hlen.
    destruct (lookup_lt_is_Some_2 a (parent i)) as [t Ht]; [lia|].
    rewrite Ht. cbn [mbind option_bind].
    destruct (cmp e t); [|by exists a].
    destruct (IH (<[i := t]> (<[parent i := e]> a)) (parent i))
      as (a' & Hrun & Hperm); [lia| |].
    + rewrite list_lookup_insert_ne by lia.
      apply list_lookup_insert_eq. lia.
    + exists a'. split; [done|]. rewrite Hperm.
      by apply Permutation_insert_swap.
Qed.

Lemma add_perm {A} (e : A) (q : T A) :
  exists q', add e q = Some q' /\ compare q' = compare q
             /\ arr q' ≡ₚ e :: arr q.
Proof.
  unfold add. cbn zeta. rewrite length_app. cbn [length].
  replace (length (arr q) + 1 - 1) with (length (arr q)) by lia.
  destruct (add_loop_perm (compare q) e (length (arr q)) (arr q ++ [e])
              (length (arr q))) as (a' & Hrun & Hperm); [lia| |].
  - by rewrite lookup_app_r, Nat.sub_diag.
  - rewrite Hrun. cbn. eexists. split; [reflexivity|]. cbn.
    split; [done|]. rewrite Hperm. symmetry. apply Permutation_cons_append.
Qed.

Lemma heapify_perm {A} (cmp : A -> A -> bool) fuel :
  forall a i, i < length a -> length a <= fuel + i ->
  exists a', heapify fuel cmp a i = Some a' /\ a' ≡ₚ a.
Proof.
  induction fuel as [|fuel IH]; intros a i Hi Hfuel; [lia|].
  cbn [heapify]. cbn zeta.
  destruct ((i + 1) * 2 - 1 <? length a) eqn:Hleft; [|by exists a].
  apply Nat.ltb_lt in Hleft.
  destruct (lookup_lt_is_Some_2 a _ Hleft) as [al Hal].
  destruct (lookup_lt_is_Some_2 a _ Hi) as [am Ham].
  rewrite Hal, Ham. cbn [mbind option_bind].
  set (m1 := if cmp al am then (i + 1) * 2 - 1 else i).
  assert (Hm1 : m1 < length a /\ (m1 = i \/ i < m1)).
  { unfold m1. destruct (cmp al am); split; lia. }
  assert (Hm : exists m,
             (if (i + 1) * 2 - 1 + 1 <? length a
              then ar ← a !! ((i + 1) * 2 - 1 + 1);
                   am0 ← a !! m1;
                   Some (if cmp ar am0 then (i + 1) * 2 - 1 + 1 else m1)
              else Some m1) = Some m
             /\ m < length a /\ (m = i \/ i < m)).
  { destruct ((i + 1) * 2 - 1 + 1 <? length a) eqn:Hright.
    - apply Nat.ltb_lt in Hright.
      destruct (lookup_lt_is_Some_2 a _ Hright) as [ar Har].
      destruct (lookup_lt_is_Some_2 a _ (proj1 Hm1)) as [am1 Ham1].
      rewrite Har, Ham1. cbn [mbind option_bind].
      eexists. split; [reflexivity|]. destruct (cmp ar am1); [lia|done].
    - by exists m1. }
  destruct Hm as (m & -> & Hmlen & Hmcase). cbn [mbind option_bind].
  case_decide as Hne; [|by exists a].
  destruct (lookup_lt_is_Some_2 a _ Hmlen) as [amin Hamin].
  rewrite Hamin. cbn [mbind option_bind].
  destruct (IH (<[m := am]> (<[i := amin]> a)) m) as (a' & Hrun & Hperm).
  - by rewrite !length_insert.
  - rewrite !length_insert. lia.
  - exists a'. split; [done|]. rewrite Hperm.
    by apply Permutation_insert_swap.
Qed.

Lemma extract_perm {A} (q : T A) :
  arr q <> [] ->
  exists v q', extract q = Some (Some v, q') /\ compare q' = compare q
               /\ arr q ≡ₚ v :: arr q'.
Proof.
  destruct q as [cmp a]. cbn [arr compare]. intros Hne.
  destruct a as [|x rest]; [done|]. clear Hne.
  unfold extract. cbn [arr compare].
  destruct rest as [|y rest' _] using rev_ind.
  { exists x. eexists. cbn. split; [reflexivity|]. by cbn. }
  assert (Hlen : length (x :: rest' ++ [y]) = S (S (length rest'))).
  { cbn. rewrite length_app. cbn. lia. }
  rewrite Hlen. cbn [Nat.ltb Nat.leb]. cbn [lookup list_lookup mbind option_bind].
  unfold popBack. rewrite app_comm_cons.
  rewrite last_snoc, removelast_last. cbn [mbind option_bind].
  cbn [insert list_insert]. cbn [length].
  destruct (heapify_perm cmp (S (length rest')) (y :: rest') 0)
    as (a' & Hrun & Hperm); [cbn; lia | cbn; lia |].
  rewrite Hrun. cbn [mbind option_bind].
  exists x. eexists. split; [reflexivity|]. cbn [arr compare].
  split; [done|]. rewrite Hperm. cbn [app]. constructor.
  apply (Permutation_app_comm rest' [y]).
Qed.

(** Whatever the comparison function answers, [add] and [extract]
    return, [add] puts exactly the new element into the queue, and
    [extract] on a queue that is not empty takes exactly one element out
    and returns it. *)
Theorem add_extract_keep_elements {A : Type} (q : T A) (e : A) :
  (exists q', add e q = Some q'
              /\ arr q' ≡ₚ e :: arr q
              /\ fst (count q') = S (fst (count q)))
  /\ (fst (empty q) = false ->
      exists v q', extract q = Some (Some v, q')
                   /\ arr q ≡ₚ v :: arr q'
                   /\ S (fst (count q')) = fst (count q)).
Proof.
  split.
  - destruct (add_perm e q) as (q' & Hrun & _ & Hperm).
    exists q'. split; [done|]. split; [done|].
    cbn. by rewrite Hperm.
  - intros Hne.
    destruct (extract_perm q) as (v & q' & Hrun & _ & Hperm).
    { intros Hnil. unfold empty in Hne. by rewrite Hnil in Hne. }
    exists v, q'. split; [done|]. split; [done|].
    cbn. by rewrite Hperm.
Qed.

(** *** The default comparison: one operation at a time *)

(** [add] on a queue in heap order returns a queue in heap order that
    holds the old elements and the new one. *)
Theorem add_keeps_heap_order (e : Z) (q : T Z) :
  compare q = defaultCompare -> heapOrdered (arr q) ->
  exists q', add e q = Some q'
             /\ heapOrdered (arr q')
             /\ arr q' ≡ₚ e :: arr q
             /\ fst (get q') = Some (Z.min e (default e (fst (get q)))).
Proof.
  intros Hcmp Hheap.
  destruct (add_ok e q Hcmp Hheap) as (q' & Hrun & _ & Hheap' & Hperm).
  exists q'. split; [done|]. split; [done|]. split; [done|].
  pose proof (heapOrdered_root_le_all _ Hheap') as Hmin'.
  pose proof (heapOrdered_root_le_all _ Hheap) as Hmin.
  unfold get, empty. cbn [fst].
  destruct (arr q') as [|x' rest'] eqn:Hq'.
  { apply Permutation_length in Hperm. discriminate Hperm. }
  cbn. f_equal. change (rd (x' :: rest') 0) with x' in Hmin'.
  assert (Hin : x' ∈ e :: arr q) by (rewrite <- Hperm; by left).
  rewrite Hperm in Hmin'. apply Forall_cons in Hmin' as [Hxe Hxq].
  destruct (arr q) as [|x rest] eqn:Hq; cbn.
  - apply elem_of_cons in Hin as [->|Hin]; [lia|]. by apply elem_of_nil in Hin.
  - change (rd (x :: rest) 0) with x in Hmin.
    apply Forall_cons in Hxq as [Hxx _].
    apply elem_of_cons in Hin as [->|Hin]; [lia|].
    rewrite Forall_forall in Hmin. specialize (Hmin _ Hin). lia.
Qed.

Lemma add_keeps_heap_order_witness :
  exists q', add 2%Z (mkT defaultCompare [1; 5; 3]%Z) = Some q'
             /\ heapOrdered (arr q')
             /\ arr q' ≡ₚ 2%Z :: [1; 5; 3]%Z
             /\ fst (get q')
                = Some (Z.min 2
                          (default 2%Z
                             (fst (get (mkT defaultCompare [1; 5; 3]%Z))))).
Proof.
  apply (add_keeps_heap_order 2%Z (mkT defaultCompare [1; 5; 3]%Z)).
  - reflexivity.
  - intros j Hj. cbn in Hj.
    destruct j as [|[|[|j]]]; [lia| | |lia]; vm_compute; discriminate.
Defined.

(** [extract] on a queue in heap order that is not empty returns its
    smallest element and leaves the other elements, in heap order;
    [get] returns the same element and leaves it in. *)
Theorem extract_returns_minimum (q : T Z) :
  compare q = defaultCompare -> heapOrdered (arr q) -> fst (empty q) = false ->
  exists v q', extract q = Some (Some v, q')
               /\ fst (get q) = Some v
               /\ Forall (fun x => (v <= x)%Z) (arr q)
               /\ arr q ≡ₚ v :: arr q'
               /\ heapOrdered (arr q').
Proof.
  intros Hcmp Hheap Hne.
  assert (Hnil : arr q <> []).
  { intros Hnil. unfold empty in Hne. by rewrite Hnil in Hne. }
  destruct (extract_ok q Hcmp Hheap Hnil)
    as (v & q' & Hrun & _ & Hheap' & Hperm & Hmin).
  exists v, q'. split; [done|].
  assert (Hall : Forall (fun x => (v <= x)%Z) (arr q)).
  { rewrite Hperm. constructor; [lia | done]. }
  split; [|done].
  unfold get. rewrite Hne. cbn [fst].
  destruct (arr q) as [|x rest] eqn:Hq; [done|]. cbn. f_equal.
  pose proof (heapOrdered_root_le_all _ Hheap) as Hroot.
  change (rd (x :: rest) 0) with x in Hroot.
  apply Forall_cons in Hall as [Hvx _].
  assert (Hin : v ∈ x :: rest) by (rewrite Hperm; by left).
  rewrite Forall_forall in Hroot. specialize (Hroot _ Hin). lia.
Qed.

Lemma extract_returns_minimum_witness :
  exists v q', extract (mkT defaultCompare [1; 5; 3]%Z) = Some (Some v, q')
               /\ fst (get (mkT defaultCompare [1; 5; 3]%Z)) = Some v
               /\ Forall (fun x => (v <= x)%Z) [1; 5; 3]%Z
               /\ [1; 5; 3]%Z ≡ₚ v :: arr q'
               /\ heapOrdered (arr q').
Proof.
  apply (extract_returns_minimum (mkT defaultCompare [1; 5; 3]%Z)).
  - reflexivity.
  - intros j Hj. cbn in Hj.
    destruct j as [|[|[|j]]]; [lia| | |lia]; vm_compute; discriminate.
  - reflexivity.
Defined.

Lemma add_extract_keep_elements_witness :
  (exists q', add 4%Z (mkT (fun a b : Z => true) [1; 5; 3]%Z) = Some q'
              /\ arr q' ≡ₚ 4%Z :: [1; 5; 3]%Z
              /\ fst (count q') = 4)
  /\ exists v q', extract (mkT (fun a b : Z => true) [1; 5; 3]%Z)
                  = Some (Some v, q')
                  /\ [1; 5; 3]%Z ≡ₚ v :: arr q'
                  /\ S (fst (count q')) = 3.
Proof.
  destruct (add_extract_keep_elements
              (mkT (fun a b : Z => true) [1; 5; 3]%Z) 4%Z) as [Hadd Hextract].
  split; [exact Hadd | apply Hextract; reflexivity].
Defined.

(** *** Comparison by a key *)

Section ByKey.
Context {A : Type} (key : A -> Z) (cmp : A -> A -> bool).
Hypothesis cmp_key : forall a b, cmp a b = (key a <? key b)%Z.

Lemma add_loop_fmap fuel : forall (e : A) (a : list A) (i : nat),
  add_loop fuel defaultCompare (key e) (key <$> a) i
  = (fun a' : list A => key <$> a') <$> add_loop fuel cmp e a i.
Proof.
  induction fuel as [|fuel IH]; intros e a i; cbn [add_loop].
  - by destruct (0 <? i).
  - destruct (0 <? i); [|done]. cbn zeta. rewrite list_lookup_fmap.
    destruct (a !! ((i + 1) / 2 - 1)) as [t|]; [|done].
    cbn [fmap option_fmap option_map mbind option_bind].
    unfold defaultCompare at 1. rewrite <- cmp_key.
    destruct (cmp e t); [|done].
    rewrite <- !list_fmap_insert. apply IH.
Qed.

Lemma add_fmap (e : A) (q : T A) :
  compare q = cmp ->
  add (key e) (mkT defaultCompare (key <$> arr q))
  = (fun q' : T A => mkT defaultCompare (key <$> arr q')) <$> add e q.
Proof.
  intros Hq. unfold add. cbn [arr compare]. cbn zeta. rewrite Hq.
  rewrite !length_app, length_fmap. cbn [length].
  change [key e] with (key <$> [e]). rewrite <- fmap_app.
  rewrite add_loop_fmap.
  by destruct (add_loop _ cmp e _ _).
Qed.

Lemma heapify_fmap fuel : forall (a : list A) (i : nat),
  heapify fuel defaultCompare (key <$> a) i
  = (fun a' : list A => key <$> a') <$> heapify fuel cmp a i.
Proof.
  induction fuel as [|fuel IH]; intros a i; [done|].
  assert (Hcmp : forall x y, defaultCompare (key x) (key y) = cmp x y).
  { intros x y. unfold defaultCompare. by rewrite cmp_key. }
  assert (Htail : forall (am : A) (m : nat),
    (if decide (m <> i)
     then am0 ← (key <$> a) !! m;
          heapify fuel defaultCompare
            (<[m := key am]> (<[i := am0]> (key <$> a))) m
     else Some (key <$> a))
    = (fun a' : list A => key <$> a')
      <$> (if decide (m <> i)
           then am0 ← a !! m;
                heapify fuel cmp (<[m := am]> (<[i := am0]> a)) m
           else Some a)).
  { intros am m. case_decide; [|done]. rewrite list_lookup_fmap.
    destruct (a !! m) as [amin|]; [|done].
    cbn [fmap option_fmap option_map mbind option_bind].
    rewrite <- !list_fmap_insert. apply IH. }
  cbn [heapify]. cbn zeta. rewrite length_fmap.
  destruct ((i + 1) * 2 - 1 <? length a); [|done].
  rewrite (list_lookup_fmap key a ((i + 1) * 2 - 1)).
  destruct (a !! ((i + 1) * 2 - 1)) as [al|]; [|done].
  rewrite (list_lookup_fmap key a i).
  destruct (a !! i) as [am|] eqn:Hi; [|done].
  cbn [fmap option_fmap option_map mbind option_bind].
  rewrite Hcmp.
  set (m1 := if cmp al am then (i + 1) * 2 - 1 else i).
  destruct ((i + 1) * 2 - 1 + 1 <? length a).
  - rewrite (list_lookup_fmap key a ((i + 1) * 2 - 1 + 1)).
    destruct (a !! ((i + 1) * 2 - 1 + 1)) as [ar|]; [|done].
    rewrite (list_lookup_fmap key a m1).
    destruct (a !! m1) as [am1|]; [|done].
    cbn [fmap option_fmap option_map mbind option_bind].
    rewrite Hcmp. apply Htail.
  - cbn [mbind option_bind]. apply Htail.
Qed.

Lemma removelast_fmap (l : list A) :
  removelast (key <$> l) = key <$> removelast l.
Proof.
  induction l as [|x [|y rest] IH]; [done..|].
  cbn [fmap list_fmap removelast] in *. by rewrite IH.
Qed.

Lemma extract_fmap (q : T A) :
  compare q = cmp ->
  extract (mkT defaultCompare (key <$> arr q))
  = (fun r : option A * T A =>
       (key <$> fst r, mkT defaultCompare (key <$> arr (snd r))))
    <$> extract q.
Proof.
  intros Hq. unfold extract, popBack. cbn [arr compare].
  rewrite Hq, length_fmap, !list_lookup_fmap, fmap_last, removelast_fmap.
  destruct (1 <? length (arr q)).
  - destruct (arr q !! 0) as [min|]; [|done].
    cbn [fmap option_fmap option_map mbind option_bind].
    destruct (last (arr q)) as [back|]; [|done].
    cbn [fmap option_fmap option_map mbind option_bind].
    rewrite <- list_fmap_insert, length_fmap, heapify_fmap.
    by destruct (heapify _ cmp _ _).
  - destruct (length (arr q) =? 1); [|done].
    by destruct (arr q !! 0) as [min|].
Qed.

Lemma addAll_fmap (vs : list A) : forall q : T A,
  compare q = cmp ->
  addAll (key <$> vs) (mkT defaultCompare (key <$> arr q))
  = (fun q' : T A => mkT defaultCompare (key <$> arr q')) <$> addAll vs q.
Proof.
  induction vs as [|v rest IH]; intros q Hq; [done|].
  cbn [fmap list_fmap addAll]. rewrite add_fmap by done.
  destruct (add_perm v q) as (q1 & Hadd & Hq1 & _). rewrite Hadd.
  cbn [fmap option_fmap option_map mbind option_bind].
  apply IH. congruence.
Qed.

Lemma extractAll_fmap fuel : forall q : T A,
  compare q = cmp ->
  extractAll fuel (mkT defaultCompare (key <$> arr q))
  = (fun r : list A * T A =>
       (key <$> fst r, mkT defaultCompare (key <$> arr (snd r))))
    <$> extractAll fuel q.
Proof.
  induction fuel as [|fuel IH]; intros q Hq.
  - cbn. destruct (arr q) eqn:Harr; cbn; [by rewrite Harr | done].
  - cbn [extractAll]. unfold empty. cbn [arr fst].
    destruct (arr q) as [|x rest] eqn:Harr; cbn [fmap list_fmap];
      [cbn; by rewrite Harr|].
    change (key x :: (key <$> rest)) with (key <$> x :: rest).
    rewrite <- Harr.
    rewrite extract_fmap by done.
    destruct (extract_perm q) as (v & q1 & Hex & Hq1 & _); [congruence|].
    rewrite Hex. cbn [fmap option_fmap option_map mbind option_bind fst snd].
    rewrite IH by congruence.
    by destruct (extractAll fuel q1) as [[out q2]|].
Qed.

End ByKey.

Lemma addAll_perm {A} (vs : list A) : forall (q q' : T A),
  addAll vs q = Some q' -> arr q' ≡ₚ vs ++ arr q.
Proof.
  induction vs as [|v rest IH]; intros q q' Hrun.
  - by injection Hrun as <-.
  - cbn [addAll] in Hrun.
    destruct (add_perm v q) as (q1 & Hadd & _ & Hperm). rewrite Hadd in Hrun.
    cbn in Hrun. rewrite (IH _ _ Hrun), Hperm. cbn.
    by rewrite Permutation_middle.
Qed.

Lemma extractAll_perm {A} fuel : forall (q : T A) out q',
  extractAll fuel q = Some (out, q') -> arr q ≡ₚ out ++ arr q'.
Proof.
  induction fuel as [|fuel IH]; intros q out q' Hrun.
  - cbn [extractAll] in Hrun. unfold empty in Hrun. cbn [fst] in Hrun.
    destruct (arr q) as [|x rest] eqn:Harr; simplify_eq. by rewrite Harr.
  - cbn [extractAll] in Hrun. unfold empty in Hrun. cbn [fst] in Hrun.
    destruct (arr q) as [|x rest] eqn:Harr;
      [simplify_eq; by rewrite Harr|].
    destruct (extract_perm q) as (v & q1 & Hex & _ & Hperm); [congruence|].
    rewrite Hex in Hrun. cbn in Hrun.
    destruct (extractAll fuel q1) as [[vs q2]|] eqn:Hrest; [|done].
    cbn in Hrun. injection Hrun as <- <-.
    rewrite <- Harr, Hperm, (IH _ _ _ Hrest). done.
Qed.

Lemma addAll_compare {A} (vs : list A) : forall (q q' : T A),
  addAll vs q = Some q' -> compare q' = compare q.
Proof.
  induction vs as [|v rest IH]; intros q q' Hrun.
  - by injection Hrun as <-.
  - cbn [addAll] in Hrun.
    destruct (add_perm v q) as (q1 & Hadd & Hc & _). rewrite Hadd in Hrun.
    cbn in Hrun. by rewrite (IH _ _ Hrun).
Qed.

(** A queue whose comparison orders the elements by an integer key
    ([key a < key b]) returns them, whatever they are, in ascending order
    of the key: inserting [vs] and extracting until the queue is empty
    gives a rearrangement of [vs] whose keys are sorted. *)
Theorem queue_extracts_by_key {A : Type} (key : A -> Z) (cmp : A -> A -> bool)
    (vs : list A) :
  (forall a b, cmp a b = (key a <? key b)%Z) ->
  exists (q : T A) (out : list A) (q' : T A),
    addAll vs (_constructor cmp) = Some q
    /\ extractAll (length vs) q = Some (out, q')
    /\ out ≡ₚ vs
    /\ Sorted Z.le (key <$> out)
    /\ fst (empty q') = true.
Proof.
  intros Hcmp.
  destruct (addAll_ok (key <$> vs) (_constructor defaultCompare))
    as (qz & Haddz & Hcz & Hheap & Hpermz); [done | apply heapOrdered_nil |].
  pose proof (addAll_fmap key cmp Hcmp vs (_constructor cmp) eq_refl) as Hsim.
  unfold _constructor in *. cbn [arr fmap list_fmap] in Hsim.
  rewrite Haddz in Hsim.
  destruct (addAll vs (mkT cmp [])) as [q|] eqn:Hadd; [|discriminate Hsim].
  cbn in Hsim. injection Hsim as ->.
  pose proof (addAll_compare _ _ _ Hadd) as Hq. cbn in Hq.
  pose proof (addAll_perm _ _ _ Hadd) as Hperm. cbn in Hperm.
  rewrite app_nil_r in Hperm.
  destruct (extractAll_ok (length vs) (mkT defaultCompare (key <$> arr q)))
    as (outz & qz' & Hexz & _ & Hsorted & Hnil); [done | done | |].
  { cbn. by rewrite length_fmap, Hperm. }
  rewrite (extractAll_fmap key cmp Hcmp _ q Hq) in Hexz.
  destruct (extractAll (length vs) q) as [[out q']|] eqn:Hex; [|done].
  cbn in Hexz. injection Hexz as <- <-. cbn in Hnil.
  apply fmap_nil_inv in Hnil.
  exists q, out, q'. split; [done|]. split; [done|].
  pose proof (extractAll_perm _ _ _ _ Hex) as Hperm'.
  rewrite Hnil, app_nil_r in Hperm'.
  split; [by rewrite <- Hperm', Hperm|].
  split; [by apply StronglySorted_Sorted|].
  unfold empty. by rewrite Hnil.
Qed.

Lemma queue_extracts_by_key_witness :
  exists (q : T Z) (out : list Z) (q' : T Z),
    addAll [4; 7; 1; 3]%Z (_constructor (fun a b : Z => (b <? a)%Z)) = Some q
    /\ extractAll 4 q = Some (out, q')
    /\ out ≡ₚ [4; 7; 1; 3]%Z
    /\ Sorted Z.le (Z.opp <$> out)
    /\ fst (empty q') = true.
Proof.
  apply (queue_extracts_by_key Z.opp (fun a b : Z => (b <? a)%Z)
           [4; 7; 1; 3]%Z).
  intros a b. destruct (Z.ltb_spec b a), (Z.ltb_spec (- a) (- b)); lia.
Defined.

End PriorityQueueOperations.

(** ** The configuration manager: single operations *)

Section ConfigManagerOperations.
Import ConfigManager.
Local Open Scope nat_scope.

Lemma alist_set_get_id {V} k (v : V) l :
  alist_get k l = Some v -> alist_set k v l = l.
Proof.
  induction l as [|[k' v'] rest IH]; cbn; [done|].
  destruct (String.eqb k k') eqn:Hk.
  - apply String.eqb_eq in Hk as ->. by intros [= ->].
  - intros H. by rewrite IH.
Qed.

Lemma alist_get_unset {V} k (l : list (string * V)) :
  NoDup (fst <$> l) -> alist_get k (alist_unset k l) = None.
Proof.
  induction l as [|[k' v'] rest IH]; cbn; [done|].
  intros Hnd. apply NoDup_cons in Hnd as [Hk' Hnd].
  destruct (String.eqb k k') eqn:Hk.
  - apply String.eqb_eq in Hk as ->. by apply alist_get_None.
  - cbn. rewrite Hk. by apply IH.
Qed.

Lemma mapGet_mapSet_ne group k k' v :
  k' <> k -> mapGet (mapSet group k v) k' = mapGet group k'.
Proof.
  intros Hne. destruct group; try done. cbn.
  by rewrite alist_get_set_ne.
Qed.

Lemma mapSet_mapGet_id group k :
  isMap (mapGet group k) = true -> mapSet group k (mapGet group k) = group.
Proof.
  destruct group as [| | | | |id entries]; try done. cbn.
  destruct (alist_get k entries) as [v|] eqn:Hget; [|done]. cbn.
  intros _. by rewrite alist_set_get_id.
Qed.

Lemma valueAt_void path : valueAt VVoid path = VVoid.
Proof. induction path as [|k rest IH]; [done|]. apply IH. Qed.

Lemma valueAt_not_map v path :
  isMap v = false -> path <> [] -> valueAt v path = VVoid.
Proof.
  intros Hv Hpath. destruct path as [|k rest]; [done|]. cbn.
  destruct v; try done; apply valueAt_void.
Qed.

Lemma valueAt_empty_map id path :
  path <> [] -> valueAt (VMap id []) path = VVoid.
Proof.
  intros Hpath. destruct path as [|k rest]; [done|]. apply valueAt_void.
Qed.

Lemma findGroup_valueAt groupNames : forall group key,
  match findGroup group groupNames with
  | None => VVoid
  | Some leaf => mapGet leaf key
  end = valueAt group (groupNames ++ [key]).
Proof.
  induction groupNames as [|g rest IH]; intros group key; [done|].
  cbn [findGroup app valueAt].
  destruct (isMap (mapGet group g)) eqn:Hsub; [apply IH|].
  symmetry. apply valueAt_not_map; [done|]. by destruct rest.
Qed.

Lemma storedValue_valueAt key this :
  storedValue key this = valueAt (data this) (fullPath key).
Proof. rewrite storedValue_keyPath. apply findGroup_valueAt. Qed.

Lemma JSON_eqb_refl j : JSON_eqb j j = true.
Proof.
  induction j as [|b|n|s|elems IH|members IH] using JSON_nested_ind; cbn.
  - done.
  - by destruct b.
  - apply Z.eqb_refl.
  - apply String.eqb_refl.
  - induction IH as [|x rest Hx _ IHrest]; [done|]. by rewrite Hx, IHrest.
  - induction IH as [|[k x] rest Hx _ IHrest]; [done|].
    cbn in Hx. by rewrite String.eqb_refl, Hx, IHrest.
Qed.

Lemma toJSON_not_null v : v <> VVoid -> toJSON v <> JNull.
Proof. intros Hv Hj. by apply toJSON_null in Hj. Qed.

(** The flag of [setIn]: the data changed iff the entry did not print as
    the new text. *)
Lemma setIn_changed key newJSON groupNames : forall group n,
  snd (setIn group groupNames key newJSON n)
  = negb (JSON_eqb (toJSON (valueAt group (groupNames ++ [key]))) newJSON).
Proof.
  induction groupNames as [|g rest IH]; intros group n.
  - cbn. destruct (JSON_eqb _ _); cbn; [done|].
    by destruct (parseJSON newJSON n).
  - cbn [setIn app valueAt].
    destruct (isMap (mapGet group g)) eqn:Hsub.
    + specialize (IH (mapGet group g) n).
      by destruct (setIn (mapGet group g) rest key newJSON n) as [[? ?] ?].
    + specialize (IH (VMap n []) (S n)).
      destruct (setIn (VMap n []) rest key newJSON (S n)) as [[? ?] ?].
      cbn [snd] in *. rewrite IH.
      rewrite valueAt_empty_map by (by destruct rest).
      by rewrite valueAt_not_map by (done || by destruct rest).
Qed.

Lemma setIn_unchanged key newJSON groupNames : forall group n,
  newJSON <> JNull ->
  toJSON (valueAt group (groupNames ++ [key])) = newJSON ->
  setIn group groupNames key newJSON n = (group, n, false).
Proof.
  induction groupNames as [|g rest IH]; intros group n Hnull Hsame.
  - cbn in *. by rewrite Hsame, JSON_eqb_refl.
  - cbn [setIn app valueAt] in *.
    destruct (isMap (mapGet group g)) eqn:Hsub.
    + rewrite (IH _ _ Hnull Hsame). by rewrite mapSet_mapGet_id.
    + rewrite valueAt_not_map in Hsame by (done || by destruct rest).
      by destruct Hnull.
Qed.

Lemma setIn_frame key newJSON groupNames : forall group n path,
  isMap group = true ->
  ~ (groupNames ++ [key]) `prefix_of` path ->
  ~ path `prefix_of` (groupNames ++ [key]) ->
  valueAt (fst (fst (setIn group groupNames key newJSON n))) path
  = valueAt group path.
Proof.
  induction groupNames as [|g rest IH]; intros group n path Hmap Hp1 Hp2.
  - destruct path as [|k2 rest2]; [destruct Hp2; apply prefix_nil|].
    assert (k2 <> key).
    { intros ->. apply Hp1. apply prefix_cons, prefix_nil. }
    cbn [setIn]. destruct (negb _); [|done].
    destruct (parseJSON newJSON n) as [copy n']. cbn.
    by rewrite mapGet_mapSet_ne.
  - destruct path as [|k2 rest2]; [destruct Hp2; apply prefix_nil|].
    cbn [setIn].
    assert (Hstep : forall sub n0,
               isMap sub = true ->
               valueAt sub rest2 = valueAt (mapGet group g) rest2 \/ k2 <> g ->
               valueAt (fst (fst (
                 let '(newGroup', next', changed) :=
                   setIn sub rest key newJSON n0 in
                 (mapSet group g newGroup', next', changed)))) (k2 :: rest2)
               = valueAt group (k2 :: rest2)).
    { intros sub n0 Hsub Hold.
      destruct (decide (k2 = g)) as [->|Hne].
      - specialize (IH sub n0 rest2 Hsub).
        destruct (setIn sub rest key newJSON n0) as [[sub' n'] changed].
        cbn [fst valueAt] in *. rewrite mapGet_mapSet by done.
        rewrite IH.
        + by destruct Hold.
        + intros Hpre. apply Hp1. cbn. by apply prefix_cons.
        + intros Hpre. apply Hp2. cbn. by apply prefix_cons.
      - destruct (setIn sub rest key newJSON n0) as [[sub' n'] changed].
        cbn [fst valueAt]. by rewrite mapGet_mapSet_ne. }
    destruct (isMap (mapGet group g)) eqn:Hsub.
    + apply Hstep; [done | by left].
    + apply Hstep; [done|].
      destruct (decide (k2 = g)) as [->|Hne]; [left | by right].
      assert (rest2 <> []).
      { intros ->. apply Hp2. cbn. apply prefix_cons, prefix_nil. }
      rewrite valueAt_empty_map by done.
      by rewrite valueAt_not_map.
Qed.

Lemma setValue_data key value this w :
  value <> VVoid ->
  data (fst (setValue key value this w))
  = fst (fst (setIn (data this) (snd (keyPath key)) (fst (keyPath key))
                (toJSON value) (nextId w))).
Proof.
  intros Hv. rewrite setValue_nonvoid by done.
  by destruct (setIn _ _ _ _ _) as [[? ?] ?].
Qed.

(** What [setValue] stores is what [getValue] returns: after
    [setValue(key, value)] with a value other than [void], every
    [getValue(key, ...)] returns a value that prints as [value], whatever
    default it is given, and leaves the manager as it is. *)
Theorem setValue_then_getValue (key : string) (value later : Value)
    (this : T) (w w2 : World) :
  value <> VVoid -> storeBelow this w ->
  let this' := fst (setValue key value this w) in
  toJSON (fst (fst (getValue key later this' w2))) = toJSON value
  /\ snd (fst (getValue key later this' w2)) = this'.
Proof.
  intros Hv Hstore. cbn zeta.
  destruct (setValue_spec key value this w Hv Hstore) as (_ & _ & _ & Hstored).
  apply getValue_of_stored; [done|]. by apply toJSON_not_null.
Qed.

Lemma setValue_then_getValue_witness :
  let this := mkT (VMap 0 [("Foo"%string, VNumber 1)]) "config.json" false in
  let this' := fst (setValue "Foo.bar.a1" (VNumber 2) this (mkWorld 10 [])) in
  toJSON (fst (fst (getValue "Foo.bar.a1" (VNumber 7) this' (mkWorld 20 []))))
  = toJSON (VNumber 2)
  /\ snd (fst (getValue "Foo.bar.a1" (VNumber 7) this' (mkWorld 20 [])))
     = this'.
Proof.
  apply (setValue_then_getValue "Foo.bar.a1" (VNumber 2) (VNumber 7)
           (mkT (VMap 0 [("Foo"%string, VNumber 1)]) "config.json" false)
           (mkWorld 10 []) (mkWorld 20 [])).
  - discriminate.
  - split; [reflexivity|]. repeat constructor.
Defined.

(** Storing a value under a key that already holds a value printing the
    same is no operation at all: the data stay as they are, no object is
    created, and nothing is saved, [autoSave] or not. *)
Theorem setValue_same_value_is_noop (key : string) (value : Value)
    (this : T) (w : World) :
  value <> VVoid ->
  toJSON (storedValue key this) = toJSON value ->
  setValue key value this w = (this, w).
Proof.
  intros Hv Hsame. rewrite setValue_nonvoid by done.
  rewrite storedValue_valueAt in Hsame. unfold fullPath in Hsame.
  rewrite (setIn_unchanged _ _ _ _ _ (toJSON_not_null _ Hv) Hsame).
  cbn. by destruct this, w.
Qed.

Lemma setValue_same_value_is_noop_witness :
  setValue "Foo" (VArray 7 [VNumber 1])
    (mkT (VMap 0 [("Foo"%string, VArray 3 [VNumber 1])]) "config.json" true)
    (mkWorld 10 [])
  = (mkT (VMap 0 [("Foo"%string, VArray 3 [VNumber 1])]) "config.json" true,
     mkWorld 10 []).
Proof.
  apply (setValue_same_value_is_noop "Foo" (VArray 7 [VNumber 1])
           (mkT (VMap 0 [("Foo"%string, VArray 3 [VNumber 1])])
              "config.json" true) (mkWorld 10 [])).
  - discriminate.
  - reflexivity.
Defined.

(** What [setValue] writes: with a value other than [void], the file of
    the manager is written exactly when [autoSave] is on and the entry
    did not already print as the value; it then holds the new data.  No
    other file is touched. *)
Theorem setValue_saves_iff_changed (key : string) (value : Value)
    (this : T) (w : World) :
  value <> VVoid ->
  let this' := fst (setValue key value this w) in
  files (snd (setValue key value this w))
  = if autoSave this
       && negb (JSON_eqb (toJSON (storedValue key this)) (toJSON value))
    then (filename this, toJSON (data this')) :: files w
    else files w.
Proof.
  intros Hv. cbn zeta. rewrite setValue_nonvoid by done.
  rewrite storedValue_valueAt. unfold fullPath.
  rewrite <- (setIn_changed (fst (keyPath key)) (toJSON value)
                (snd (keyPath key)) (data this) (nextId w)).
  destruct (setIn _ _ _ _ _) as [[data' n'] changed]. cbn [fst snd].
  by destruct changed, (autoSave this).
Qed.

Lemma setValue_saves_iff_changed_witness :
  let this := mkT (VMap 0 [("Foo"%string, VNumber 1)]) "config.json" true in
  files (snd (setValue "Foo" (VNumber 2) this (mkWorld 10 [])))
  = [("config.json"%string, JObject [("Foo"%string, JNumber 2)])].
Proof.
  apply (setValue_saves_iff_changed "Foo" (VNumber 2)
           (mkT (VMap 0 [("Foo"%string, VNumber 1)]) "config.json" true)
           (mkWorld 10 [])).
  discriminate.
Defined.

Lemma setValue_frame (key other : string) (value : Value) (this : T)
    (w : World) :
  value <> VVoid -> isMap (data this) = true ->
  ~ fullPath key `prefix_of` fullPath other ->
  ~ fullPath other `prefix_of` fullPath key ->
  storedValue other (fst (setValue key value this w))
  = storedValue other this.
Proof.
  intros Hv Hmap Hp1 Hp2.
  rewrite !storedValue_valueAt, setValue_data by done.
  by apply setIn_frame.
Qed.

(** [setValue] changes nothing off its path: a key whose pieces neither
    begin with the pieces of the key that is set nor are a beginning of
    them holds the value it held before. *)
Theorem setValue_keeps_other_keys (key other : string) (value : Value)
    (this : T) (w : World) :
  value <> VVoid -> isMap (data this) = true ->
  ~ fullPath key `prefix_of` fullPath other ->
  ~ fullPath other `prefix_of` fullPath key ->
  storedValue other (fst (setValue key value this w))
  = storedValue other this.
Proof. apply setValue_frame. Qed.

Lemma setValue_keeps_other_keys_witness :
  let this :=
    mkT (VMap 0 [("Foo"%string, VMap 1 [("bar"%string, VNumber 1)])])
      "config.json" false in
  storedValue "Foo.bar" (fst (setValue "Foo.baz.x" (VNumber 2) this
                                (mkWorld 10 [])))
  = storedValue "Foo.bar" this.
Proof.
  apply (setValue_keeps_other_keys "Foo.baz.x" "Foo.bar" (VNumber 2)
           (mkT (VMap 0 [("Foo"%string, VMap 1 [("bar"%string, VNumber 1)])])
              "config.json" false) (mkWorld 10 [])).
  - discriminate.
  - reflexivity.
  - vm_compute. intros [k Hk]. discriminate Hk.
  - vm_compute. intros [k Hk]. discriminate Hk.
Defined.

(** [setValue] stores a copy: no object of the value handed in is part
    of the store afterwards, so a later change to such an object does not
    show in the store. *)
Theorem setValue_stores_copy (key : string) (value : Value) (this : T)
    (w : World) :
  value <> VVoid -> storeBelow this w ->
  Forall (fun i => i < nextId w) (ids value) ->
  Forall (fun i => i ∉ ids (data this)) (ids value) ->
  let this' := fst (setValue key value this w) in
  forall i, i ∈ ids value ->
    (i ∉ ids (data this'))
    /\ forall f, mutateObject i f (data this') = data this'.
Proof.
  intros Hv Hstore Hold Hout. cbn zeta. intros i Hi.
  destruct (setValue_spec key value this w Hv Hstore) as (_ & _ & Hids & _).
  rewrite Forall_forall in Hold, Hout.
  assert (Hnot : i ∉ ids (data (fst (setValue key value this w)))).
  { assert (Hall : Forall (fun j => j <> i)
                     (ids (data (fst (setValue key value this w))))).
    { apply Hids.
      - apply Forall_forall. intros j Hj ->. by apply (Hout i).
      - intros j Hj ->. specialize (Hold i Hi). cbn in Hold. lia. }
    rewrite Forall_forall in Hall. intros Hin. by apply (Hall i Hin). }
  split; [done|]. intros f. by apply mutateObject_absent.
Qed.

Lemma setValue_stores_copy_witness :
  let this := mkT (VMap 0 [("Foo"%string, VNumber 1)]) "config.json" false in
  let this' :=
    fst (setValue "list" (VArray 5 [VNumber 2]) this (mkWorld 10 [])) in
  (5 ∉ ids (data this'))
  /\ forall f, mutateObject 5 f (data this') = data this'.
Proof.
  apply (setValue_stores_copy "list" (VArray 5 [VNumber 2])
           (mkT (VMap 0 [("Foo"%string, VNumber 1)]) "config.json" false)
           (mkWorld 10 [])).
  - discriminate.
  - split; [reflexivity|]. repeat constructor.
  - repeat constructor.
  - constructor; [|constructor]. cbn. intros Hin.
    apply list_elem_of_singleton in Hin. discriminate Hin.
  - cbn. by left.
Defined.

(** *** Removing an entry *)

Lemma splitChar_no_separator c s :
  containsChar c s = false -> splitChar c s = [s].
Proof.
  induction s as [|c' rest IH]; cbn; [done|].
  destruct (Ascii.eqb c c'); [done|]. intros Hrest. by rewrite IH.
Qed.

Lemma popBack_splitChar key :
  popBack (splitChar "." key) = keyPath key.
Proof.
  unfold keyPath. destruct (containsChar "." key) eqn:Hdot; [done|].
  by rewrite splitChar_no_separator.
Qed.

Lemma keysDistinct_mapGet group k :
  keysDistinct group = true -> keysDistinct (mapGet group k) = true.
Proof.
  destruct group as [| | | | |id entries]; try done. cbn.
  intros H. apply andb_true_iff in H as [_ H].
  rewrite forallb_forall in H.
  destruct (alist_get k entries) as [v|] eqn:Hget; [|done]. cbn.
  apply alist_get_Some_elem in Hget.
  apply (H (k, v)). by apply list_elem_of_In.
Qed.

Lemma unsetIn_removes key groupNames : forall group,
  isMap group = true -> keysDistinct group = true ->
  match unsetIn group groupNames key with
  | Some group' =>
      isMap group' = true /\ valueAt group' (groupNames ++ [key]) = VVoid
  | None => valueAt group (groupNames ++ [key]) = VVoid
  end.
Proof.
  induction groupNames as [|g rest IH]; intros group Hmap Hkeys.
  - destruct group as [| | | | |id entries]; try done. cbn in *.
    split; [done|]. apply andb_true_iff in Hkeys as [Hnd _].
    apply bool_decide_eq_true in Hnd. by rewrite alist_get_unset.
  - cbn [unsetIn app valueAt].
    destruct (isMap (mapGet group g)) eqn:Hsub.
    + specialize (IH (mapGet group g) Hsub (keysDistinct_mapGet _ _ Hkeys)).
      destruct (unsetIn (mapGet group g) rest key) as [sub'|]; cbn; [|done].
      destruct IH as [_ IH]. split; [by rewrite isMap_mapSet|].
      by rewrite mapGet_mapSet.
    + apply valueAt_not_map; [done|]. by destruct rest.
Qed.

(** Removing an entry: after [setValue(key, void)], which is
    [unsetValue(key)], the key holds nothing, and [getValue(key)] returns
    [void] without changing anything. *)
Theorem setValue_void_removes (key : string) (this : T) (w w2 : World) :
  isMap (data this) = true -> keysDistinct (data this) = true ->
  let this' := fst (setValue key VVoid this w) in
  this' = fst (unsetValue key this w)
  /\ storedValue key this' = VVoid
  /\ getValue key VVoid this' w2 = (VVoid, this', w2).
Proof.
  intros Hmap Hkeys. cbn zeta. split; [done|].
  assert (Hgone : storedValue key (fst (setValue key VVoid this w)) = VVoid).
  { rewrite storedValue_valueAt. cbn [setValue]. unfold unsetValue.
    rewrite popBack_splitChar. unfold fullPath.
    destruct (keyPath key) as [k gs]. cbn [fst snd].
    pose proof (unsetIn_removes k gs (data this) Hmap Hkeys) as Hun.
    destruct (unsetIn (data this) gs k) as [data'|]; cbn [fst data].
    - by destruct Hun.
    - done. }
  split; [done|].
  rewrite storedValue_keyPath in Hgone.
  rewrite getValue_keyPath. cbn zeta.
  destruct (findGroup _ _) as [leaf|]; [|done].
  rewrite Hgone. cbn. by destruct w2.
Qed.

Lemma setValue_void_removes_witness :
  let this :=
    mkT (VMap 0 [("Foo"%string, VMap 1 [("bar"%string, VNumber 1)])])
      "config.json" false in
  let this' := fst (setValue "Foo.bar" VVoid this (mkWorld 10 [])) in
  this' = fst (unsetValue "Foo.bar" this (mkWorld 10 []))
  /\ storedValue "Foo.bar" this' = VVoid
  /\ getValue "Foo.bar" VVoid this' (mkWorld 20 [])
     = (VVoid, this', mkWorld 20 []).
Proof.
  apply (setValue_void_removes "Foo.bar"
           (mkT (VMap 0 [("Foo"%string, VMap 1 [("bar"%string, VNumber 1)])])
              "config.json" false) (mkWorld 10 []) (mkWorld 20 []));
    reflexivity.
Defined.

(** *** Files *)

(** A saved configuration is read back: [init] with the name of the
    manager that has just called [save] returns [true] and gives any
    manager data that print as the saved data, made of new objects. *)
Theorem save_then_init (this other : T) (warnOnFailure : bool) (w : World) :
  isMap (data this) = true ->
  let w1 := save this w in
  let r := init (getFilename this) warnOnFailure other w1 in
  fst (fst (fst r)) = true
  /\ toJSON (data (snd (fst (fst r)))) = toJSON (data this)
  /\ getFilename (snd (fst (fst r))) = getFilename this
  /\ snd r = None
  /\ Forall (fun i => nextId w <= i < nextId (snd (fst r)))
       (ids (data (snd (fst (fst r))))).
Proof.
  intros Hmap. cbn zeta. unfold init, loadTextFile, save, getFilename.
  cbn [files nextId alist_get]. rewrite String.eqb_refl.
  pose proof (toJSON_parseJSON (toJSON (data this)) (nextId w)) as Hback.
  pose proof (parseJSON_fresh (toJSON (data this)) (nextId w)) as [_ Hfresh].
  destruct (parseJSON (toJSON (data this)) (nextId w)) as [c next'].
  cbn [fst snd] in *.
  assert (Hc : isMap c = true).
  { destruct (data this); try done. by destruct c. }
  rewrite Hc. by cbn.
Qed.

Lemma save_then_init_witness :
  let this := mkT (VMap 0 [("Foo"%string, VNumber 1)]) "config.json" false in
  let other := mkT (VMap 1 []) "" true in
  let r := init (getFilename this) true other (save this (mkWorld 10 [])) in
  fst (fst (fst r)) = true
  /\ toJSON (data (snd (fst (fst r)))) = toJSON (data this)
  /\ getFilename (snd (fst (fst r))) = getFilename this
  /\ snd r = None
  /\ Forall (fun i => 10 <= i < nextId (snd (fst r)))
       (ids (data (snd (fst (fst r))))).
Proof.
  apply (save_then_init
           (mkT (VMap 0 [("Foo"%string, VNumber 1)]) "config.json" false)
           (mkT (VMap 1 []) "" true) true (mkWorld 10 [])).
  reflexivity.
Defined.

(** A failed [init] keeps the data but has already taken the new file
    name: no file of that name was saved, so the call returns [false] and
    the data stay, yet the next [save] writes them under the new name. *)
Theorem init_missing_file (filename : string) (warnOnFailure : bool)
    (this : T) (w : World) :
  loadTextFile filename w = None ->
  let r := init filename warnOnFailure this w in
  fst (fst (fst r)) = false
  /\ data (snd (fst (fst r))) = data this
  /\ snd (fst r) = w
  /\ (snd r <> None <-> warnOnFailure = true)
  /\ files (save (snd (fst (fst r))) w)
     = (filename, toJSON (data this)) :: files w.
Proof.
  intros Hmiss. cbn zeta. unfold init. rewrite Hmiss. cbn.
  repeat split; try done; by destruct warnOnFailure.
Qed.

Lemma init_missing_file_witness :
  let this := mkT (VMap 0 [("Foo"%string, VNumber 1)]) "config.json" false in
  let r := init "other.json" true this (mkWorld 10 []) in
  fst (fst (fst r)) = false
  /\ data (snd (fst (fst r))) = data this
  /\ snd (fst r) = mkWorld 10 []
  /\ (snd r <> None <-> true = true)
  /\ files (save (snd (fst (fst r))) (mkWorld 10 []))
     = [("other.json"%string, toJSON (data this))].
Proof.
  apply (init_missing_file "other.json" true
           (mkT (VMap 0 [("Foo"%string, VNumber 1)]) "config.json" false)
           (mkWorld 10 [])).
  reflexivity.
Defined.

(** *** Info strings *)

Lemma splitChar_not_nil c s : splitChar c s <> [].
Proof.
  destruct s as [|c' rest]; cbn; [done|].
  destruct (Ascii.eqb c c'); [done|]. by destruct (splitChar c rest).
Qed.

Lemma fullPath_splitChar key : fullPath key = splitChar "." key.
Proof.
  unfold fullPath. rewrite <- popBack_splitChar. unfold popBack. cbn [fst snd].
  symmetry. apply app_removelast_last, splitChar_not_nil.
Qed.

Lemma splitChar_append c s t :
  containsChar c t = false ->
  splitChar c (s +:+ t)
  = removelast (splitChar c s) ++ [List.last (splitChar c s) EmptyString +:+ t].
Proof.
  intros Ht. induction s as [|c' rest IH].
  - cbn. by apply splitChar_no_separator.
  - change (String c' rest +:+ t) with (String c' (rest +:+ t)).
    cbn [splitChar]. rewrite IH.
    pose proof (splitChar_not_nil c rest) as Hne.
    destruct (splitChar c rest) as [|p ps]; [done|].
    destruct (Ascii.eqb c c').
    + done.
    + by destruct ps.
Qed.

Lemma String_append_length s t :
  String.length (s +:+ t) = String.length s + String.length t.
Proof.
  induction s as [|c rest IH]; [done|].
  change (String c rest +:+ t) with (String c (rest +:+ t)).
  cbn [String.length]. by rewrite IH.
Qed.

Lemma fullPath_info key :
  ~ fullPath (key +:+ " (INFO)") `prefix_of` fullPath key
  /\ ~ fullPath key `prefix_of` fullPath (key +:+ " (INFO)").
Proof.
  rewrite !fullPath_splitChar, splitChar_append by done.
  pose proof (splitChar_not_nil "." key) as Hne.
  pose proof (app_removelast_last EmptyString Hne) as Hl.
  set (front := removelast (splitChar "." key)) in *.
  set (x := List.last (splitChar "." key) EmptyString) in *.
  clearbody front x. rewrite Hl. clear Hl Hne.
  assert (Hx : x +:+ " (INFO)" <> x).
  { intros Heq. apply (f_equal String.length) in Heq.
    rewrite String_append_length in Heq. cbn in Heq. lia. }
  split; intros Hpre; apply prefix_length_eq in Hpre;
    try (rewrite !length_app; cbn; lia);
    apply app_inv_head in Hpre; by injection Hpre.
Qed.

(** An info string lies beside the entry it describes: [setInfo(key,
    info)] leaves the value of [key] as it is, and the info is what
    [getValue] then returns for the key extended by [" (INFO)"]. *)
Theorem setInfo_keeps_value (key : string) (info : Value) (this : T)
    (w w2 : World) :
  info <> VVoid -> storeBelow this w ->
  let this' := fst (setInfo key info this w) in
  storedValue key this' = storedValue key this
  /\ toJSON (fst (fst (getValue (key +:+ " (INFO)") VVoid this' w2)))
     = toJSON info.
Proof.
  intros Hv Hstore. cbn zeta. unfold setInfo. split.
  - destruct (fullPath_info key) as [Hp1 Hp2].
    apply setValue_frame; [done | apply Hstore | done | done].
  - destruct (setValue_spec (key +:+ " (INFO)") info this w Hv Hstore)
      as (_ & _ & _ & Hstored).
    apply getValue_of_stored; [done|]. by apply toJSON_not_null.
Qed.

Lemma setInfo_keeps_value_witness :
  let this :=
    mkT (VMap 0 [("Foo"%string, VMap 1 [("bar"%string, VNumber 1)])])
      "config.json" false in
  let this' :=
    fst (setInfo "Foo.bar" (VString "a number") this (mkWorld 10 [])) in
  storedValue "Foo.bar" this' = storedValue "Foo.bar" this
  /\ toJSON (fst (fst (getValue ("Foo.bar" +:+ " (INFO)") VVoid this'
                         (mkWorld 20 []))))
     = toJSON (VString "a number").
Proof.
  apply (setInfo_keeps_value "Foo.bar" (VString "a number")
           (mkT (VMap 0 [("Foo"%string, VMap 1 [("bar"%string, VNumber 1)])])
              "config.json" false) (mkWorld 10 []) (mkWorld 20 [])).
  - discriminate.
  - split; [reflexivity|]. repeat constructor.
Defined.

End ConfigManagerOperations.

(** ** Object serialization: single operations *)

Section ObjectSerializationOperations.
Import ObjectSerialization.
Local Open Scope nat_scope.

(** *** What serialization does to the world *)

Section WorldRelation.
Variable R : World -> World -> Prop.
Hypothesis R_refl : forall w, R w w.
Hypothesis R_trans : forall w1 w2 w3, R w1 w2 -> R w2 w3 -> R w1 w3.
Hypothesis R_register : forall a w c r,
  registerObject a None w c = Some r -> R w (snd (fst r)).

Section Callback.
Variable cd : Value -> World -> Context -> option (Description * World * Context).
Hypothesis cd_R : forall v w c r, cd v w c = Some r -> R w (snd (fst r)).

Lemma describeElems_R : forall elems acc w c r,
  describeElems cd elems acc w c = Some r -> R w (snd (fst r)).
Proof.
  induction elems as [|v rest IH]; intros acc w c r Hrun.
  - injection Hrun as <-. apply R_refl.
  - cbn [describeElems] in Hrun.
    destruct (cd v w c) as [[[d w1] c1]|] eqn:Hv; [|done].
    cbn in Hrun. eapply R_trans; [apply (cd_R _ _ _ _ Hv) | by eapply IH].
Qed.

Lemma describeEntries_R : forall entries acc w c r,
  describeEntries cd entries acc w c = Some r -> R w (snd (fst r)).
Proof.
  induction entries as [|[k v] rest IH]; intros acc w c r Hrun.
  - injection Hrun as <-. apply R_refl.
  - cbn [describeEntries] in Hrun.
    destruct (cd v w c) as [[[d w1] c1]|] eqn:Hv; [|done].
    cbn in Hrun. eapply R_trans; [apply (cd_R _ _ _ _ Hv) | by eapply IH].
Qed.

Lemma getAttributeDescription_R : forall attrs m w c r,
  getAttributeDescription cd attrs m w c = Some r -> R w (snd (fst r)).
Proof.
  induction attrs as [|[k v] rest IH]; intros m w c r Hrun.
  - injection Hrun as <-. apply R_refl.
  - cbn [getAttributeDescription] in Hrun.
    destruct (negb (beginsWith k "__")); [|by eapply IH].
    destruct (cd v w c) as [[[d w1] c1]|] eqn:Hv; [|done].
    cbn in Hrun. eapply R_trans; [apply (cd_R _ _ _ _ Hv) | by eapply IH].
Qed.

Lemma handlerCreateDescription_R a w c r :
  handlerCreateDescription cd extObjectHandler a w c = Some r ->
  R w (snd (fst r)).
Proof.
  unfold handlerCreateDescription. intros Hrun.
  destruct (heap w !! a) as [[| |attrs]|]; try done.
  destruct (findObjectId attrs c) as [[i|]|]; try done.
  { cbn in Hrun. injection Hrun as <-. apply R_refl. }
  cbn [mbind option_bind trackIdentity extObjectHandler] in Hrun.
  destruct (registerObject a None w c) as [[[i w1] c1]|] eqn:Hreg; [|done].
  cbn [mbind option_bind] in Hrun.
  destruct (heap w1 !! a) as [[| |attrs1]|]; try done.
  destruct (getAttributeDescription cd attrs1 [] w1 c1)
    as [[[attr w2] c2]|] eqn:Hattr; [|done].
  cbn in Hrun. injection Hrun as <-. cbn.
  eapply R_trans; [apply (R_register _ _ _ _ Hreg)|].
  apply (getAttributeDescription_R _ _ _ _ _ Hattr).
Qed.

End Callback.

Lemma createDescription_R n : forall v w c r,
  createDescription n v w c = Some r -> R w (snd (fst r)).
Proof.
  induction n as [|n IH]; intros v w c r Hrun; [done|].
  cbn [createDescription] in Hrun.
  destruct v as [|b|z|s|a]; try (injection Hrun as <-; apply R_refl).
  destruct (heap w !! a) as [[elems|entries|attrs]|]; [| | |done].
  - destruct (describeElems (createDescription n) elems [] w c)
      as [[[ds w1] c1]|] eqn:Hds; [|done].
    cbn in Hrun. injection Hrun as <-.
    apply (describeElems_R _ IH _ _ _ _ _ Hds).
  - destruct (describeEntries (createDescription n) entries [] w c)
      as [[[ds w1] c1]|] eqn:Hds; [|done].
    cbn in Hrun. injection Hrun as <-.
    apply (describeEntries_R _ IH _ _ _ _ _ Hds).
  - by apply (handlerCreateDescription_R _ IH) in Hrun.
Qed.

End WorldRelation.

Lemma sameButObjNr_refl w : sameButObjNr w w.
Proof.
  split; [done|]. split; [done|]. intros a [elems|entries|attrs] Ha; try done.
  by exists attrs.
Qed.

Lemma sameButObjNr_trans w1 w2 w3 :
  sameButObjNr w1 w2 -> sameButObjNr w2 w3 -> sameButObjNr w1 w3.
Proof.
  intros (Hl1 & Hw1 & H1) (Hl2 & Hw2 & H2).
  split; [congruence|]. split; [congruence|].
  intros a o Ha. specialize (H1 a o Ha).
  destruct o as [elems|entries|attrs].
  - apply (H2 a _ H1).
  - apply (H2 a _ H1).
  - destruct H1 as (attrs2 & Ha2 & Hk2).
    destruct (H2 a _ Ha2) as (attrs3 & Ha3 & Hk3).
    exists attrs3. split; [done|]. intros k Hk.
    by rewrite Hk3, Hk2.
Qed.

Lemma registerObject_sameButObjNr a given w c r :
  registerObject a given w c = Some r -> sameButObjNr w (snd (fst r)).
Proof.
  unfold registerObject. intros Hrun.
  destruct (heap w !! a) as [[| |attrs]|] eqn:Ha; try done.
  set (new := match alist_get objNrAttr attrs with
              | Some _ => (attrs, globalObjCounter w)
              | None => _
              end) in Hrun.
  assert (Hnew : forall k, k <> objNrAttr ->
                   alist_get k (fst new) = alist_get k attrs).
  { unfold new. intros k Hk.
    destruct (alist_get objNrAttr attrs); [done|]. cbn.
    by apply alist_get_set_ne. }
  destruct new as [attrs' global].
  destruct (objNr attrs') as [[nr|]|]; try done.
  cbn [mbind option_bind] in Hrun.
  destruct (match given with Some i => _ | None => _ end) as [objId counter'].
  injection Hrun as <-. cbn [fst snd].
  split; [cbn; apply length_insert|]. split; [done|].
  intros b o Hb. cbn [heap].
  destruct (decide (a = b)) as [<-|Hne].
  - rewrite Ha in Hb. injection Hb as <-. exists attrs'.
    split; [|done]. apply list_lookup_insert_eq. by eapply lookup_lt_Some.
  - destruct o as [elems|entries|attrsb];
      rewrite ?list_lookup_insert_ne by done; try done.
    by exists attrsb.
Qed.

(** Serialization returns on every well-formed graph, whatever cycles
    and sharing its [ExtObject]s form, and leaves the graph as it was
    but for the object numbers: arrays and maps are untouched,
    [ExtObject]s keep all other attributes, no warning is issued. *)
Theorem serialize_returns_and_marks_only (D : nat) (w : World)
    (cid : string) (fuel : nat) (v : Value) :
  graphOk D w = true -> depthOk D (heap w) v = true ->
  length (heap w) * S D + D < fuel ->
  exists desc w' c',
    serialize fuel v w (newContext cid) = Some (desc, w', c')
    /\ sameButObjNr w w'.
Proof.
  intros Hgraph Hdepth Hfuel.
  destruct (createDescription_ok D fuel v w (newContext cid) D)
    as ([[desc w'] c'] & Hrun & _); [by apply srcOk_newContext | done | done | |].
  { pose proof (unregistered_bound w (newContext cid)) as Hun.
    pose proof (Nat.mul_le_mono_r _ _ (S D) Hun). lia. }
  exists desc, w', c'. split; [done|].
  apply (createDescription_R sameButObjNr sameButObjNr_refl
           sameButObjNr_trans
           (fun a w c r => registerObject_sameButObjNr a None w c r)
           _ _ _ _ _ Hrun).
Qed.

Lemma serialize_returns_and_marks_only_witness :
  exists desc w' c',
    serialize 6 (VRef 0) sharedExtObjectExample (newContext "42")
    = Some (desc, w', c')
    /\ sameButObjNr sharedExtObjectExample w'.
Proof.
  apply (serialize_returns_and_marks_only 1 sharedExtObjectExample "42" 6
           (VRef 0)).
  - by vm_compute.
  - reflexivity.
  - cbn. lia.
Defined.

(** An array or map that holds itself is never serialized: identity is
    not tracked for arrays and maps, so for every bound on the depth of
    the calls the call does not return. *)
Theorem serialize_container_holding_itself (w : World) (a : nat) :
  holdsItself (heap w) a ->
  forall fuel c, serialize fuel (VRef a) w c = None.
Proof.
  intros Hself fuel. unfold serialize. revert w Hself.
  induction fuel as [|n IH]; intros w Hself c; [done|].
  assert (Hkeep : forall v w0 c0 r,
             holdsItself (heap w0) a ->
             createDescription n v w0 c0 = Some r ->
             holdsItself (heap (snd (fst r))) a).
  { intros v w0 c0 r Hs Hrun.
    apply (createDescription_R sameButObjNr sameButObjNr_refl
             sameButObjNr_trans
             (fun a w c r => registerObject_sameButObjNr a None w c r))
      in Hrun.
    destruct Hrun as (_ & _ & Hobj). unfold holdsItself in *.
    destruct (heap w0 !! a) as [[elems|entries|attrs]|] eqn:Ha; try done.
    - by rewrite (Hobj a _ Ha).
    - by rewrite (Hobj a _ Ha). }
  cbn [createDescription]. unfold holdsItself in Hself.
  destruct (heap w !! a) as [[elems|entries|attrs]|] eqn:Ha; try done.
  - assert (Hloop : forall l acc w0 c0,
               holdsItself (heap w0) a -> VRef a ∈ l ->
               describeElems (createDescription n) l acc w0 c0 = None).
    { induction l as [|v rest IHl]; intros acc w0 c0 Hs Hin.
      - by apply elem_of_nil in Hin.
      - cbn [describeElems].
        destruct (createDescription n v w0 c0) as [[[d w1] c1]|] eqn:Hv;
          [|done].
        cbn [mbind option_bind].
        apply elem_of_cons in Hin as [<-|Hin].
        + by rewrite (IH w0 Hs c0) in Hv.
        + apply IHl; [|done]. apply (Hkeep _ _ _ _ Hs Hv). }
    rewrite Hloop; [done| |done]. unfold holdsItself. by rewrite Ha.
  - assert (Hloop : forall l acc w0 c0,
               holdsItself (heap w0) a -> VRef a ∈ snd <$> l ->
               describeEntries (createDescription n) l acc w0 c0 = None).
    { induction l as [|[k v] rest IHl]; intros acc w0 c0 Hs Hin.
      - by apply elem_of_nil in Hin.
      - cbn [describeEntries].
        destruct (createDescription n v w0 c0) as [[[d w1] c1]|] eqn:Hv;
          [|done].
        cbn [mbind option_bind].
        cbn in Hin. apply elem_of_cons in Hin as [<-|Hin].
        + by rewrite (IH w0 Hs c0) in Hv.
        + apply IHl; [|done]. apply (Hkeep _ _ _ _ Hs Hv). }
    rewrite Hloop; [done| |done]. unfold holdsItself. by rewrite Ha.
Qed.

Lemma serialize_container_holding_itself_witness :
  serialize 9 (VRef 0) (mkWorld [OArray [VNumber 1; VRef 0]] 0 [])
    (newContext "42") = None.
Proof.
  apply (serialize_container_holding_itself
           (mkWorld [OArray [VNumber 1; VRef 0]] 0 []) 0).
  unfold holdsItself. cbn. right. left.
Defined.

(** *** The registry of a context *)

Lemma registerObject_found a given w c attrs :
  heap w !! a = Some (OExt attrs) -> objNr attrs <> None ->
  exists i w' c' attrs' nr,
    registerObject a given w c = Some (i, w', c')
    /\ i = default (mkId (id c) (S (counter c))) given
    /\ heap w' !! a = Some (OExt attrs')
    /\ objNr attrs' = Some (Some nr)
    /\ (alist_get objNrAttr attrs <> None -> attrs' = attrs
        /\ globalObjCounter w' = globalObjCounter w)
    /\ objRegistry_NrToObjId c' = <[nr := i]> (objRegistry_NrToObjId c)
    /\ objRegistry_ObjIdToObj c' = <[i := a]> (objRegistry_ObjIdToObj c).
Proof.
  intros Ha Hnr. unfold registerObject. rewrite Ha.
  pose proof (lookup_lt_Some _ _ _ Ha) as Hlt.
  unfold objNr in *.
  destruct (alist_get objNrAttr attrs) as [v|] eqn:Hget.
  - destruct v as [| |n| |]; try done. rewrite Hget. cbn.
    destruct given as [i|]; cbn; eexists _, _, _, attrs, n;
      (split; [reflexivity|]); (split; [done|]);
      (split; [by apply list_lookup_insert_eq|]);
      rewrite Hget; by repeat split.
  - rewrite alist_get_set_eq. cbn.
    destruct given as [i|]; cbn; eexists _, _, _, _, _;
      (split; [reflexivity|]); (split; [done|]);
      (split; [by apply list_lookup_insert_eq|]);
      rewrite alist_get_set_eq; by repeat split.
Qed.

(** One object in two contexts: registered in one context and then in
    another, the object keeps its number, and each context finds its own
    id from the object and the object from its id. *)
Theorem registerObject_in_two_contexts (a : nat) (w : World)
    (c1 c2 : Context) (attrs : list (string * Value)) :
  heap w !! a = Some (OExt attrs) -> objNr attrs <> None ->
  exists i1 w1 c1' i2 w2 c2' attrs2,
    registerObject a None w c1 = Some (i1, w1, c1')
    /\ registerObject a None w1 c2 = Some (i2, w2, c2')
    /\ globalObjCounter w2 = globalObjCounter w1
    /\ heap w2 !! a = Some (OExt attrs2)
    /\ findObjectId attrs2 c1' = Some (Some i1)
    /\ findObject i1 c1' = Some a
    /\ findObjectId attrs2 c2' = Some (Some i2)
    /\ findObject i2 c2' = Some a.
Proof.
  intros Ha Hnr.
  destruct (registerObject_found a None w c1 attrs Ha Hnr)
    as (i1 & w1 & c1' & attrs1 & nr1 & Hrun1 & _ & Ha1 & Hnr1 & _
        & Hreg1 & Hobj1).
  destruct (registerObject_found a None w1 c2 attrs1 Ha1)
    as (i2 & w2 & c2' & attrs2 & nr2 & Hrun2 & _ & Ha2 & Hnr2 & Hsame
        & Hreg2 & Hobj2); [by rewrite Hnr1|].
  destruct Hsame as [-> Hglobal].
  { unfold objNr in Hnr1. by destruct (alist_get objNrAttr attrs1). }
  assert (nr2 = nr1) as -> by congruence.
  exists i1, w1, c1', i2, w2, c2', attrs1.
  split; [done|]. split; [done|]. split; [done|]. split; [done|].
  unfold findObjectId, findObject. rewrite Hnr1. cbn.
  rewrite Hreg1, Hobj1, Hreg2, Hobj2.
  by rewrite !lookup_insert_eq.
Qed.

Lemma registerObject_in_two_contexts_witness :
  exists i1 w1 c1' i2 w2 c2' attrs2,
    registerObject 0 None (mkWorld [OExt [("data"%string, VNumber 1)]] 0 [])
      (newContext "42") = Some (i1, w1, c1')
    /\ registerObject 0 None w1 (newContext "43") = Some (i2, w2, c2')
    /\ globalObjCounter w2 = globalObjCounter w1
    /\ heap w2 !! 0 = Some (OExt attrs2)
    /\ findObjectId attrs2 c1' = Some (Some i1)
    /\ findObject i1 c1' = Some 0
    /\ findObjectId attrs2 c2' = Some (Some i2)
    /\ findObject i2 c2' = Some 0.
Proof.
  apply (registerObject_in_two_contexts 0
           (mkWorld [OExt [("data"%string, VNumber 1)]] 0 [])
           (newContext "42") (newContext "43")
           [("data"%string, VNumber 1)]).
  - reflexivity.
  - discriminate.
Defined.

(** *** Plain data: the round trip is a deep copy *)

Lemma treeOfElems_app f l1 l2 :
  treeOfElems f (l1 ++ l2)
  = ds1 ← treeOfElems f l1; ds2 ← treeOfElems f l2; Some (ds1 ++ ds2).
Proof.
  induction l1 as [|v rest IH]; cbn.
  - by destruct (treeOfElems f l2).
  - destruct (f v) as [d|]; [|done]. cbn. rewrite IH.
    destruct (treeOfElems f rest) as [ds1|]; [|done]. cbn.
    by destruct (treeOfElems f l2).
Qed.

Lemma treeOfEntries_app f l1 l2 :
  treeOfEntries f (l1 ++ l2)
  = ds1 ← treeOfEntries f l1; ds2 ← treeOfEntries f l2; Some (ds1 ++ ds2).
Proof.
  induction l1 as [|[k v] rest IH]; cbn.
  - by destruct (treeOfEntries f l2).
  - destruct (f v) as [d|]; [|done]. cbn. rewrite IH.
    destruct (treeOfEntries f rest) as [ds1|]; [|done]. cbn.
    by destruct (treeOfEntries f l2).
Qed.

Lemma treeOfElems_ext f g l ds :
  (forall v t, f v = Some t -> g v = Some t) ->
  treeOfElems f l = Some ds -> treeOfElems g l = Some ds.
Proof.
  intros Hfg. revert ds. induction l as [|v rest IH]; intros ds; [done|].
  cbn. destruct (f v) as [d|] eqn:Hv; [|done]. rewrite (Hfg _ _ Hv). cbn.
  destruct (treeOfElems f rest) as [ds1|]; [|done].
  by rewrite (IH _ eq_refl).
Qed.

Lemma treeOfEntries_ext f g l ds :
  (forall v t, f v = Some t -> g v = Some t) ->
  treeOfEntries f l = Some ds -> treeOfEntries g l = Some ds.
Proof.
  intros Hfg. revert ds. induction l as [|[k v] rest IH]; intros ds; [done|].
  cbn. destruct (f v) as [d|] eqn:Hv; [|done]. rewrite (Hfg _ _ Hv). cbn.
  destruct (treeOfEntries f rest) as [ds1|]; [|done].
  by rewrite (IH _ eq_refl).
Qed.

(** The tree of a value depends on the objects from [base] on only, and
    a smaller [base] admits more. *)
Lemma treeOf_transfer base base' n h h' : forall v t,
  base' <= base ->
  (forall a, base <= a -> a < length h -> h' !! a = h !! a) ->
  treeOf base n h v = Some t -> treeOf base' n h' v = Some t.
Proof.
  intros v t Hbase Hsame. revert v t.
  induction n as [|n IH]; intros v t; [done|].
  destruct v as [|b|z|s|a]; try done. cbn [treeOf].
  destruct (a <? base) eqn:Ha; [done|]. apply Nat.ltb_ge in Ha.
  rewrite (proj2 (Nat.ltb_ge a base')) by lia.
  destruct (h !! a) as [o|] eqn:Hlook; [|done].
  rewrite (Hsame a Ha (lookup_lt_Some _ _ _ Hlook)), Hlook.
  destruct o as [elems|entries|attrs]; [| |done].
  - destruct (treeOfElems (treeOf base n h) elems) as [ds|] eqn:Hds; [|done].
    by rewrite (treeOfElems_ext _ _ _ _ IH Hds).
  - destruct (treeOfEntries (treeOf base n h) entries) as [ds|] eqn:Hds;
      [|done].
    by rewrite (treeOfEntries_ext _ _ _ _ IH Hds).
Qed.

Lemma plainWithin_map n es :
  plainWithin (S n) (DMap es) = true <->
  NoDup (fst <$> es)
  /\ Forall (fun kd => reserved (fst kd) = false) es
  /\ Forall (fun kd => plainWithin n (snd kd) = true) es.
Proof.
  cbn [plainWithin]. unfold keysDistinct.
  rewrite !andb_true_iff, bool_decide_eq_true, !forallb_forall, !Forall_forall.
  split.
  - intros [[H1 H2] H3]. split; [done|]. split; intros kd Hin.
    + apply negb_true_iff, H2. by apply list_elem_of_In.
    + apply H3. by apply list_elem_of_In.
  - intros (H1 & H2 & H3). split; [split; [done|]|]; intros kd Hin.
    + apply negb_true_iff, H2. by apply list_elem_of_In.
    + apply H3. by apply list_elem_of_In.
Qed.

Lemma plainWithin_array n ds :
  plainWithin (S n) (DArray ds) = true <->
  Forall (fun d => plainWithin n d = true) ds.
Proof.
  cbn [plainWithin]. rewrite forallb_forall, Forall_forall.
  split; intros H d Hin; apply H; by apply list_elem_of_In.
Qed.

Lemma distinctWithin_map n es :
  distinctWithin (S n) (DMap es) = true <->
  NoDup (fst <$> es)
  /\ Forall (fun kd => distinctWithin n (snd kd) = true) es.
Proof.
  cbn [distinctWithin]. unfold keysDistinct.
  rewrite !andb_true_iff, bool_decide_eq_true, !forallb_forall, !Forall_forall.
  split; intros [H1 H2]; (split; [done|]); intros kd Hin; apply H2;
    by apply list_elem_of_In.
Qed.

Lemma distinctWithin_array n ds :
  distinctWithin (S n) (DArray ds) = true <->
  Forall (fun d => distinctWithin n d = true) ds.
Proof.
  cbn [distinctWithin]. rewrite forallb_forall, Forall_forall.
  split; intros H d Hin; apply H; by apply list_elem_of_In.
Qed.

Lemma plainWithin_distinct n : forall t,
  plainWithin n t = true -> distinctWithin n t = true.
Proof.
  induction n as [|n IH]; intros t Hplain; [done|].
  destruct t as [|b|z|s|ds|es]; try done.
  - apply plainWithin_array in Hplain. apply distinctWithin_array.
    eapply Forall_impl; [exact Hplain|]. apply IH.
  - apply plainWithin_map in Hplain as (Hnd & _ & Hplain).
    apply distinctWithin_map. split; [done|].
    eapply Forall_impl; [exact Hplain|]. intros kd. apply IH.
Qed.

(** Serialization of data without [ExtObject]s: the description is the
    tree of the value, and neither the world nor the context changes. *)
Lemma createDescription_tree n : forall v w c t,
  treeOf 0 n (heap w) v = Some t -> distinctWithin n t = true ->
  createDescription n v w c = Some (t, w, c).
Proof.
  induction n as [|n IH]; intros v w c t Htree Hplain; [done|].
  destruct v as [|b|z|s|a]; try (by injection Htree as <-).
  cbn [treeOf createDescription] in *.
  destruct (heap w !! a) as [[elems|entries|attrs]|]; [| |done|done].
  - destruct (treeOfElems (treeOf 0 n (heap w)) elems) as [ds|] eqn:Hds;
      [|done].
    injection Htree as <-. apply distinctWithin_array in Hplain.
    assert (Hloop : forall l acc dl,
               treeOfElems (treeOf 0 n (heap w)) l = Some dl ->
               Forall (fun d => distinctWithin n d = true) dl ->
               describeElems (createDescription n) l acc w c
               = Some (acc ++ dl, w, c)).
    { induction l as [|v rest IHl]; intros acc dl Hdl Hpl.
      - injection Hdl as <-. cbn. by rewrite app_nil_r.
      - cbn in Hdl. destruct (treeOf 0 n (heap w) v) as [d|] eqn:Hv; [|done].
        cbn in Hdl.
        destruct (treeOfElems (treeOf 0 n (heap w)) rest) as [dr|]; [|done].
        injection Hdl as <-. apply Forall_cons in Hpl as [Hd Hpl].
        cbn [describeElems]. rewrite (IH _ _ _ _ Hv Hd). cbn.
        rewrite (IHl _ _ eq_refl Hpl). by rewrite <- app_assoc. }
    by rewrite (Hloop _ [] _ Hds Hplain).
  - destruct (treeOfEntries (treeOf 0 n (heap w)) entries) as [ds|] eqn:Hds;
      [|done].
    injection Htree as <-. apply distinctWithin_map in Hplain.
    destruct Hplain as (Hnd & Hplain).
    assert (Hloop : forall l acc dl,
               treeOfEntries (treeOf 0 n (heap w)) l = Some dl ->
               Forall (fun kd => distinctWithin n (snd kd) = true) dl ->
               NoDup (fst <$> dl) ->
               (forall k, k ∈ fst <$> dl -> k ∉ fst <$> acc) ->
               describeEntries (createDescription n) l acc w c
               = Some (acc ++ dl, w, c)).
    { induction l as [|[k v] rest IHl]; intros acc dl Hdl Hpl Hnodup Hacc.
      - injection Hdl as <-. cbn. by rewrite app_nil_r.
      - cbn in Hdl. destruct (treeOf 0 n (heap w) v) as [d|] eqn:Hv; [|done].
        cbn in Hdl.
        destruct (treeOfEntries (treeOf 0 n (heap w)) rest) as [dr|]; [|done].
        injection Hdl as <-. apply Forall_cons in Hpl as [Hd Hpl].
        cbn in Hnodup. apply NoDup_cons in Hnodup as [Hk Hnodup].
        cbn [describeEntries]. rewrite (IH _ _ _ _ Hv Hd). cbn.
        rewrite alist_set_fresh.
        2:{ apply alist_get_None, Hacc. cbn. by left. }
        rewrite (IHl _ _ eq_refl Hpl Hnodup).
        + by rewrite <- app_assoc.
        + intros k' Hk'. rewrite fmap_app. cbn. intros Hin.
          apply elem_of_app in Hin as [Hin|Hin].
          * eapply Hacc; [|exact Hin]. cbn. by right.
          * apply list_elem_of_singleton in Hin. by subst k'. }
    rewrite (Hloop _ [] _ Hds Hplain Hnd); [done|].
    intros k _ Hin. by apply elem_of_nil in Hin.
Qed.

Lemma createElems_tree n (Hrec : plainSpec n) : forall ds w c arr vs done,
  Forall (fun d => plainWithin n d = true) ds ->
  heap w !! arr = Some (OArray vs) ->
  treeOfElems (treeOf (S arr) n (heap w)) vs = Some done ->
  exists w' vs',
    createElems (createObject n) arr ds w c = Some (w', c)
    /\ extendsExcept arr w w'
    /\ warnings w' = warnings w
    /\ globalObjCounter w' = globalObjCounter w
    /\ heap w' !! arr = Some (OArray vs')
    /\ treeOfElems (treeOf (S arr) n (heap w')) vs' = Some (done ++ ds).
Proof.
  induction ds as [|d rest IH]; intros w c arr vs done Hplain Harr Hdone.
  - exists w, vs. cbn. rewrite app_nil_r.
    split; [done|]. split; [by split|]. by repeat split.
  - apply Forall_cons in Hplain as [Hd Hplain].
    destruct (Hrec d w c Hd)
      as ([[v w1] c1] & Hrun & Hc & Hext & Hwarn & Hglobal & Htree).
    cbn [fst snd] in *. subst c1.
    pose proof (lookup_lt_Some _ _ _ Harr) as Hlt.
    assert (Harr1 : heap w1 !! arr = Some (OArray vs)).
    { destruct Hext as [_ Hf]. by rewrite Hf. }
    set (w2 := setObject arr (OArray (vs ++ [v])) w1).
    assert (Hlen1 : length (heap w) <= length (heap w1)) by apply Hext.
    destruct (IH w2 c arr (vs ++ [v]) (done ++ [d]) Hplain)
      as (w' & vs' & Hrun' & Hext' & Hwarn' & Hglobal' & Harr' & Htree').
    { apply heap_setObject_eq. lia. }
    { rewrite treeOfElems_app.
      rewrite (treeOfElems_ext (treeOf (S arr) n (heap w))
                 (treeOf (S arr) n (heap w2)) vs done); [|
        intros x tx; apply treeOf_transfer; [done|] | done].
      2:{ intros a Ha Hla. unfold w2. rewrite heap_setObject_ne by lia.
          destruct Hext as [_ Hf]. by apply Hf. }
      cbn [mbind option_bind treeOfElems].
      rewrite (treeOf_transfer (length (heap w)) (S arr) n (heap w1)
                 (heap w2) v d); [done | lia | | done].
      intros a Ha Hla. unfold w2. by rewrite heap_setObject_ne by lia. }
    exists w', vs'. cbn [createElems]. rewrite Hrun.
    cbn [mbind option_bind]. unfold pushBack. rewrite Harr1.
    cbn [mbind option_bind]. fold w2. rewrite Hrun'.
    split; [done|]. split.
    { destruct Hext as [Hl1 Hf1], Hext' as [Hl' Hf'].
      unfold w2 in Hl', Hf'. rewrite length_setObject in Hl', Hf'.
      split; [lia|]. intros a Ha Hne. rewrite Hf' by (lia || done).
      rewrite heap_setObject_ne by done. by apply Hf1. }
    split; [by rewrite Hwarn'|]. split; [by rewrite Hglobal'|].
    split; [done|]. by rewrite Htree', <- app_assoc.
Qed.

Lemma createEntries_tree n (Hrec : plainSpec n) : forall es w c m entries done,
  Forall (fun kd => plainWithin n (snd kd) = true) es ->
  NoDup (fst <$> es) ->
  (forall k, k ∈ fst <$> es -> k ∉ fst <$> entries) ->
  heap w !! m = Some (OMap entries) ->
  treeOfEntries (treeOf (S m) n (heap w)) entries = Some done ->
  exists w' entries',
    createEntries (createObject n) m es w c = Some (w', c)
    /\ extendsExcept m w w'
    /\ warnings w' = warnings w
    /\ globalObjCounter w' = globalObjCounter w
    /\ heap w' !! m = Some (OMap entries')
    /\ treeOfEntries (treeOf (S m) n (heap w')) entries' = Some (done ++ es).
Proof.
  induction es as [|[k d] rest IH];
    intros w c m entries done Hplain Hnd Hfresh Hm Hdone.
  - exists w, entries. cbn. rewrite app_nil_r.
    split; [done|]. split; [by split|]. by repeat split.
  - apply Forall_cons in Hplain as [Hd Hplain]. cbn [snd] in Hd.
    cbn [fmap list_fmap fst] in Hnd. apply NoDup_cons in Hnd as [Hk Hnd].
    destruct (Hrec d w c Hd)
      as ([[v w1] c1] & Hrun & Hc & Hext & Hwarn & Hglobal & Htree).
    cbn [fst snd] in *. subst c1.
    pose proof (lookup_lt_Some _ _ _ Hm) as Hlt.
    assert (Hm1 : heap w1 !! m = Some (OMap entries)).
    { destruct Hext as [_ Hf]. by rewrite Hf. }
    assert (Hset : alist_set k v entries = entries ++ [(k, v)]).
    { apply alist_set_fresh, alist_get_None, Hfresh. cbn. by left. }
    set (w2 := setObject m (OMap (entries ++ [(k, v)])) w1).
    assert (Hlen1 : length (heap w) <= length (heap w1)) by apply Hext.
    destruct (IH w2 c m (entries ++ [(k, v)]) (done ++ [(k, d)]) Hplain Hnd)
      as (w' & entries' & Hrun' & Hext' & Hwarn' & Hglobal' & Hm' & Htree').
    { intros k' Hk'. rewrite fmap_app. cbn. intros Hin.
      apply elem_of_app in Hin as [Hin|Hin].
      - eapply Hfresh; [|exact Hin]. cbn. by right.
      - apply list_elem_of_singleton in Hin. by subst k'. }
    { apply heap_setObject_eq. lia. }
    { rewrite treeOfEntries_app.
      rewrite (treeOfEntries_ext (treeOf (S m) n (heap w))
                 (treeOf (S m) n (heap w2)) entries done); [|
        intros x tx; apply treeOf_transfer; [done|] | done].
      2:{ intros a Ha Hla. unfold w2. rewrite heap_setObject_ne by lia.
          destruct Hext as [_ Hf]. by apply Hf. }
      cbn [mbind option_bind treeOfEntries].
      rewrite (treeOf_transfer (length (heap w)) (S m) n (heap w1)
                 (heap w2) v d); [done | lia | | done].
      intros a Ha Hla. unfold w2. by rewrite heap_setObject_ne by lia. }
    exists w', entries'. cbn [createEntries]. rewrite Hrun.
    cbn [mbind option_bind]. unfold setEntry. rewrite Hm1.
    cbn [mbind option_bind]. rewrite Hset. fold w2. rewrite Hrun'.
    split; [done|]. split.
    { destruct Hext as [Hl1 Hf1], Hext' as [Hl' Hf'].
      unfold w2 in Hl', Hf'. rewrite length_setObject in Hl', Hf'.
      split; [lia|]. intros a Ha Hne. rewrite Hf' by (lia || done).
      rewrite heap_setObject_ne by done. by apply Hf1. }
    split; [by rewrite Hwarn'|]. split; [by rewrite Hglobal'|].
    split; [done|]. by rewrite Htree', <- app_assoc.
Qed.

Lemma createObject_tree n : plainSpec n.
Proof.
  induction n as [|n IH]; intros t w c Hplain; [done|].
  assert (Hprim : forall v,
             createObject (S n) t w c = Some (v, w, c) ->
             treeOf (length (heap w)) (S n) (heap w) v = Some t ->
             exists res, createObject (S n) t w c = Some res
                         /\ plainPost (S n) t w c res).
  { intros v Hrun Htree. eexists. split; [exact Hrun|].
    split; [done|]. split; [apply extends_refl|]. by repeat split. }
  destruct t as [|b|z|s|ds|es]; try (by eapply Hprim).
  - apply plainWithin_array in Hplain. cbn [createObject].
    destruct (createElems_tree n IH ds (snd (alloc (OArray []) w)) c
                (length (heap w)) [] [] Hplain)
      as (w' & vs' & Hrun & Hext & Hwarn & Hglobal & Harr & Htree).
    { apply alloc_lookup. }
    { done. }
    cbn [alloc snd] in Hrun |- *. rewrite Hrun. cbn [mbind option_bind].
    eexists. split; [reflexivity|]. cbn [app] in Htree.
    split; [done|]. split; [by eapply extends_alloc_except|].
    split; [done|]. split; [done|].
    cbn [fst snd treeOf]. rewrite Nat.ltb_irrefl, Harr.
    by rewrite (treeOfElems_ext _ (treeOf (length (heap w)) n (heap w')) _ _
                  (fun v t => treeOf_transfer _ _ n _ _ v t
                                (Nat.le_succ_diag_r _) (fun _ _ _ => eq_refl))
                  Htree).
  - apply plainWithin_map in Hplain as (Hnd & Hres & Hplain).
    rewrite createObject_plain by done.
    destruct (createEntries_tree n IH es (snd (alloc (OMap []) w)) c
                (length (heap w)) [] [] Hplain Hnd)
      as (w' & es' & Hrun & Hext & Hwarn & Hglobal & Hm & Htree).
    { intros k _ Hin. by apply elem_of_nil in Hin. }
    { apply alloc_lookup. }
    { done. }
    rewrite Hrun. cbn [mbind option_bind].
    eexists. split; [reflexivity|]. cbn [app] in Htree.
    split; [done|]. split; [by eapply extends_alloc_except|].
    split; [done|]. split; [done|].
    cbn [fst snd treeOf]. rewrite Nat.ltb_irrefl, Hm.
    by rewrite (treeOfEntries_ext _ (treeOf (length (heap w)) n (heap w')) _ _
                  (fun v t => treeOf_transfer _ _ n _ _ v t
                                (Nat.le_succ_diag_r _) (fun _ _ _ => eq_refl))
                  Htree).
Qed.

(** Plain data make the round trip as a deep copy: for a value of
    numbers, strings, booleans, arrays and maps (maps with distinct keys
    other than [##REF##], [##ID##], [##TYPE##]), serialization returns
    its tree and changes nothing, and reconstruction returns a value
    with the same tree that is made of new objects only; no object that
    was there is touched, no warning is issued. *)
Theorem round_trip_copies_plain_data (fuel : nat) (v : Value) (w w2 : World)
    (cid cid2 : string) (t : Description) :
  treeOf 0 fuel (heap w) v = Some t -> plainWithin fuel t = true ->
  serialize fuel v w (newContext cid) = Some (t, w, newContext cid)
  /\ exists v' w2' c2',
       roundTrip fuel v w cid w2 cid2 = Some (v', w2', c2')
       /\ treeOf (length (heap w2)) fuel (heap w2') v' = Some t
       /\ extends w2 w2'
       /\ warnings w2' = warnings w2.
Proof.
  intros Htree Hplain.
  pose proof (createDescription_tree fuel v w (newContext cid) t Htree
                (plainWithin_distinct _ _ Hplain)) as Hser.
  split; [done|]. unfold roundTrip, serialize, createFromString.
  rewrite Hser. cbn [mbind option_bind].
  destruct (createObject_tree fuel t w2 (newContext cid2) Hplain)
    as ([[v' w2'] c2'] & Hrun & _ & Hext & Hwarn & _ & Hcopy).
  exists v', w2', c2'. split; [done|]. split; [done|]. by split.
Qed.

Lemma round_trip_copies_plain_data_witness :
  let w := mkWorld [OMap [("list"%string, VRef 1); ("n"%string, VNumber 3)];
                    OArray [VString "x"; VBool true]] 0 [] in
  let t := DMap [("list"%string, DArray [DString "x"; DBool true]);
                 ("n"%string, DNumber 3)] in
  serialize 3 (VRef 0) w (newContext "42") = Some (t, w, newContext "42")
  /\ exists v' w2' c2',
       roundTrip 3 (VRef 0) w "42" w "43" = Some (v', w2', c2')
       /\ treeOf (length (heap w)) 3 (heap w2') v' = Some t
       /\ extends w w2'
       /\ warnings w2' = warnings w.
Proof.
  apply (round_trip_copies_plain_data 3 (VRef 0)
           (mkWorld [OMap [("list"%string, VRef 1); ("n"%string, VNumber 3)];
                     OArray [VString "x"; VBool true]] 0 [])
           (mkWorld [OMap [("list"%string, VRef 1); ("n"%string, VNumber 3)];
                     OArray [VString "x"; VBool true]] 0 [])
           "42" "43"
           (DMap [("list"%string, DArray [DString "x"; DBool true]);
                  ("n"%string, DNumber 3)])).
  - reflexivity.
  - by vm_compute.
Defined.

(** A map with the key [##REF##] does not make the round trip: when the
    entry holds a string, reconstruction takes the description of the
    map for a reference, finds no object of that id, and returns [void]
    with a warning. *)
Theorem round_trip_loses_map_with_REF (fuel : nat) (v : Value) (w w2 : World)
    (cid cid2 : string) (es : list (string * Description)) (r : string) :
  treeOf 0 fuel (heap w) v = Some (DMap es) ->
  distinctWithin fuel (DMap es) = true ->
  alist_get "##REF##" es = Some (DString r) ->
  roundTrip fuel v w cid w2 cid2
  = Some (VVoid, warn ("Unknown reference '" +:+ r +:+ "'.") w2,
          newContext cid2).
Proof.
  intros Htree Hdistinct Href. unfold roundTrip, serialize, createFromString.
  rewrite (createDescription_tree fuel v w (newContext cid) _ Htree Hdistinct).
  cbn [mbind option_bind]. destruct fuel as [|n]; [done|].
  cbn [createObject]. unfold entry. rewrite Href. cbn [default truthy].
  unfold findObject. cbn. by rewrite lookup_empty.
Qed.

Lemma round_trip_loses_map_with_REF_witness :
  roundTrip 2 (VRef 0) (mkWorld [OMap [("##REF##"%string, VString "x")]] 0 [])
    "42" (mkWorld [] 0 []) "43"
  = Some (VVoid,
          warn ("Unknown reference '" +:+ "x" +:+ "'.") (mkWorld [] 0 []),
          newContext "43").
Proof.
  apply (round_trip_loses_map_with_REF 2 (VRef 0)
           (mkWorld [OMap [("##REF##"%string, VString "x")]] 0 [])
           (mkWorld [] 0 []) "42" "43"
           [("##REF##"%string, DString "x")] "x").
  - reflexivity.
  - by vm_compute.
  - reflexivity.
Defined.

End ObjectSerializationOperations.

(** ** The multi-procedure *)

Section MultiProcedureClaims.
Import MultiProcedure.
Local Open Scope nat_scope.
Context {St P : Type}.






End MultiProcedureClaims.

(** ** Data wrappers *)

Section DataWrapperClaims.
Import DataWrapper.
Context {V St : Type} (equal : V -> V -> bool).





End DataWrapperClaims.

Section DataWrapperExamples.
Import DataWrapper.




End DataWrapperExamples.
